(** * Typesaurus helpers: marshaller, path parsing, writes, batch reads and
      query compilation

    A shallow embedding of [src/helpers/index.ts].  JavaScript values are
    trees ([value]); every function that can throw returns a [result]; the
    calls made on the store client are recorded in a log. *)

From Stdlib Require Import ZArith Ascii String List Bool Lia.
From stdpp Require Import base option list strings gmap.
Import ListNotations.
Local Open Scope string_scope.
Local Open Scope list_scope.

(** ** Outcomes

    [Throw] is a JavaScript exception.  [Unmodelled] marks the places where
    the source relies on an unchecked TypeScript cast (or on the own
    properties of a store-native object) and the argument is not of the
    type the source assumes: JavaScript goes on with coercions that this
    development does not follow. *)

Inductive error : Type :=
| Error (message : string)
| TypeError (message : string)
| RangeError (message : string).

Inductive result (A : Type) : Type :=
| Ok (a : A)
| Throw (e : error)
| Unmodelled.

Arguments Ok {A} a.
Arguments Throw {A} e.
Arguments Unmodelled {A}.

#[global] Instance result_ret : MRet result := fun _ a => Ok a.

#[global] Instance result_bind : MBind result := fun _ _ k r =>
  match r with
  | Ok a => k a
  | Throw e => Throw e
  | Unmodelled => Unmodelled
  end.

#[global] Instance result_fmap : FMap result := fun _ _ f r =>
  match r with
  | Ok a => Ok (f a)
  | Throw e => Throw e
  | Unmodelled => Unmodelled
  end.

(** Code that also reads or writes a state of type [S]. *)
Record State (S A : Type) : Type := Run { run : S -> result A * S }.
Arguments Run {S A} _.
Arguments run {S A} _ _.

#[global] Instance State_ret {S} : MRet (State S) := fun _ a => Run (fun s => (Ok a, s)).

#[global] Instance State_bind {S} : MBind (State S) := fun _ _ k m =>
  Run (fun s =>
    match run m s with
    | (Ok a, s') => run (k a) s'
    | (Throw e, s') => (Throw e, s')
    | (Unmodelled, s') => (Unmodelled, s')
    end).

(** A computation that does not touch the state. *)
Definition lift {S A} (r : result A) : State S A := Run (fun s => (r, s)).

Section MapM.
Context {A B : Type} (f : A -> result B).

(** [xs.forEach]/[xs.map] with a callback that may throw: left to right,
    the first exception aborts. *)
Fixpoint mapM (xs : list A) : result (list B) :=
  match xs with
  | [] => Ok []
  | x :: xs' => y ← f x; ys ← mapM xs'; Ok (y :: ys)
  end.

End MapM.

(** ** Strings

    A string is its sequence of code units; the development covers the
    code units below 256, one [ascii] each. *)

Definition chars (s : string) : list ascii := list_ascii_of_string s.
Definition str (cs : list ascii) : string := string_of_list_ascii cs.

Definition LF : ascii := ascii_of_nat 10.
Definition CR : ascii := ascii_of_nat 13.
Definition slash : ascii := "/"%char.

(** What [.] matches in a regular expression without the [s] flag: any
    code unit that is not a line terminator (of the four line terminators
    only LF and CR are below 256). *)
Definition dot (c : ascii) : bool :=
  negb (Ascii.eqb c LF || Ascii.eqb c CR).

(** [xs.join(sep)] on strings. *)
Definition join (sep : string) (xs : list string) : string :=
  String.concat sep xs.

(** ** References and path parsing *)

Record RichCollection : Type := { path : string }.

Module Ref.
Record t : Type := { collection : RichCollection; id : string }.
End Ref.

(** [new Ref(new RichCollection(collectionPath), id)] *)
Definition newRef (collectionPath i : string) : Ref.t :=
  {| Ref.collection := {| path := collectionPath |}; Ref.id := i |}.

(** [[ref.collection.path].concat(ref.id).join('/')] *)
Definition getRefPath (ref : Ref.t) : string :=
  join "/" ([path (Ref.collection ref)] ++ [Ref.id ref]).

(** The longest run of [.] at the head of the input: what a greedy [.+]
    takes first. *)
Fixpoint greedy (cs : list ascii) : nat :=
  match cs with
  | c :: cs' => if dot c then S (greedy cs') else 0
  | [] => 0
  end.

(** The rest of the pattern, [\/(.+)$], on what is left after the first
    group: a slash, then a second group that has to reach the end of the
    input. *)
Definition after_group (rest : list ascii) : option (list ascii) :=
  match rest with
  | c :: cs =>
      if Ascii.eqb c slash && negb (Nat.eqb (length cs) 0) && forallb dot cs
      then Some cs else None
  | [] => None
  end.

(** Backtracking of the first group of [/^(.+)\/(.+)$/]: it holds [n] code
    units and gives them back one at a time, down to one, until the rest
    of the pattern matches. *)
Fixpoint backtrack (cs : list ascii) (n : nat) : option (list ascii * list ascii) :=
  match n with
  | 0 => None
  | S n' =>
      match after_group (drop n cs) with
      | Some i => Some (take n cs, i)
      | None => backtrack cs n'
      end
  end.

(** [path.match(/^(.+)\/(.+)$/)]: the two captures, or [None] for [null]. *)
Definition match_path (p : string) : option (string * string) :=
  match backtrack (chars p) (greedy (chars p)) with
  | Some (c, i) => Some (str c, str i)
  | None => None
  end.

Definition pathToRef (p : string) : result Ref.t :=
  match match_path p with
  | None => Throw (Error ("Can't parse path " +:+ p))
  | Some (collectionPath, i) => Ok (newRef collectionPath i)
  end.

(** ** JavaScript values

    Objects carry their own enumerable properties in enumeration order.
    Instances of the classes of this file ([Ref], [Doc], [RichCollection])
    and the field-value sentinels of [writeHelpers] are such objects: the
    marshaller tells them apart by their [type] property only.  Numbers and
    time values are integers, which the code never computes with.  The
    store-native classes are constructors of their own: [Timestamp t] is
    the timestamp that [firestore.Timestamp.fromDate] builds from the date
    of time value [t] and that [toDate] turns back into it;
    [DocumentReference p] is [admin.firestore().doc(p)], whose [path] is
    [p]; the last five are the transforms that [firestore.FieldValue]
    builds. *)

#[warnings="-register-all"]
Inductive value : Type :=
| VUndefined
| VNull
| VBool (b : bool)
| VNum (n : Z)
| VStr (s : string)
| VDate (time : Z)
| VArr (items : list value)
| VObj (props : list (string * value))
| Timestamp (time : Z)
| DocumentReference (path : string)
| FieldValue_delete
| FieldValue_increment (n : value)
| FieldValue_arrayUnion (elements : list value)
| FieldValue_arrayRemove (elements : list value)
| FieldValue_serverTimestamp.

(** [o[k]] on the own properties of an object. *)
Fixpoint lookup_prop {V : Type} (k : string) (fs : list (string * V)) : option V :=
  match fs with
  | [] => None
  | (k', v) :: fs' => if String.eqb k' k then Some v else lookup_prop k fs'
  end.

(** [v[k]] for the property names this file reads ([type], [kind],
    [collection], ..., and the field names of a document; not the names
    that every object inherits, nor the indices and [length] of arrays and
    strings): a missing property, and any property of a value that is not
    an object of own properties, reads as [undefined].  Reading a property
    of [undefined] or [null] throws; the callers test for that first. *)
Definition prop (v : value) (k : string) : value :=
  match v with
  | VObj fs => default VUndefined (lookup_prop k fs)
  | _ => VUndefined
  end.

(** [o[k] = v]: an existing property keeps its place, a new one goes last. *)
Fixpoint set_prop {V : Type} (k : string) (v : V) (fs : list (string * V))
  : list (string * V) :=
  match fs with
  | [] => [(k, v)]
  | (k', v') :: fs' =>
      if String.eqb k' k then (k', v) :: fs' else (k', v') :: set_prop k v fs'
  end.

(** [v === 's'] *)
Definition is_str (v : value) (s : string) : bool :=
  match v with
  | VStr s' => String.eqb s' s
  | _ => false
  end.

(** JavaScript truthiness, as in [if (!field)] and [data && ...]. *)
Definition truthy (v : value) : bool :=
  match v with
  | VUndefined | VNull => false
  | VBool b => b
  | VNum n => negb (Z.eqb n 0)
  | VStr s => negb (String.eqb s "")
  | _ => true
  end.

Definition nullish (v : value) : bool :=
  match v with
  | VUndefined | VNull => true
  | _ => false
  end.

(** The class instances of this file, as the objects their constructors
    build (properties in assignment order). *)
Definition collection_value (c : RichCollection) : value :=
  VObj [("path", VStr (path c))].

Definition ref_value (r : Ref.t) : value :=
  VObj [("type", VStr "ref");
        ("collection", collection_value (Ref.collection r));
        ("id", VStr (Ref.id r))].

(** The cast [data as Typesaurus.Ref<unknown>] together with the two reads
    [ref.collection.path] and [ref.id] that [getRefPath] makes. *)
Definition asRef (data : value) : result Ref.t :=
  let c := prop data "collection" in
  if nullish c
  then Throw (TypeError "Cannot read properties of undefined (reading 'path')")
  else match prop c "path", prop data "id" with
       | VStr p, VStr i => Ok (newRef p i)
       | _, _ => Unmodelled
       end.

(** [admin.firestore().doc(getRefPath(ref))] *)
Definition refToFirestoreDocument (ref : Ref.t) : value :=
  DocumentReference (getRefPath ref).

(** The spread [...xs] of an argument list. *)
Definition spread (xs : value) : result (list value) :=
  match xs with
  | VArr items => Ok items
  | VStr s => Ok (map (fun c => VStr (String c EmptyString)) (chars s))
  | _ => Throw (TypeError "Spread syntax requires ...iterable[Symbol.iterator] to be a function")
  end.

Section AtProp.
Context {A : Type} (f : value -> A) (undef : A) (k : string).

(** [f(o[k])], written over the property list so that [f] may be the
    function that is being defined; [undef] is [f(undefined)], for a
    missing property. *)
Fixpoint at_prop (fs : list (string * value)) : A :=
  match fs with
  | [] => undef
  | (k', v) :: fs' => if String.eqb k' k then f v else at_prop fs'
  end.

End AtProp.

Section MapProps.
Context (f : value -> result value).

(** [Object.keys(o).forEach((key) => { o[key] = f(o[key]) })] *)
Fixpoint mapM_props (fs : list (string * value)) : result (list (string * value)) :=
  match fs with
  | [] => Ok []
  | (k, v) :: fs' => v' ← f v; fs'' ← mapM_props fs'; Ok ((k, v') :: fs'')
  end.

End MapProps.

(** ** The marshaller *)

Fixpoint unwrapData (data : value) : result value :=
  let container :=
    match data with
    | VArr items => VArr <$> mapM unwrapData items
    | VObj fs => VObj <$> mapM_props unwrapData fs
    | _ => Unmodelled
    end in
  match data with
  | VObj fs =>
      if is_str (prop data "type") "ref" then
        refToFirestoreDocument <$> asRef data
      else if is_str (prop data "type") "value" then
        let kind := prop data "kind" in
        if is_str kind "remove" then Ok FieldValue_delete
        else if is_str kind "increment" then
          Ok (FieldValue_increment (prop data "number"))
        else if is_str kind "arrayUnion" then
          values ← at_prop unwrapData (Ok VNull) "values" fs;
          FieldValue_arrayUnion <$> spread values
        else if is_str kind "arrayRemove" then
          values ← at_prop unwrapData (Ok VNull) "values" fs;
          FieldValue_arrayRemove <$> spread values
        else if is_str kind "serverDate" then Ok FieldValue_serverTimestamp
        else container
      else container
  | VArr _ => container
  | VDate t => Ok (Timestamp t)
  | VUndefined => Ok VNull
  | VNull | VBool _ | VNum _ | VStr _ => Ok data
  | Timestamp _ | DocumentReference _ | FieldValue_delete
  | FieldValue_increment _ | FieldValue_arrayUnion _
  | FieldValue_arrayRemove _ | FieldValue_serverTimestamp => Unmodelled
  end.

Fixpoint wrapData (data : value) : result value :=
  match data with
  | DocumentReference p => ref_value <$> pathToRef p
  | Timestamp t => Ok (VDate t)
  | VArr items => VArr <$> mapM wrapData items
  | VObj fs => VObj <$> mapM_props wrapData fs
  | VDate _ => Ok (VObj [])
  | FieldValue_delete | FieldValue_increment _ | FieldValue_arrayUnion _
  | FieldValue_arrayRemove _ | FieldValue_serverTimestamp => Unmodelled
  | VUndefined | VNull | VBool _ | VNum _ | VStr _ => Ok data
  end.

Fixpoint nullifyData (data : value) : result value :=
  let member v :=
    match v with
    | VUndefined => Ok VNull
    | _ => nullifyData v
    end in
  match data with
  | VArr items => VArr <$> mapM member items
  | VObj fs => VObj <$> mapM_props member fs
  | VDate _ => Ok data
  | Timestamp _ | DocumentReference _ | FieldValue_delete
  | FieldValue_increment _ | FieldValue_arrayUnion _
  | FieldValue_arrayRemove _ | FieldValue_serverTimestamp => Unmodelled
  | VUndefined | VNull | VBool _ | VNum _ | VStr _ => Ok data
  end.

(** ** Write helpers and write arguments *)

Record WriteHelpers : Type := {
  serverDate : unit -> value;
  remove : unit -> value;
  increment : value -> value;
  arrayUnion : value -> value;
  arrayRemove : value -> value
}.

(** [[].concat(values)]: an array argument is spliced in, anything else
    becomes the only element. *)
Definition concat_empty (values : value) : value :=
  match values with
  | VArr items => VArr items
  | v => VArr [v]
  end.

Definition writeHelpers : WriteHelpers := {|
  serverDate := fun _ => VObj [("type", VStr "value"); ("kind", VStr "serverDate")];
  remove := fun _ => VObj [("type", VStr "value"); ("kind", VStr "remove")];
  increment := fun number =>
    VObj [("type", VStr "value"); ("kind", VStr "increment"); ("number", number)];
  arrayUnion := fun values =>
    VObj [("type", VStr "value"); ("kind", VStr "arrayUnion");
          ("values", concat_empty values)];
  arrayRemove := fun values =>
    VObj [("type", VStr "value"); ("kind", VStr "arrayRemove");
          ("values", concat_empty values)]
|}.

(** What a write takes ([Typesaurus.WriteModelArg]) and what a store call
    is handed: a value, or a function over the helpers.
    [typeof x === 'function'] is the test for [Fun]. *)
Inductive any : Type :=
| Val (data : value)
| Fun (getData : WriteHelpers -> value).

(** [unwrapData] at a write argument.  A function is neither an object nor
    [undefined]: the last branch returns it as it is. *)
Definition unwrapData_any (data : any) : result any :=
  match data with
  | Val v => Val <$> unwrapData v
  | Fun f => Ok (Fun f)
  end.

(** ** The store client

    The store is external.  What this development keeps of it: the
    documents it holds, by path, for the reads; the identifiers it will
    generate; and the log of the calls it received.  A write is logged, and
    what the store then does with it is the store's own matter. *)

Inductive call : Type :=
| doc_set (docPath : string) (data : any) (merge : bool)
| doc_update (docPath : string) (data : any)
| collection_add (collectionPath : string) (data : any)
| getAll (docPaths : list string).

Record Firestore : Type := {
  docs : gmap string value;
  autoId : nat -> string;
  log : list call
}.

(** The store calls of this file run in [M]. *)
Abbreviation M := (State Firestore).

Definition record (c : call) (fs : Firestore) : Firestore :=
  {| docs := docs fs; autoId := autoId fs; log := log fs ++ [c] |}.

(** [admin.firestore().doc(p).set(data)], and with [{ merge: true }]. *)
Definition firestore_set (p : string) (data : any) (merge : bool) : M unit :=
  Run (fun fs : Firestore => (Ok tt, record (doc_set p data merge) fs)).

Definition firestore_update (p : string) (data : any) : M unit :=
  Run (fun fs => (Ok tt, record (doc_update p data) fs)).

(** [admin.firestore().collection(p).add(data)]: the reference of the new
    document, under an identifier of the store's choice. *)
Definition firestore_add (p : string) (data : any) : M string :=
  Run (fun fs => (Ok (autoId fs (length (log fs))), record (collection_add p data) fs)).

(** The part of a document path after its last slash: the [id] of the
    document (and of its snapshots). *)
Fixpoint last_segment_from (acc : list ascii) (cs : list ascii) : list ascii :=
  match cs with
  | [] => acc
  | c :: cs' =>
      if Ascii.eqb c slash then last_segment_from [] cs'
      else last_segment_from (acc ++ [c]) cs'
  end.

Definition last_segment (p : string) : string :=
  str (last_segment_from [] (chars p)).

Module Snapshot.
Record t : Type := { id : string; data : option value }.
End Snapshot.

(** [snap.exists] *)
Definition snapshot_exists (snap : Snapshot.t) : bool :=
  bool_decide (is_Some (Snapshot.data snap)).

(** [snap.data()] *)
Definition snapshot_data (snap : Snapshot.t) : value :=
  default VUndefined (Snapshot.data snap).

(** [admin.firestore().getAll(...refs)]: one round trip, one snapshot for
    each reference, in the order of the references. *)
Definition firestore_getAll (paths : list string) : M (list Snapshot.t) :=
  Run (fun fs =>
    (Ok (map (fun p => {| Snapshot.id := last_segment p;
                           Snapshot.data := docs fs !! p |}) paths),
     record (getAll paths) fs)).

(** ** Collections *)

Module Doc.
Record t : Type := { ref : Ref.t; data : value }.
End Doc.

(** [new Doc(collection, id, data)], as the object it builds. *)
Definition doc_value (d : Doc.t) : value :=
  VObj [("type", VStr "doc");
        ("collection", collection_value (Ref.collection (Doc.ref d)));
        ("ref", ref_value (Doc.ref d));
        ("data", Doc.data d);
        ("environment", VStr "server")].

(** *** Edits of [update] *)

(** The property name in [acc[Array.isArray(key) ? key.join('.') : key]]
    for the keys an edit can have by its type: a string, or an array of
    strings. *)
Definition segment (v : value) : result string :=
  match v with
  | VStr s => Ok s
  | VUndefined | VNull => Ok ""
  | _ => Unmodelled
  end.

Definition property_key (key : value) : result string :=
  match key with
  | VArr items => join "." <$> mapM segment items
  | VStr s => Ok s
  | VUndefined => Ok "undefined"
  | _ => Unmodelled
  end.

(** The callback of [updateData.reduce]. *)
Definition update_field (acc field : value) : result value :=
  if negb (truthy field) then Ok VUndefined
  else
    let key := prop field "key" in
    let value := prop field "value" in
    k ← property_key key;
    match acc with
    | VObj fs => Ok (VObj (set_prop k value fs))
    | VUndefined | VNull =>
        Throw (TypeError ("Cannot set properties of undefined (setting '" +:+ k +:+ "')"))
    | _ => Unmodelled
    end.

(** [xs.reduce(f, acc)] with a callback that may throw. *)
Fixpoint reduce (f : value -> value -> result value) (acc : value) (xs : list value)
  : result value :=
  match xs with
  | [] => Ok acc
  | x :: xs' => acc' ← f acc x; reduce f acc' xs'
  end.

(** *** Batch reads *)

(** [Typesaurus.OnMissingMode]: the string ['ignore'], or a callback. *)
Inductive OnMissingMode : Type :=
| ignore
| callback (onMissing : string -> result value).

Definition defaultOnMissing (i : string) : result value :=
  Throw (Error ("Missing document with id " +:+ i)).

(** [xs.filter((doc) => doc != null)] *)
Fixpoint filter_non_null {A : Type} (xs : list (option A)) : list A :=
  match xs with
  | [] => []
  | Some x :: xs' => x :: filter_non_null xs'
  | None :: xs' => filter_non_null xs'
  end.

(** *** Queries *)

Inductive OrderCursorPosition : Type := startAt | startAfter | endAt | endBefore.

#[global] Instance OrderCursorPosition_eq_dec : EqDecision OrderCursorPosition.
Proof. solve_decision. Defined.

Module OrderCursor.
Record t : Type := { position : OrderCursorPosition; value : value }.
End OrderCursor.

(** A field of a directive: the [docId] sentinel, a field name, or an
    array of path segments. *)
Inductive Field : Type :=
| docId
| Name (name : string)
| Path (segments : list string).

Inductive Query : Type :=
| order (field : Field) (method : string) (cursors : option (list OrderCursor.t))
| where_ (field : Field) (filter : string) (value : value)
| limit (number : value).

(** The field argument of the store's [orderBy] and [where]. *)
Inductive FieldPath : Type :=
| FieldPath_documentId
| FieldPath_string (fieldName : string).

(** A method call on the store's query object; a compiled query is the
    chain of calls on [admin.firestore().collection(path)]. *)
Inductive QueryCall : Type :=
| call_orderBy (field : FieldPath) (method : string)
| call_where (field : FieldPath) (filter : string) (value : value)
| call_limit (number : value)
| call_cursor (method : OrderCursorPosition) (values : list value).

Record FirestoreQuery : Type := {
  from : string;
  calls : list QueryCall
}.

Definition chain (q : FirestoreQuery) (c : QueryCall) : FirestoreQuery :=
  {| from := from q; calls := calls q ++ [c] |}.

(** [field instanceof DocId ? admin.firestore.FieldPath.documentId()
    : field.toString()]; an array prints as its elements joined by commas. *)
Definition order_field (field : Field) : FieldPath :=
  match field with
  | docId => FieldPath_documentId
  | Name s => FieldPath_string s
  | Path l => FieldPath_string (join "," l)
  end.

(** [const fieldName = Array.isArray(field) ? field.join('.') : field],
    then [fieldName instanceof DocId ? ...documentId() : fieldName]. *)
Definition where_field (field : Field) : FieldPath :=
  match field with
  | Path l => FieldPath_string (join "." l)
  | docId => FieldPath_documentId
  | Name s => FieldPath_string s
  end.

(** [typeof value === 'object' && value !== null && 'type' in value &&
    value.type == 'doc'] *)
Definition is_doc (v : value) : bool :=
  match v with
  | VObj _ => is_str (prop v "type") "doc"
  | _ => false
  end.

(** [o.k] where [o] may be [undefined] or [null]. *)
Definition member (o : value) (k : string) : result value :=
  if nullish o
  then Throw (TypeError ("Cannot read properties of undefined (reading '" +:+ k +:+ "')"))
  else Ok (prop o k).

(** The value a cursor of an [order] directive on [field] is given. *)
Definition cursor_value (field : Field) (v : value) : result value :=
  if is_doc v then
    match field with
    | docId => member (prop v "ref") "id"
    | Name s => member (prop v "data") s
    | Path l => member (prop v "data") (join "," l)
    end
  else Ok v.

Definition resolve_cursor (field : Field) (c : OrderCursor.t) : result OrderCursor.t :=
  v ← cursor_value field (OrderCursor.value c);
  Ok {| OrderCursor.position := OrderCursor.position c; OrderCursor.value := v |}.

(** The body of [queries.forEach]: the accumulator query and the cursors
    collected so far. *)
Definition query_step (st : FirestoreQuery * list OrderCursor.t) (query : Query)
  : result (FirestoreQuery * list OrderCursor.t) :=
  let '(firestoreQuery, cursors) := st in
  match query with
  | order field method queryCursors =>
      let firestoreQuery := chain firestoreQuery (call_orderBy (order_field field) method) in
      match queryCursors with
      | Some cs =>
          resolved ← mapM (resolve_cursor field) cs;
          Ok (firestoreQuery, cursors ++ resolved)
      | None => Ok (firestoreQuery, cursors)
      end
  | where_ field filter v =>
      v' ← unwrapData v;
      Ok (chain firestoreQuery (call_where (where_field field) filter v'), cursors)
  | limit number =>
      Ok (chain firestoreQuery (call_limit number), cursors)
  end.

Fixpoint forEach {S X : Type} (f : S -> X -> result S) (xs : list X) (st : S) : result S :=
  match xs with
  | [] => Ok st
  | x :: xs' => st' ← f st x; forEach f xs' st'
  end.

Definition groups : Type := list (OrderCursorPosition * list value).

(** [methodValues[1].push(v)] on the first group of [position], or on a
    new last group when [find] returns nothing. *)
Fixpoint push_group (position : OrderCursorPosition) (v : value) (groupedCursors : groups)
  : groups :=
  match groupedCursors with
  | [] => [(position, [v])]
  | (p, values) :: rest =>
      if bool_decide (p = position) then (p, values ++ [v]) :: rest
      else (p, values) :: push_group position v rest
  end.

(** The body of [cursors.forEach]. *)
Definition group_step (groupedCursors : groups) (cursor : OrderCursor.t) : result groups :=
  v ← unwrapData (OrderCursor.value cursor);
  Ok (push_group (OrderCursor.position cursor) v groupedCursors).

(** [cursor.value !== undefined] *)
Definition defined (cursor : OrderCursor.t) : bool :=
  match OrderCursor.value cursor with
  | VUndefined => false
  | _ => true
  end.

(** [groupedCursors.forEach(([method, values]) => { firestoreQuery =
    firestoreQuery[method](...values) })] *)
Definition apply_groups (groupedCursors : groups) (firestoreQuery : FirestoreQuery)
  : FirestoreQuery :=
  fold_left (fun q '(method, values) => chain q (call_cursor method values))
    groupedCursors firestoreQuery.

Section RichCollection.
Context (this : RichCollection).

Definition ref (i : string) : Ref.t :=
  {| Ref.collection := this; Ref.id := i |}.

Definition doc (i : string) (data : value) : Doc.t :=
  {| Doc.ref := ref i; Doc.data := data |}.

(** The path handed to [admin.firestore().collection]. *)
Definition firebaseCollection : string := path this.

(** The path handed to [admin.firestore().doc]. *)
Definition firebaseDoc (i : string) : string := path this +:+ "/" +:+ i.

Definition add (getData : any) : M Ref.t :=
  let data :=
    match getData with
    | Fun f => Val (f writeHelpers)
    | Val _ => getData
    end in
  payload ← lift (unwrapData_any data);
  firebaseRef_id ← firestore_add firebaseCollection payload;
  mret (ref firebaseRef_id).

Definition set (i : string) (data : any) : M unit :=
  payload ← lift (unwrapData_any data);
  firestore_set (firebaseDoc i) payload false.

Definition upset (i : string) (data : any) : M unit :=
  let dataToUpset :=
    match data with
    | Fun f => Val (f writeHelpers)
    | Val _ => data
    end in
  payload ← lift (unwrapData_any dataToUpset);
  firestore_set (firebaseDoc i) payload true.

Definition update (i : string) (data : any) : M unit :=
  updateData ← lift
    match data with
    | Fun _ => Throw (TypeError "this.updateHelpers is not a function")
    | Val v => Ok v
    end;
  update ← lift
    match updateData with
    | VArr fields => reduce update_field (VObj []) fields
    | _ => Ok updateData
    end;
  payload ← lift (unwrapData update);
  firestore_update (firebaseDoc i) (Val payload).

(** [firestoreData && wrapData(firestoreData)] *)
Definition and_wrapData (firestoreData : value) : result value :=
  if truthy firestoreData then wrapData firestoreData else Ok firestoreData.

(** The callback of [firestoreSnaps.map] in [getMany]; [None] is [null]. *)
Definition getMany_snap (onMissing : option OnMissingMode) (firestoreSnap : Snapshot.t)
  : result (option Doc.t) :=
  if negb (snapshot_exists firestoreSnap) then
    match onMissing with
    | Some ignore => Ok None
    | Some (callback f) =>
        data ← f (Snapshot.id firestoreSnap);
        Ok (Some (doc (Snapshot.id firestoreSnap) data))
    | None =>
        data ← defaultOnMissing (Snapshot.id firestoreSnap);
        Ok (Some (doc (Snapshot.id firestoreSnap) data))
    end
  else
    let firestoreData := snapshot_data firestoreSnap in
    data ← and_wrapData firestoreData;
    Ok (Some (doc (Snapshot.id firestoreSnap) data)).

(** The [get] of the result of [getMany(ids, { onMissing })]. *)
Definition getMany (ids : list string) (onMissing : option OnMissingMode)
  : M (list Doc.t) :=
  if Nat.eqb (length ids) 0 then mret ([] : list Doc.t)
  else
    firestoreSnaps ← firestore_getAll (map firebaseDoc ids);
    found ← lift (mapM (getMany_snap onMissing) firestoreSnaps);
    mret (filter_non_null found).

(** The query object before the first directive. *)
Definition start : FirestoreQuery * list OrderCursor.t :=
  ({| from := firebaseCollection; calls := [] |}, []).

(** [query(getQueries)], up to the query object that the returned [get]
    runs; [queries] is what [getQueries(this.queryHelpers())] returned. *)
Definition query (queries : list Query) : result FirestoreQuery :=
  '(firestoreQuery, cursors) ←
    forEach query_step queries start;
  groupedCursors ← forEach group_step cursors [];
  if negb (Nat.eqb (length cursors) 0) && forallb defined cursors
  then Ok (apply_groups groupedCursors firestoreQuery)
  else Ok firestoreQuery.

End RichCollection.

(** ** The marshaller on a heap

    The same three functions once more, with the objects where JavaScript
    has them: in a heap, behind addresses.  A value is a primitive or the
    address of an object; an assignment [o[k] = v] changes the object at
    the address; a call that recurses deeper than the stack allows throws
    a [RangeError]. *)

Module Heap.

Definition loc : Type := positive.

Inductive val : Type :=
| undefined
| null
| boolean (b : bool)
| number (n : Z)
| text (s : string)
| object (l : loc).

Inductive cell : Type :=
| Plain (props : list (string * val))
| Array (items : list val)
| Date (time : Z)
| Timestamp (time : Z)
| DocumentReference (path : string)
| FieldValue_delete
| FieldValue_increment (n : val)
| FieldValue_arrayUnion (elements : list val)
| FieldValue_arrayRemove (elements : list val)
| FieldValue_serverTimestamp.

Abbreviation heap := (gmap loc cell).
Abbreviation H := (State heap).

Inductive key : Type :=
| name (k : string)
| index (i : nat).

(** A new object, at an address that is not in use. *)
Definition alloc (c : cell) : H val :=
  Run (fun h : heap => let l := fresh (dom h) in (Ok (object l), <[l := c]> h)).

Definition cell_of (l : loc) : H cell :=
  Run (fun h : heap =>
    match h !! l with
    | Some c => (Ok c, h)
    | None => (Unmodelled, h)
    end).

(** [Object.keys(o)] *)
Definition keys (c : cell) : list key :=
  match c with
  | Plain props => map (fun kv => name (fst kv)) props
  | Array items => map index (seq 0 (length items))
  | _ => []
  end.

Definition cell_get (c : cell) (k : key) : val :=
  match c, k with
  | Plain props, name s => default undefined (lookup_prop s props)
  | Array items, index i => default undefined (items !! i)
  | _, _ => undefined
  end.

(** The object after [o[k] = v]; an array grows by one when [k] is its
    length, and is not followed beyond that. *)
Definition cell_put (c : cell) (k : key) (v : val) : option cell :=
  match c, k with
  | Plain props, name s => Some (Plain (set_prop s v props))
  | Array items, index i =>
      if Nat.ltb i (length items) then Some (Array (<[i := v]> items))
      else if Nat.eqb i (length items) then Some (Array (items ++ [v]))
      else None
  | _, _ => None
  end.

(** [o[k]] *)
Definition get (o : val) (k : key) : H val :=
  match o with
  | object l => c ← cell_of l; mret (cell_get c k)
  | undefined | null =>
      lift (Throw (TypeError "Cannot read properties of undefined"))
  | _ => mret undefined
  end.

(** [o[k] = v] *)
Definition put (o : val) (k : key) (v : val) : H unit :=
  match o with
  | object l =>
      Run (fun h : heap =>
        match h !! l with
        | Some c =>
            match cell_put c k v with
            | Some c' => (Ok tt, <[l := c']> h)
            | None => (Unmodelled, h)
            end
        | None => (Unmodelled, h)
        end)
  | _ => lift Unmodelled
  end.

Definition keys_of (o : val) : H (list key) :=
  match o with
  | object l => c ← cell_of l; mret (keys c)
  | _ => mret []
  end.

Definition is_text (v : val) (s : string) : bool :=
  match v with
  | text s' => String.eqb s' s
  | _ => false
  end.

Definition nullish (v : val) : bool :=
  match v with
  | undefined | null => true
  | _ => false
  end.

Section Each.
Context {K : Type} (body : K -> H unit).

(** [ks.forEach(body)] *)
Fixpoint each (ks : list K) : H unit :=
  match ks with
  | [] => mret tt
  | k :: ks' => _ ← body k; each ks'
  end.

End Each.

(** [Object.assign(Array.isArray(data) ? [] : {}, data)] for [data] at a
    cell [c]. *)
Definition assign (data : val) (c : cell) : H val :=
  target ← alloc (match c with Array _ => Array [] | _ => Plain [] end);
  _ ← each (fun k => v ← get data k; put target k v) (keys c);
  mret target.

(** The traversal that [unwrapData] and [wrapData] share: copy, then
    [Object.keys(copy).forEach((key) => { copy[key] = f(copy[key]) })]. *)
Definition container (f : val -> H val) (data : val) (c : cell) : H val :=
  copy ← assign data c;
  ks ← keys_of copy;
  _ ← each (fun k => v ← get copy k; v' ← f v; put copy k v') ks;
  mret copy.

Definition asRef (data : val) : H Ref.t :=
  c ← get data (name "collection");
  if nullish c
  then lift (Throw (TypeError "Cannot read properties of undefined (reading 'path')"))
  else
    p ← get c (name "path");
    i ← get data (name "id");
    match p, i with
    | text p', text i' => mret (newRef p' i')
    | _, _ => lift Unmodelled
    end.

Definition spread (xs : val) : H (list val) :=
  match xs with
  | object l =>
      c ← cell_of l;
      match c with
      | Array items => mret items
      | _ => lift (Throw (TypeError "Spread syntax requires ...iterable[Symbol.iterator] to be a function"))
      end
  | text s => mret (map (fun c => text (String c EmptyString)) (chars s))
  | _ => lift (Throw (TypeError "Spread syntax requires ...iterable[Symbol.iterator] to be a function"))
  end.

Definition stack_overflow {A} : H A :=
  lift (Throw (RangeError "Maximum call stack size exceeded")).

Fixpoint unwrapData (depth : nat) (data : val) : H val :=
  match depth with
  | 0 => stack_overflow
  | S depth' =>
      match data with
      | object l =>
          c ← cell_of l;
          match c with
          | Plain _ | Array _ =>
              type ← get data (name "type");
              if is_text type "ref" then
                ref ← asRef data;
                alloc (DocumentReference (getRefPath ref))
              else if is_text type "value" then
                kind ← get data (name "kind");
                if is_text kind "remove" then alloc FieldValue_delete
                else if is_text kind "increment" then
                  n ← get data (name "number");
                  alloc (FieldValue_increment n)
                else if is_text kind "arrayUnion" then
                  values ← get data (name "values");
                  values' ← unwrapData depth' values;
                  elements ← spread values';
                  alloc (FieldValue_arrayUnion elements)
                else if is_text kind "arrayRemove" then
                  values ← get data (name "values");
                  values' ← unwrapData depth' values;
                  elements ← spread values';
                  alloc (FieldValue_arrayRemove elements)
                else if is_text kind "serverDate" then alloc FieldValue_serverTimestamp
                else container (unwrapData depth') data c
              else container (unwrapData depth') data c
          | Date t => alloc (Timestamp t)
          | _ => lift Unmodelled
          end
      | undefined => mret null
      | _ => mret data
      end
  end.

(** [new Ref(new RichCollection(collectionPath), id)] *)
Definition newRef (r : Ref.t) : H val :=
  c ← alloc (Plain [("path", text (path (Ref.collection r)))]);
  alloc (Plain [("type", text "ref"); ("collection", c); ("id", text (Ref.id r))]).

Fixpoint wrapData (depth : nat) (data : val) : H val :=
  match depth with
  | 0 => stack_overflow
  | S depth' =>
      match data with
      | object l =>
          c ← cell_of l;
          match c with
          | DocumentReference p => ref ← lift (pathToRef p); newRef ref
          | Timestamp t => alloc (Date t)
          | Plain _ | Array _ | Date _ => container (wrapData depth') data c
          | _ => lift Unmodelled
          end
      | _ => mret data
      end
  end.

Fixpoint nullifyData (depth : nat) (data : val) : H val :=
  match depth with
  | 0 => stack_overflow
  | S depth' =>
      match data with
      | object l =>
          c ← cell_of l;
          match c with
          | Plain _ | Array _ =>
              newData ← alloc (match c with Array _ => Array [] | _ => Plain [] end);
              _ ← each (fun k =>
                     v ← get data k;
                     v' ← (match v with
                           | undefined => mret null
                           | _ => nullifyData depth' v
                           end);
                     put newData k v') (keys c);
              mret newData
          | Date _ => mret data
          | _ => lift Unmodelled
          end
      | _ => mret data
      end
  end.

(** *** What a call leaves and what it returns *)

(** [Q] holds of the outcome of [m] from the heap [h]. *)
Definition wp {A} (m : H A) (h : heap) (Q : result A -> heap -> Prop) : Prop :=
  Q (run m h).1 (run m h).2.

(** Frame: every object of [h0] is left as it is. *)
Definition frame {A} (h0 : heap) : result A -> heap -> Prop :=
  fun _ h' => h0 ⊆ h'.

(** The containers: plain objects and arrays. *)
Definition container_cell (c : cell) : bool :=
  match c with
  | Plain _ | Array _ => true
  | _ => false
  end.

(** What a container holds. *)
Definition children (c : cell) : list val :=
  match c with
  | Plain props => map snd props
  | Array items => items
  | _ => []
  end.

(** [v] is fresh for the set of addresses [D]: no container that can be
    reached from [v] through properties and elements of containers has
    its address in [D]. *)
Inductive fresh_for (D : gset loc) (h : heap) : val -> Prop :=
| fresh_for_primitive v : (forall l, v <> object l) -> fresh_for D h v
| fresh_for_container l c :
    h !! l = Some c -> container_cell c = true -> l ∉ D ->
    (forall v, v ∈ children c -> fresh_for D h v) ->
    fresh_for D h (object l)
| fresh_for_leaf l c :
    h !! l = Some c -> container_cell c = false -> fresh_for D h (object l).

(** What the three functions promise: the heap [h] they start from is
    extended, and a value they return is fresh for the addresses of [h]. *)
Definition copies (h : heap) : result val -> heap -> Prop :=
  fun r h' => h ⊆ h' /\ forall v, r = Ok v -> fresh_for (dom h) h' v.

End Heap.

(** ** Reading a value of the heap back

    The tree that a value of the heap stands for, down to [depth]
    objects. *)

Section Reify.
Context (reify : Heap.val -> option value).

Fixpoint reify_items (vs : list Heap.val) : option (list value) :=
  match vs with
  | [] => Some []
  | v :: vs' =>
      match reify v, reify_items vs' with
      | Some t, Some ts => Some (t :: ts)
      | _, _ => None
      end
  end.

Fixpoint reify_props (props : list (string * Heap.val)) : option (list (string * value)) :=
  match props with
  | [] => Some []
  | (k, v) :: props' =>
      match reify v, reify_props props' with
      | Some t, Some ts => Some ((k, t) :: ts)
      | _, _ => None
      end
  end.

End Reify.

Fixpoint reify (depth : nat) (h : gmap Heap.loc Heap.cell) (v : Heap.val) : option value :=
  match v with
  | Heap.undefined => Some VUndefined
  | Heap.null => Some VNull
  | Heap.boolean b => Some (VBool b)
  | Heap.number n => Some (VNum n)
  | Heap.text s => Some (VStr s)
  | Heap.object l =>
      match depth, h !! l with
      | S depth', Some c =>
          match c with
          | Heap.Plain props => VObj <$> reify_props (reify depth' h) props
          | Heap.Array items => VArr <$> reify_items (reify depth' h) items
          | Heap.Date t => Some (VDate t)
          | Heap.Timestamp t => Some (Timestamp t)
          | Heap.DocumentReference p => Some (DocumentReference p)
          | Heap.FieldValue_delete => Some FieldValue_delete
          | Heap.FieldValue_increment n =>
              FieldValue_increment <$> reify depth' h n
          | Heap.FieldValue_arrayUnion es =>
              FieldValue_arrayUnion <$> reify_items (reify depth' h) es
          | Heap.FieldValue_arrayRemove es =>
              FieldValue_arrayRemove <$> reify_items (reify depth' h) es
          | Heap.FieldValue_serverTimestamp => Some FieldValue_serverTimestamp
          end
      | _, _ => None
      end
  end.

(** ** The rest of the collection: single reads, references, documents *)

(** [admin.firestore().doc(p).get()]: the snapshot of the document at [p].
    A read leaves the store as it is. *)
Definition firestore_get (p : string) : M Snapshot.t :=
  Run (fun fs =>
    (Ok {| Snapshot.id := last_segment p; Snapshot.data := docs fs !! p |}, fs)).

(** The [get] of the result of [get(id)]; [None] is [null]. *)
Definition get (this : RichCollection) (i : string) : M (option Doc.t) :=
  firebaseSnap ← firestore_get (firebaseDoc this i);
  let data := snapshot_data firebaseSnap in
  if truthy data
  then wrapped ← lift (wrapData (snapshot_data firebaseSnap));
       mret (Some (doc this i wrapped))
  else mret None.

(** The methods of [Ref] hand over to the collection of the reference. *)
Definition Ref_get (r : Ref.t) : M (option Doc.t) :=
  get (Ref.collection r) (Ref.id r).




(** The methods of [Doc] hand over to the reference of the document. *)
Definition Doc_get (d : Doc.t) : M (option Doc.t) := Ref_get (Doc.ref d).



(** ** Query helpers *)

(** What [order] is given after the field: a method, or a cursor. *)
Inductive OrderArg : Type :=
| arg_method (method : string)
| arg_cursor (cursor : OrderCursor.t).

Module QueryHelpers.
Record t : Type := {
  where_ : Field -> string -> value -> Query;
  order : Field -> list OrderArg -> result Query;
  limit : value -> Query;
  startAt : value -> OrderCursor.t;
  startAfter : value -> OrderCursor.t;
  endAt : value -> OrderCursor.t;
  endBefore : value -> OrderCursor.t;
  docId : unit -> Field
}.
End QueryHelpers.

(** The cursors of a directive, from arguments of [order].  A method at the
    place of a cursor is not followed. *)
Definition cursors_of (args : list OrderArg) : result (list OrderCursor.t) :=
  mapM (fun a => match a with
                 | arg_cursor c => Ok c
                 | arg_method _ => Unmodelled
                 end) args.

(** [method: typeof args[0] === 'string' ? args[0] : 'asc'] *)
Definition order_method (args : list OrderArg) : string :=
  match args with
  | arg_method method :: _ => method
  | _ => "asc"
  end.

(** [cursors: args.length > 1 ? args.slice(1) : typeof args[0] === 'object'
    ? args : undefined] *)
Definition order_cursors (args : list OrderArg) : result (option (list OrderCursor.t)) :=
  if Nat.ltb 1 (length args) then Some <$> cursors_of (drop 1 args)
  else match args with
       | arg_cursor _ :: _ => Some <$> cursors_of args
       | _ => Ok None
       end.

Definition queryHelpers : QueryHelpers.t := {|
  QueryHelpers.where_ := fun field filter v => where_ field filter v;
  QueryHelpers.order := fun field args =>
    cursors ← order_cursors args;
    Ok (order field (order_method args) cursors);
  QueryHelpers.limit := fun number => limit number;
  QueryHelpers.startAt := fun v =>
    {| OrderCursor.position := startAt; OrderCursor.value := v |};
  QueryHelpers.startAfter := fun v =>
    {| OrderCursor.position := startAfter; OrderCursor.value := v |};
  QueryHelpers.endAt := fun v =>
    {| OrderCursor.position := endAt; OrderCursor.value := v |};
  QueryHelpers.endBefore := fun v =>
    {| OrderCursor.position := endBefore; OrderCursor.value := v |};
  QueryHelpers.docId := fun _ => docId
|}.

(** [query(getQueries)] from the callback on. *)
Definition query_with (this : RichCollection)
    (getQueries : QueryHelpers.t -> result (list Query)) : result FirestoreQuery :=
  queries ← getQueries queryHelpers;
  query this queries.

(** ** Schema *)

Module SchemaHelpers.
Record t : Type := {
  collection : unit -> value;
  sub : value -> value -> result value
}.
End SchemaHelpers.

(** [{ ...collection, schema }]: the own properties of [collection], then
    [schema].  Spreading [undefined], [null], a boolean, a number or a date
    adds nothing. *)
Definition schemaHelpers : SchemaHelpers.t := {|
  SchemaHelpers.collection := fun _ => VObj [("type", VStr "collection")];
  SchemaHelpers.sub := fun collection schema =>
    match collection with
    | VObj fs => Ok (VObj (set_prop "schema" schema fs))
    | VUndefined | VNull | VBool _ | VNum _ | VDate _ => Ok (VObj [("schema", schema)])
    | _ => Unmodelled
    end
|}.

(** [Object.entries(o)] *)
Definition entries (o : value) : result (list (string * value)) :=
  match o with
  | VObj fs => Ok fs
  | VUndefined | VNull => Throw (TypeError "Cannot convert undefined or null to object")
  | VBool _ | VNum _ | VDate _ => Ok []
  | _ => Unmodelled
  end.

(** The body of [Object.entries(db).forEach]:
    [richdb[collectionPath] = new RichCollection(collectionPath)].  An
    assignment to [__proto__] is not an assignment to a property. *)
Definition schema_step (richdb : list (string * RichCollection)) (entry : string * value)
  : result (list (string * RichCollection)) :=
  let collectionPath := fst entry in
  if String.eqb collectionPath "__proto__" then Unmodelled
  else Ok (set_prop collectionPath {| path := collectionPath |} richdb).

Definition schema (getSchema : SchemaHelpers.t -> result value)
  : result (list (string * RichCollection)) :=
  db ← getSchema schemaHelpers;
  es ← entries db;
  forEach schema_step es [].

(** ** Connection to the store ([adapter/admin/firebase.mjs] and the
    adapter for the web)

    [getApp] is the function of the Firebase SDK; what [firestore] returns
    is the call it makes to obtain the store client. *)

Inductive FirestoreInstance : Type :=
| initializeFirestore (app : value) (settings : list (string * value))
| getFirestore (app : value) (databaseId : option value).

(** [o?.k] *)
Definition optional_prop (o : value) (k : string) : value :=
  if nullish o then VUndefined else prop o k.

(** [a || b] *)
Definition or_else (a b : value) : value := if truthy a then a else b.

Module Admin.
Section Firestore.
Context (getApp : value -> result value).

Definition firestore (options : value) : result FirestoreInstance :=
  let server := optional_prop options "server" in
  let appName := or_else (optional_prop server "app") (optional_prop options "app") in
  let databaseId := optional_prop server "databaseId" in
  app ← getApp appName;
  if truthy (optional_prop server "preferRest") then
    if truthy databaseId then
      Ok (initializeFirestore app
            [("databaseId", databaseId);
             ("preferRest", optional_prop server "preferRest")])
    else
      Ok (initializeFirestore app [("preferRest", optional_prop server "preferRest")])
  else
    if truthy databaseId then Ok (getFirestore app (Some databaseId))
    else Ok (getFirestore app None).

End Firestore.
End Admin.

Module Client.
Section Firestore.
Context (getApp : value -> result value).

Definition firestore (options : value) : result FirestoreInstance :=
  let client := optional_prop options "client" in
  let appName := or_else (optional_prop client "app") (optional_prop options "app") in
  let databaseId := optional_prop client "databaseId" in
  app ← getApp appName;
  if truthy databaseId then Ok (getFirestore app (Some databaseId))
  else Ok (getFirestore app None).

End Firestore.
End Client.

(** * Vocabulary of the statements *)

(** [cs] is a first group [c], a slash and a second group [i], both
    non-empty and free of line terminators. *)
Definition splits (cs c i : list ascii) : Prop :=
  cs = c ++ slash :: i /\ c <> [] /\ i <> [] /\ forallb dot cs = true.

(** The same on strings: [p] is [c], a slash and [i], both non-empty, with
    no line terminator anywhere. *)
Definition parses (p c i : string) : Prop :=
  p = c +:+ "/" +:+ i /\ c <> "" /\ i <> "" /\ forallb dot (chars p) = true.

(** The number of slashes of a path. *)
Definition separators (p : string) : nat :=
  length (filter (fun c => c = slash) (chars p)).

(** Induction on values, through the lists they hold. *)

Section ValueInd.
Context (P : value -> Prop).
Context (HUndefined : P VUndefined) (HNull : P VNull).
Context (HBool : forall b, P (VBool b)) (HNum : forall n, P (VNum n)).
Context (HStr : forall s, P (VStr s)) (HDate : forall t, P (VDate t)).
Context (HArr : forall items, Forall P items -> P (VArr items)).
Context (HObj : forall fs, Forall (fun kv => P (snd kv)) fs -> P (VObj fs)).
Context (HTimestamp : forall t, P (Timestamp t)).
Context (HDocumentReference : forall p, P (DocumentReference p)).
Context (HDelete : P FieldValue_delete).
Context (HIncrement : forall n, P n -> P (FieldValue_increment n)).
Context (HArrayUnion : forall es, Forall P es -> P (FieldValue_arrayUnion es)).
Context (HArrayRemove : forall es, Forall P es -> P (FieldValue_arrayRemove es)).
Context (HServerTimestamp : P FieldValue_serverTimestamp).

Fixpoint value_nested_ind (v : value) : P v :=
  let all :=
    fix all (vs : list value) : Forall P vs :=
      match vs with
      | [] => @List.Forall_nil _ P
      | v :: vs' => @List.Forall_cons _ P v vs' (value_nested_ind v) (all vs')
      end in
  match v with
  | VUndefined => HUndefined
  | VNull => HNull
  | VBool b => HBool b
  | VNum n => HNum n
  | VStr s => HStr s
  | VDate t => HDate t
  | VArr items => HArr items (all items)
  | VObj fs =>
      HObj fs
        ((fix props (fs : list (string * value)) : Forall (fun kv => P (snd kv)) fs :=
            match fs with
            | [] => @List.Forall_nil _ _
            | kv :: fs' => @List.Forall_cons _ _ kv fs' (value_nested_ind (snd kv)) (props fs')
            end) fs)
  | Timestamp t => HTimestamp t
  | DocumentReference p => HDocumentReference p
  | FieldValue_delete => HDelete
  | FieldValue_increment n => HIncrement n (value_nested_ind n)
  | FieldValue_arrayUnion es => HArrayUnion es (all es)
  | FieldValue_arrayRemove es => HArrayRemove es (all es)
  | FieldValue_serverTimestamp => HServerTimestamp
  end.

End ValueInd.

(** [decode(encode(x))] *)
Definition roundtrip (x : value) : result value :=
  y ← unwrapData x; wrapData y.





(** An entry [{ key, value }] of an edit list. *)
Definition edit (key v : value) : value :=
  VObj [("key", key); ("value", v)].

(** [field] assigns to the property [k]. *)
Definition assigns (k : string) (field : value) : bool :=
  match property_key (prop field "key") with
  | Ok k' => String.eqb k' k
  | _ => false
  end.

(** What the store answers about the document [i] of the collection. *)
Definition snapshot_of (this : RichCollection) (fs : Firestore) (i : string) : Snapshot.t :=
  {| Snapshot.id := i; Snapshot.data := docs fs !! firebaseDoc this i |}.

(** Every document of the store decodes: the document pointers it holds
    have paths that [pathToRef] reads. *)
Definition decodable (fs : Firestore) : Prop :=
  forall p d, docs fs !! p = Some d -> exists v, and_wrapData d = Ok v.

(** [d] is the document [i] of the collection as the store has it. *)
Definition found_as (this : RichCollection) (fs : Firestore) (d : Doc.t) : Prop :=
  Ref.collection (Doc.ref d) = this /\
  exists raw, docs fs !! firebaseDoc this (Ref.id (Doc.ref d)) = Some raw /\
              and_wrapData raw = Ok (Doc.data d).

Definition is_found (this : RichCollection) (fs : Firestore) (i : string) : bool :=
  bool_decide (is_Some (docs fs !! firebaseDoc this i)).

(** The call that a directive makes on the accumulator query. *)
Definition directive_call (query : Query) : result QueryCall :=
  match query with
  | order field method _ => Ok (call_orderBy (order_field field) method)
  | where_ field filter v => v' ← unwrapData v; Ok (call_where (where_field field) filter v')
  | limit number => Ok (call_limit number)
  end.

(** The cursors that a directive adds to the pending list. *)
Definition directive_cursors (query : Query) : result (list OrderCursor.t) :=
  match query with
  | order field _ (Some cs) => mapM (resolve_cursor field) cs
  | _ => Ok []
  end.

Definition is_cursor_call (c : QueryCall) : bool :=
  match c with
  | call_cursor _ _ => true
  | _ => false
  end.

Definition is_orderBy (c : QueryCall) : bool :=
  match c with
  | call_orderBy _ _ => true
  | _ => false
  end.

(** The cursor methods applied to a compiled query. *)
Definition cursor_calls (q : FirestoreQuery) : list QueryCall :=
  List.filter is_cursor_call (calls q).

Definition is_order (query : Query) : bool :=
  match query with
  | order _ _ _ => true
  | _ => false
  end.

(** A value in the format of the store: no [undefined] and no date, at
    the top or inside arrays, objects and the arguments of [arrayUnion]
    and [arrayRemove].  The operand of [increment] is what the caller
    gave. *)
Fixpoint encoded (v : value) : bool :=
  match v with
  | VUndefined | VDate _ => false
  | VArr items => forallb encoded items
  | VObj fs => forallb (fun kv => encoded (snd kv)) fs
  | FieldValue_arrayUnion es | FieldValue_arrayRemove es => forallb encoded es
  | _ => true
  end.

(** A value in the format of the application: nothing of the store's own
    classes, at the top or inside arrays and objects. *)
Fixpoint decoded (v : value) : bool :=
  match v with
  | VUndefined | VNull | VBool _ | VNum _ | VStr _ | VDate _ => true
  | VArr items => forallb decoded items
  | VObj fs => forallb (fun kv => decoded (snd kv)) fs
  | _ => false
  end.

Definition is_undefined (v : value) : bool :=
  match v with
  | VUndefined => true
  | _ => false
  end.

(** No element and no property is [undefined], at any depth. *)
Fixpoint no_undefined_member (v : value) : bool :=
  match v with
  | VArr items => forallb (fun m => negb (is_undefined m) && no_undefined_member m) items
  | VObj fs =>
      forallb (fun kv => negb (is_undefined (snd kv)) && no_undefined_member (snd kv)) fs
  | _ => true
  end.



(** The store after a call: one more entry in the log, the rest as it
    was. *)
Definition after_call (fs fs' : Firestore) (c : call) : Prop :=
  docs fs' = docs fs /\ autoId fs' = autoId fs /\ log fs' = log fs ++ [c].

(** The outcome of a write: it returned after one call to the store, which
    [P] holds of, or it did not return and the store was not called. *)
Definition one_call_or_none {A} (fs : Firestore) (out : result A * Firestore)
    (P : A -> call -> Prop) : Prop :=
  match out.1 with
  | Ok a => exists c, after_call fs out.2 c /\ P a c
  | _ => out.2 = fs
  end.

(** Every document of the store is an object: what [data()] returns for it
    is truthy. *)
Definition documents_are_objects (fs : Firestore) : Prop :=
  forall p d, docs fs !! p = Some d -> truthy d = true.

(** The values of the first group of [position]; nothing without such a
    group. *)
Fixpoint values_at (position : OrderCursorPosition) (groupedCursors : groups)
  : list value :=
  match groupedCursors with
  | [] => []
  | (p, values) :: rest =>
      if bool_decide (p = position) then values else values_at position rest
  end.

(** The values of the cursors of [position], in the order of the list. *)
Definition values_of (position : OrderCursorPosition) (cursors : list OrderCursor.t)
  : list value :=
  map OrderCursor.value
    (List.filter (fun c => bool_decide (OrderCursor.position c = position)) cursors).

(** What the call that obtains the store client is given: the
    application, the database identifier (as an argument of its own or
    among the settings), and the settings. *)
Definition app_of (instance : FirestoreInstance) : value :=
  match instance with
  | initializeFirestore app _ | getFirestore app _ => app
  end.

Definition databaseId_of (instance : FirestoreInstance) : option value :=
  match instance with
  | initializeFirestore _ settings => lookup_prop "databaseId" settings
  | getFirestore _ databaseId => databaseId
  end.

Definition settings_of (instance : FirestoreInstance) : option (list (string * value)) :=
  match instance with
  | initializeFirestore _ settings => Some settings
  | getFirestore _ _ => None
  end.

(** * Properties *)

(** ** Strings and lists of code units *)

Lemma chars_str cs : chars (str cs) = cs.
Proof. apply list_ascii_of_string_of_list_ascii. Qed.

Lemma str_chars s : str (chars s) = s.
Proof. apply string_of_list_ascii_of_string. Qed.

Lemma chars_app a b : chars (a +:+ b) = chars a ++ chars b.
Proof. induction a as [|c a IH]; simpl; [reflexivity | now rewrite <- IH]. Qed.

Lemma chars_inj a b : chars a = chars b -> a = b.
Proof. intros E. rewrite <- (str_chars a), <- (str_chars b). now rewrite E. Qed.

Lemma chars_nil s : chars s = [] <-> s = "".
Proof.
  split; [|intros ->; reflexivity].
  intros E. apply chars_inj. exact E.
Qed.

Lemma chars_length s : length (chars s) = String.length s.
Proof. induction s; simpl; [reflexivity | now f_equal]. Qed.

Lemma dot_slash : dot slash = true.
Proof. reflexivity. Qed.

(** ** Path parsing *)

Lemma after_group_Some rest i :
  after_group rest = Some i <->
  rest = slash :: i /\ i <> [] /\ forallb dot i = true.
Proof.
  unfold after_group. destruct rest as [|c cs].
  - split; [discriminate | intros [? _]; discriminate].
  - destruct (Ascii.eqb_spec c slash) as [->|Hc]; simpl.
    + destruct cs as [|c' cs']; simpl.
      * split; [discriminate | intros (E & Hi & _)].
        injection E as <-. now elim Hi.
      * destruct (dot c' && forallb dot cs') eqn:Hd.
        -- split.
           ++ intros [= <-]. repeat split; [discriminate | exact Hd].
           ++ intros (E & _ & _). now injection E as <-.
        -- split; [discriminate | intros (E & _ & Hd')].
           injection E as <-. simpl in Hd'. congruence.
    + split; [discriminate | intros (E & _ & _)].
      injection E as -> _. now elim Hc.
Qed.

Lemma greedy_le cs : greedy cs <= length cs.
Proof. induction cs as [|c cs IH]; simpl; [lia | destruct (dot c); simpl; lia]. Qed.

Lemma greedy_take cs : forallb dot (take (greedy cs) cs) = true.
Proof.
  induction cs as [|c cs IH]; simpl; [reflexivity|].
  destruct (dot c) eqn:Hc; simpl; [now rewrite Hc | reflexivity].
Qed.

Lemma greedy_all cs : forallb dot cs = true -> greedy cs = length cs.
Proof.
  induction cs as [|c cs IH]; simpl; [reflexivity|].
  intros [Hc Hcs]%andb_prop. rewrite Hc. now rewrite IH.
Qed.

(** Past the greedy run, the input has a line terminator, and the rest of
    the pattern cannot match from any point at or before it. *)
Lemma greedy_stop cs m :
  forallb dot cs = false -> m <= greedy cs -> after_group (drop m cs) = None.
Proof.
  revert m. induction cs as [|c cs IH]; intros m Hd Hm; [discriminate|].
  simpl in Hd, Hm. destruct (dot c) eqn:Hc; simpl in Hd.
  - destruct m as [|m]; cbn [drop].
    + destruct (after_group (c :: cs)) as [i|] eqn:E; [|reflexivity].
      apply after_group_Some in E as (E & _ & Hi). injection E as -> ->. congruence.
    + apply IH; [exact Hd | lia].
  - assert (m = 0) as -> by lia. cbn [drop].
    destruct (after_group (c :: cs)) as [i|] eqn:E; [|reflexivity].
    apply after_group_Some in E as (E & _ & _). injection E as -> _.
    rewrite dot_slash in Hc. discriminate.
Qed.

Lemma backtrack_Some cs n c i :
  backtrack cs n = Some (c, i) ->
  exists m, 0 < m <= n /\ c = take m cs /\ after_group (drop m cs) = Some i /\
            forall m', m < m' <= n -> after_group (drop m' cs) = None.
Proof.
  induction n as [|n IH]; simpl; [discriminate|].
  destruct (after_group (drop (S n) cs)) as [i'|] eqn:E.
  - intros [= <- <-]. exists (S n).
    split; [lia|]. split; [reflexivity|]. split; [exact E|].
    intros m' ?. lia.
  - intros Hb. destruct (IH Hb) as (m & Hm & Hc & Hi & Hmax).
    exists m. split; [lia|]. split; [exact Hc|]. split; [exact Hi|].
    intros m' Hm'. destruct (decide (m' = S n)) as [->|]; [exact E|].
    apply Hmax. lia.
Qed.

Lemma backtrack_None cs n :
  backtrack cs n = None ->
  forall m, 0 < m <= n -> after_group (drop m cs) = None.
Proof.
  induction n as [|n IH]; simpl; [intros _ m; lia|].
  destruct (after_group (drop (S n) cs)) as [i'|] eqn:E; [discriminate|].
  intros Hb m Hm. destruct (decide (m = S n)) as [->|]; [exact E|].
  apply IH; [exact Hb | lia].
Qed.

Lemma splits_after_group cs c i :
  splits cs c i ->
  0 < length c <= greedy cs /\ take (length c) cs = c /\
  after_group (drop (length c) cs) = Some i.
Proof.
  intros (-> & Hc & Hi & Hd).
  rewrite (greedy_all _ Hd), length_app. simpl.
  rewrite take_app_length, drop_app_length.
  repeat split; try lia.
  - destruct c; [now elim Hc | simpl; lia].
  - apply after_group_Some. repeat split; [exact Hi|].
    rewrite forallb_app in Hd. cbn [forallb] in Hd. rewrite dot_slash in Hd.
    apply andb_prop in Hd as [_ ?]. assumption.
Qed.

(** The match, when there is one, is the split with the longest first
    group. *)
Lemma backtrack_greedy_Some cs c i :
  backtrack cs (greedy cs) = Some (c, i) <->
  splits cs c i /\ forall c' i', splits cs c' i' -> length c' <= length c.
Proof.
  assert (Hfwd : forall c i, backtrack cs (greedy cs) = Some (c, i) ->
    splits cs c i /\ forall c' i', splits cs c' i' -> length c' <= length c).
  { clear c i. intros c i Hb.
    destruct (backtrack_Some _ _ _ _ Hb) as (m & Hm & -> & Hi & Hmax).
    apply after_group_Some in Hi as (Hdrop & Hi & Hdi).
    pose proof (greedy_le cs) as Hle.
    assert (Hlen : length (take m cs) = m) by (rewrite length_take; lia).
    split.
    - repeat split.
      + rewrite <- Hdrop. symmetry. apply take_drop.
      + intros E. rewrite E in Hlen. simpl in Hlen. lia.
      + exact Hi.
      + rewrite <- (take_drop m cs), forallb_app, Hdrop. simpl.
        rewrite Hdi, andb_true_r.
        replace (take m cs) with (take m (take (greedy cs) cs))
          by (rewrite take_take; f_equal; lia).
        pose proof (greedy_take cs) as Hg.
        rewrite <- (take_drop m (take (greedy cs) cs)), forallb_app in Hg.
        apply andb_prop in Hg as [Hg _]. exact Hg.
    - intros c' i' Hs. rewrite Hlen.
      destruct (splits_after_group _ _ _ Hs) as (Hc' & _ & Ha).
      destruct (decide (length c' <= m)) as [|Hgt]; [assumption|].
      rewrite Hmax in Ha by lia. discriminate. }
  split; [apply Hfwd|].
  intros [Hs Hmax].
  destruct (splits_after_group _ _ _ Hs) as (Hc & Htake & Ha).
  destruct (backtrack cs (greedy cs)) as [[c2 i2]|] eqn:Hb.
  - destruct (Hfwd _ _ eq_refl) as [Hs2 Hmax2].
    pose proof (Hmax _ _ Hs2) as H1. pose proof (Hmax2 _ _ Hs) as H2.
    destruct (splits_after_group _ _ _ Hs2) as (_ & Htake2 & Ha2).
    assert (E : length c2 = length c) by lia.
    rewrite E in Htake2, Ha2. congruence.
  - rewrite (backtrack_None _ _ Hb (length c)) in Ha by lia. discriminate.
Qed.

Lemma backtrack_greedy_None cs :
  backtrack cs (greedy cs) = None <-> forall c i, ~ splits cs c i.
Proof.
  split.
  - intros Hb c i Hs. destruct (splits_after_group _ _ _ Hs) as (Hc & _ & Ha).
    rewrite (backtrack_None _ _ Hb (length c)) in Ha by lia. discriminate.
  - intros Hno. destruct (backtrack cs (greedy cs)) as [[c i]|] eqn:Hb; [|reflexivity].
    apply backtrack_greedy_Some in Hb as [Hs _]. now elim (Hno c i).
Qed.

Lemma parses_splits p c i : parses p c i <-> splits (chars p) (chars c) (chars i).
Proof.
  unfold parses, splits. rewrite <- (chars_nil c), <- (chars_nil i).
  split; intros (E & Hc & Hi & Hd); repeat split; try assumption.
  - subst p. now rewrite !chars_app.
  - apply chars_inj. now rewrite !chars_app.
Qed.

Lemma match_path_Some p c i :
  match_path p = Some (c, i) <->
  parses p c i /\ forall c' i', parses p c' i' -> String.length c' <= String.length c.
Proof.
  unfold match_path.
  destruct (backtrack (chars p) (greedy (chars p))) as [[c0 i0]|] eqn:Hb.
  - apply backtrack_greedy_Some in Hb as [Hs Hmax]. split.
    + intros [= <- <-]. split.
      * apply parses_splits. now rewrite !chars_str.
      * intros c' i' Hp. apply parses_splits in Hp. apply Hmax in Hp.
        now rewrite <- !chars_length, chars_str.
    + intros [Hp Hmax']. apply parses_splits in Hp.
      assert (Hs' := Hp). apply Hmax in Hs'.
      assert (Hp0 : parses p (str c0) (str i0)).
      { apply parses_splits. now rewrite !chars_str. }
      apply Hmax' in Hp0. rewrite <- !chars_length, chars_str in Hp0.
      destruct (splits_after_group _ _ _ Hs) as (_ & Ht0 & Ha0).
      destruct (splits_after_group _ _ _ Hp) as (_ & Ht & Ha).
      assert (E : length (chars c) = length c0) by lia.
      rewrite E in Ht, Ha. f_equal. f_equal; apply chars_inj; rewrite chars_str; congruence.
  - split; [discriminate|]. intros [Hp _]. apply parses_splits in Hp.
    rewrite backtrack_greedy_None in Hb. now elim (Hb _ _ Hp).
Qed.

Lemma match_path_None p :
  match_path p = None <-> forall c i, ~ parses p c i.
Proof.
  unfold match_path.
  destruct (backtrack (chars p) (greedy (chars p))) as [[c0 i0]|] eqn:Hb.
  - split; [discriminate|]. intros Hno.
    apply backtrack_greedy_Some in Hb as [Hs _].
    elim (Hno (str c0) (str i0)). apply parses_splits. now rewrite !chars_str.
  - split; [|reflexivity]. intros _ c i Hp. apply parses_splits in Hp.
    rewrite backtrack_greedy_None in Hb. now elim (Hb _ _ Hp).
Qed.

Lemma separators_join c i :
  separators (c +:+ "/" +:+ i) = separators c + 1 + separators i.
Proof.
  unfold separators. rewrite !chars_app, !filter_app, !length_app.
  change (length (filter (fun c => c = slash) (chars "/"))) with 1. lia.
Qed.

Lemma app_slash_longest (xs ys xs' ys' : list ascii) :
  xs ++ slash :: ys = xs' ++ slash :: ys' ->
  filter (fun c => c = slash) ys = [] ->
  length xs' <= length xs.
Proof.
  revert xs'. induction xs as [|x xs IH]; intros xs' E Hys.
  - destruct xs' as [|x' xs']; [simpl; lia|].
    simpl in E. injection E as <- E. exfalso.
    assert (Hin : slash ∈ filter (fun c => c = slash) ys).
    { apply list_elem_of_filter. split; [reflexivity|].
      rewrite E. apply elem_of_app. right. apply elem_of_cons. now left. }
    rewrite Hys in Hin. now apply elem_of_nil in Hin.
  - destruct xs' as [|x' xs']; [simpl; lia|].
    simpl in E. injection E as <- E. simpl.
    specialize (IH _ E Hys). lia.
Qed.

Lemma getRefPath_newRef c i : getRefPath (newRef c i) = c +:+ "/" +:+ i.
Proof. reflexivity. Qed.


(** C3, as the spec has it, fails on a nested path: a string with two
    separators is parsed, not rejected. *)
Lemma pathToRef_nested_path_parses :
  separators "a/b/c" = 2 /\
  pathToRef "a/b/c" = Ok (newRef "a/b" "c") /\
  forall e, pathToRef "a/b/c" <> Throw e.
Proof. repeat split; discriminate. Qed.

(** C3 (amended).  [pathToRef] succeeds exactly on the strings that have no
    line terminator and can be cut at a slash into a non-empty collection
    path and a non-empty id; it then cuts at the last slash that leaves a
    non-empty id, so that the collection path is the longest possible (and
    may itself hold slashes).  Every other string throws
    "Can't parse path".  A string with one separator and non-empty sides is
    cut at that separator. *)
Theorem pathToRef_spec (p : string) :
  (forall r, pathToRef p = Ok r <->
     exists c i, r = newRef c i /\ parses p c i /\
       forall c' i', parses p c' i' -> String.length c' <= String.length c) /\
  (pathToRef p = Throw (Error ("Can't parse path " +:+ p)) <->
     forall c i, ~ parses p c i) /\
  (forall c i, parses p c i -> separators p = 1 -> pathToRef p = Ok (newRef c i)).
Proof.
  split; [|split].
  - intros r. unfold pathToRef.
    destruct (match_path p) as [[c i]|] eqn:Hm.
    + apply match_path_Some in Hm as [Hp Hmax]. split.
      * intros [= <-]. exists c, i. auto.
      * intros (c2 & i2 & -> & Hp2 & Hmax2).
        assert (Hm2 : match_path p = Some (c2, i2)) by now apply match_path_Some.
        assert (Hm1 : match_path p = Some (c, i)) by now apply match_path_Some.
        congruence.
    + split; [discriminate|]. intros (c & i & _ & Hp & _).
      rewrite match_path_None in Hm. now elim (Hm c i).
  - unfold pathToRef. destruct (match_path p) as [[c i]|] eqn:Hm.
    + split; [discriminate|]. intros Hno.
      apply match_path_Some in Hm as [Hp _]. now elim (Hno c i).
    + split; [|reflexivity]. intros _. now apply match_path_None.
  - intros c i Hp Hsep. unfold pathToRef.
    assert (Hm : match_path p = Some (c, i)); [|now rewrite Hm].
    apply match_path_Some. split; [exact Hp|].
    intros c' i' (E' & _ & _ & _). destruct Hp as (E & _ & _ & _).
    rewrite <- !chars_length.
    rewrite E in E'. apply (f_equal chars) in E'. rewrite !chars_app in E'.
    apply (app_slash_longest _ _ _ _ E').
    apply length_zero_iff_nil.
    rewrite E, separators_join in Hsep. unfold separators in Hsep. lia.
Qed.

Lemma pathToRef_spec_witness :
  pathToRef "users/42" = Ok (newRef "users" "42") /\
  pathToRef "users" = Throw (Error "Can't parse path users").
Proof.
  split.
  - apply (pathToRef_spec "users/42").
    + repeat split; [discriminate | discriminate].
    + reflexivity.
  - apply (pathToRef_spec "users"). intros c i (E & Hc & Hi & _).
    apply (f_equal separators) in E. rewrite separators_join in E.
    change (separators "users") with 0 in E. lia.
Defined.

(** ** Round trip of the marshaller *)

(** [at_prop] is the function at the property. *)
Lemma at_prop_prop {A} (f : value -> A) k fs :
  at_prop f (f VUndefined) k fs = f (prop (VObj fs) k).
Proof.
  cbn. induction fs as [|[k' v] fs IH]; cbn; [reflexivity|].
  destruct (String.eqb k' k); [reflexivity | exact IH].
Qed.

Lemma unwrapData_arrayUnion fs :
  is_str (prop (VObj fs) "type") "ref" = false ->
  is_str (prop (VObj fs) "type") "value" = true ->
  is_str (prop (VObj fs) "kind") "arrayUnion" = true ->
  unwrapData (VObj fs)
  = (values ← unwrapData (prop (VObj fs) "values");
     FieldValue_arrayUnion <$> spread values).
Proof.
  intros Href Hvalue Hkind. cbn [unwrapData]. rewrite Href, Hvalue, Hkind.
  assert (Hk : forall s, is_str (prop (VObj fs) "kind") s = true -> s = "arrayUnion").
  { intros s Hs. unfold is_str in *. destruct (prop (VObj fs) "kind"); try discriminate.
    apply String.eqb_eq in Hs, Hkind. congruence. }
  destruct (is_str (prop (VObj fs) "kind") "remove") eqn:E1;
    [apply Hk in E1; discriminate|].
  destruct (is_str (prop (VObj fs) "kind") "increment") eqn:E2;
    [apply Hk in E2; discriminate|].
  now rewrite (at_prop_prop unwrapData).
Qed.









(** ** Writes *)

(** A falsy entry leaves [undefined] as the accumulator, and the next
    entry then has nothing to assign to. *)
Lemma update_field_after_falsy acc field next k :
  truthy field = false -> truthy next = true ->
  property_key (prop next "key") = Ok k ->
  (acc' ← update_field acc field; update_field acc' next)
  = Throw (TypeError ("Cannot set properties of undefined (setting '" +:+ k +:+ "')")).
Proof.
  intros Hf Hn Hk. unfold update_field. rewrite Hf. cbn.
  rewrite Hn, Hk. reflexivity.
Qed.

Lemma lookup_set_prop {V} (k k' : string) (v : V) fs :
  lookup_prop k (set_prop k' v fs)
  = if String.eqb k' k then Some v else lookup_prop k fs.
Proof.
  induction fs as [|[k0 v0] fs IH]; simpl.
  - reflexivity.
  - destruct (String.eqb_spec k0 k') as [->|Hne]; simpl.
    + destruct (String.eqb_spec k' k); reflexivity.
    + rewrite IH. destruct (String.eqb_spec k0 k) as [->|Hne'].
      * destruct (String.eqb_spec k' k); [congruence | reflexivity].
      * reflexivity.
Qed.

(** Without falsy entries an edit list is folded into the field map: each
    property holds the value of the last entry that assigns to it. *)
Lemma reduce_update_field fields : forall acc,
  Forall (fun f => truthy f = true /\ exists k, property_key (prop f "key") = Ok k) fields ->
  exists acc', reduce update_field (VObj acc) fields = Ok (VObj acc') /\
    forall k, lookup_prop k acc' =
      fold_left (fun found f => if assigns k f then Some (prop f "value") else found)
                fields (lookup_prop k acc).
Proof.
  induction fields as [|f fields IH]; intros acc Hall.
  - exists acc. split; reflexivity.
  - inversion Hall as [|? ? [Ht [k Hk]] Hrest]; subst.
    cbn [reduce]. unfold update_field. rewrite Ht, Hk. cbn.
    fold update_field.
    destruct (IH (set_prop k (prop f "value") acc) Hrest) as (acc' & E & Hlook).
    exists acc'. split; [exact E|].
    intros k0. rewrite Hlook, lookup_set_prop. cbn [fold_left].
    unfold assigns at 3. now rewrite Hk.
Qed.

(** C1 (the code departs from it).  On the edit list of the spec,
    [[{key:'a', value:1}, null, {key:['b','c'], value:2}]], the [null]
    entry is not skipped: the reducer returns [undefined] for it, the next
    entry assigns to a property of [undefined], and [update] throws before
    any call to the store. *)
Theorem update_edit_list_null_entry (this : RichCollection) (i : string) (fs : Firestore) :
  run (update this i
         (Val (VArr [edit (VStr "a") (VNum 1); VNull;
                     edit (VArr [VStr "b"; VStr "c"]) (VNum 2)]))) fs
  = (Throw (TypeError "Cannot set properties of undefined (setting 'b.c')"), fs) /\
  run (update this i
         (Val (VArr [edit (VStr "a") (VNum 1);
                     edit (VArr [VStr "b"; VStr "c"]) (VNum 2)]))) fs
  = (Ok tt, record (doc_update (firebaseDoc this i)
                      (Val (VObj [("a", VNum 1); ("b.c", VNum 2)]))) fs) /\
  run (update this i (Val (VArr [edit (VStr "a") (VNum 1); VNull]))) fs
  = (Ok tt, record (doc_update (firebaseDoc this i) (Val VNull)) fs).
Proof. repeat split. Qed.

(** C6 (the code departs from it).  [set] hands a function argument to the
    store as it is, without calling it; [upset] and [add] call it with the
    write helpers and write what it returns. *)
Theorem set_function_not_invoked
    (this : RichCollection) (i : string) (getData : WriteHelpers -> value)
    (fs : Firestore) :
  run (set this i (Fun getData)) fs
  = (Ok tt, record (doc_set (firebaseDoc this i) (Fun getData) false) fs) /\
  run (upset this i (Fun getData)) fs
  = run (upset this i (Val (getData writeHelpers))) fs /\
  run (add this (Fun getData)) fs
  = run (add this (Val (getData writeHelpers))) fs.
Proof. repeat split. Qed.

(** The same on a write that uses a helper: the store is handed the
    function by [set], and the encoded data by [upset]. *)
Lemma set_function_example (fs : Firestore) :
  let counter := fun h : WriteHelpers => VObj [("visits", increment h (VNum 1))] in
  run (set {| path := "users" |} "u1" (Fun counter)) fs
  = (Ok tt, record (doc_set "users/u1" (Fun counter) false) fs) /\
  run (upset {| path := "users" |} "u1" (Fun counter)) fs
  = (Ok tt, record (doc_set "users/u1"
                      (Val (VObj [("visits", FieldValue_increment (VNum 1))])) true) fs).
Proof. split; reflexivity. Qed.

(** ** Batch reads *)

Lemma run_bind {S A B} (m : State S A) (k : A -> State S B) (s : S) :
  run (m ≫= k) s
  = match run m s with
    | (Ok a, s') => run (k a) s'
    | (Throw e, s') => (Throw e, s')
    | (Unmodelled, s') => (Unmodelled, s')
    end.
Proof. reflexivity. Qed.

Lemma run_ret {S A} (a : A) (s : S) : run (mret a) s = (Ok a, s).
Proof. reflexivity. Qed.

Lemma run_lift {S A} (r : result A) (s : S) : run (lift r) s = (r, s).
Proof. reflexivity. Qed.

(** With identifiers, the store is asked once, for all of them, whatever
    comes of the answer. *)
Lemma getMany_one_round_trip this ids onMissing fs :
  ids <> [] ->
  (run (getMany this ids onMissing) fs).2
  = record (getAll (map (firebaseDoc this) ids)) fs.
Proof.
  intros Hne. unfold getMany.
  destruct (Nat.eqb_spec (length ids) 0) as [E0|_].
  { apply length_zero_iff_nil in E0. now elim Hne. }
  rewrite run_bind. unfold firestore_getAll at 1. cbn [run].
  rewrite run_bind, run_lift.
  destruct (mapM _ _); reflexivity.
Qed.

(** C8.  With no identifier [getMany] returns the empty list and leaves
    the store as it was: nothing is added to the log of calls, so there is
    no round trip; with identifiers the log grows by the one [getAll]. *)
Theorem getMany_empty
    (this : RichCollection) (onMissing : option OnMissingMode) (fs : Firestore) :
  run (getMany this [] onMissing) fs = (Ok [], fs) /\
  log (run (getMany this [] onMissing) fs).2 = log fs /\
  forall ids, ids <> [] ->
    log (run (getMany this ids onMissing) fs).2
    = log fs ++ [getAll (map (firebaseDoc this) ids)].
Proof.
  split; [reflexivity|]. split; [reflexivity|].
  intros ids Hne. now rewrite getMany_one_round_trip.
Qed.

Lemma last_segment_from_plain acc cs :
  filter (fun c => c = slash) cs = [] -> last_segment_from acc cs = acc ++ cs.
Proof.
  revert acc. induction cs as [|c cs IH]; intros acc Hf; simpl.
  - now rewrite app_nil_r.
  - rewrite filter_cons in Hf. destruct (Ascii.eqb_spec c slash) as [->|Hne].
    + rewrite decide_True in Hf by reflexivity. discriminate.
    + rewrite decide_False in Hf by assumption.
      rewrite IH by assumption. now rewrite <- app_assoc.
Qed.

Lemma last_segment_from_slash acc xs ys :
  last_segment_from acc (xs ++ slash :: ys) = last_segment_from [] (xs ++ slash :: ys).
Proof.
  revert acc. induction xs as [|x xs IH]; intros acc; simpl.
  - reflexivity.
  - destruct (Ascii.eqb x slash); [reflexivity|].
    rewrite IH. symmetry. apply IH.
Qed.

Lemma last_segment_from_app acc xs ys :
  last_segment_from acc (xs ++ slash :: ys) = last_segment_from [] ys.
Proof.
  revert acc. induction xs as [|x xs IH]; intros acc; simpl.
  - reflexivity.
  - destruct (Ascii.eqb x slash); apply IH.
Qed.

(** The snapshot of a document whose identifier has no slash carries that
    identifier. *)
Lemma last_segment_firebaseDoc this i :
  separators i = 0 -> last_segment (firebaseDoc this i) = i.
Proof.
  intros Hsep. unfold last_segment, firebaseDoc.
  rewrite !chars_app. change (chars "/") with [slash]. cbn [app].
  rewrite last_segment_from_app, last_segment_from_plain.
  - apply str_chars.
  - apply length_zero_iff_nil. exact Hsep.
Qed.

Lemma getMany_run this ids onMissing fs :
  ids <> [] ->
  Forall (fun i => separators i = 0) ids ->
  run (getMany this ids onMissing) fs
  = (filter_non_null <$> mapM (getMany_snap this onMissing) (map (snapshot_of this fs) ids),
     record (getAll (map (firebaseDoc this) ids)) fs).
Proof.
  intros Hne Hplain. unfold getMany.
  destruct (Nat.eqb_spec (length ids) 0) as [E0|_].
  { apply length_zero_iff_nil in E0. now elim Hne. }
  assert (E : map (fun p => {| Snapshot.id := last_segment p; Snapshot.data := docs fs !! p |})
                (map (firebaseDoc this) ids) = map (snapshot_of this fs) ids).
  { rewrite map_map. apply map_ext_Forall.
    eapply Forall_impl; [exact Hplain|]. intros i Hi. cbn beta.
    unfold snapshot_of. now rewrite last_segment_firebaseDoc. }
  rewrite run_bind. unfold firestore_getAll at 1. cbn [run].
  rewrite E, run_bind, run_lift.
  destruct (mapM (getMany_snap this onMissing) (map (snapshot_of this fs) ids)); reflexivity.
Qed.

Lemma getMany_snap_found this fs onMissing i raw :
  docs fs !! firebaseDoc this i = Some raw ->
  getMany_snap this onMissing (snapshot_of this fs i)
  = (data ← and_wrapData raw; Ok (Some (doc this i data))).
Proof.
  intros E. unfold getMany_snap, snapshot_exists, snapshot_data, snapshot_of. cbn.
  rewrite E. rewrite bool_decide_eq_true_2 by eauto. reflexivity.
Qed.

Lemma getMany_snap_missing this fs onMissing i :
  docs fs !! firebaseDoc this i = None ->
  getMany_snap this onMissing (snapshot_of this fs i)
  = match onMissing with
    | Some ignore => Ok None
    | Some (callback f) => data ← f i; Ok (Some (doc this i data))
    | None => Throw (Error ("Missing document with id " +:+ i))
    end.
Proof.
  intros E. unfold getMany_snap, snapshot_exists, snapshot_of. cbn.
  rewrite E. rewrite bool_decide_eq_false_2 by (intros [? ?]; discriminate).
  cbn. destruct onMissing as [[|f]|]; reflexivity.
Qed.

(** The first identifier without a document. *)
Lemma first_missing this fs ids :
  (exists b, b ∈ ids /\ docs fs !! firebaseDoc this b = None) ->
  exists before b after,
    ids = before ++ b :: after /\
    Forall (fun a => is_found this fs a = true) before /\
    docs fs !! firebaseDoc this b = None.
Proof.
  induction ids as [|i ids IH]; intros (b & Hin & Hb).
  - now apply elem_of_nil in Hin.
  - destruct (docs fs !! firebaseDoc this i) as [raw|] eqn:Ei.
    + apply elem_of_cons in Hin as [->|Hin]; [congruence|].
      destruct IH as (before & b' & after & -> & Hbefore & Hb'); [eauto|].
      exists (i :: before), b', after. repeat split; [|assumption].
      constructor; [|assumption].
      unfold is_found. rewrite Ei. apply bool_decide_eq_true_2. eauto.
    + exists [], i, ids. repeat split; [constructor | assumption].
Qed.

Lemma mapM_default_throws this fs before b after :
  decodable fs ->
  Forall (fun a => is_found this fs a = true) before ->
  docs fs !! firebaseDoc this b = None ->
  mapM (getMany_snap this None) (map (snapshot_of this fs) (before ++ b :: after))
  = Throw (Error ("Missing document with id " +:+ b)).
Proof.
  intros Hdec Hbefore Hb. induction Hbefore as [|a before Ha _ IH]; cbn [app map mapM].
  - rewrite (getMany_snap_missing _ _ _ _ Hb). reflexivity.
  - unfold is_found in Ha. apply bool_decide_eq_true_1 in Ha as [raw Ha].
    rewrite (getMany_snap_found _ _ _ _ _ Ha).
    destruct (Hdec _ _ Ha) as [v ->]. cbn. rewrite IH. reflexivity.
Qed.

Lemma mapM_ignore this fs ids :
  decodable fs ->
  exists found,
    mapM (getMany_snap this (Some ignore)) (map (snapshot_of this fs) ids) = Ok found /\
    map (fun d => Ref.id (Doc.ref d)) (filter_non_null found)
      = filter (fun i => is_found this fs i = true) ids /\
    Forall (found_as this fs) (filter_non_null found).
Proof.
  intros Hdec. induction ids as [|i ids (found & E & Hids & Hall)]; cbn [map mapM].
  - exists []. repeat split. constructor.
  - rewrite filter_cons.
    destruct (docs fs !! firebaseDoc this i) as [raw|] eqn:Ei.
    + rewrite (getMany_snap_found _ _ _ _ _ Ei).
      destruct (Hdec _ _ Ei) as [v Hv]. rewrite Hv, E. cbn.
      exists (Some (doc this i v) :: found). split; [reflexivity|].
      rewrite decide_True
        by (unfold is_found; rewrite Ei; apply bool_decide_eq_true_2; eauto).
      cbn. split; [now f_equal|].
      constructor; [|assumption]. split; [reflexivity|]. cbn. eauto.
    + rewrite (getMany_snap_missing _ _ _ _ Ei), E. cbn.
      exists (None :: found). split; [reflexivity|].
      rewrite decide_False; [now split|].
      unfold is_found. rewrite Ei.
      rewrite bool_decide_eq_false_2; [discriminate|]. intros [? ?]; discriminate.
Qed.

Lemma mapM_callback this fs (f : string -> value) ids :
  decodable fs ->
  exists found,
    mapM (getMany_snap this (Some (callback (fun i => Ok (f i)))))
         (map (snapshot_of this fs) ids) = Ok found /\
    map (fun d => Ref.id (Doc.ref d)) (filter_non_null found) = ids /\
    Forall (fun d => if is_found this fs (Ref.id (Doc.ref d))
                     then found_as this fs d
                     else d = doc this (Ref.id (Doc.ref d)) (f (Ref.id (Doc.ref d))))
           (filter_non_null found).
Proof.
  intros Hdec. induction ids as [|i ids (found & E & Hids & Hall)]; cbn [map mapM].
  - exists []. repeat split. constructor.
  - destruct (docs fs !! firebaseDoc this i) as [raw|] eqn:Ei.
    + rewrite (getMany_snap_found _ _ _ _ _ Ei).
      destruct (Hdec _ _ Ei) as [v Hv]. rewrite Hv, E. cbn.
      exists (Some (doc this i v) :: found). split; [reflexivity|].
      cbn. split; [now f_equal|].
      constructor; [|assumption]. cbn. unfold is_found. rewrite Ei.
      rewrite bool_decide_eq_true_2 by eauto.
      split; [reflexivity|]. cbn. eauto.
    + rewrite (getMany_snap_missing _ _ _ _ Ei), E. cbn.
      exists (Some (doc this i (f i)) :: found). split; [reflexivity|].
      cbn. split; [now f_equal|].
      constructor; [|assumption]. cbn. unfold is_found. rewrite Ei.
      rewrite bool_decide_eq_false_2; [reflexivity|]. intros [? ?]; discriminate.
Qed.

(** C5.  For identifiers without a slash, one of them without a document,
    and a store whose documents decode: by default [getMany] throws
    "Missing document with id" for the first identifier that is missing;
    under ['ignore'] it returns the documents that were found, in the
    order of their identifiers; under a callback it returns a document for
    every identifier, with the value of the callback as the data of a
    missing one.  Each time the store was asked once, for all of them. *)
Theorem getMany_missing_policies
    (this : RichCollection) (ids : list string) (fs : Firestore) :
  Forall (fun i => separators i = 0) ids ->
  decodable fs ->
  (exists b, b ∈ ids /\ docs fs !! firebaseDoc this b = None) ->
  let fs' := record (getAll (map (firebaseDoc this) ids)) fs in
  (exists before b after,
     ids = before ++ b :: after /\
     Forall (fun a => is_found this fs a = true) before /\
     docs fs !! firebaseDoc this b = None /\
     run (getMany this ids None) fs
     = (Throw (Error ("Missing document with id " +:+ b)), fs')) /\
  (exists ds,
     run (getMany this ids (Some ignore)) fs = (Ok ds, fs') /\
     map (fun d => Ref.id (Doc.ref d)) ds
       = filter (fun i => is_found this fs i = true) ids /\
     Forall (found_as this fs) ds) /\
  (forall f : string -> value,
   exists ds,
     run (getMany this ids (Some (callback (fun i => Ok (f i))))) fs = (Ok ds, fs') /\
     map (fun d => Ref.id (Doc.ref d)) ds = ids /\
     Forall (fun d => if is_found this fs (Ref.id (Doc.ref d))
                      then found_as this fs d
                      else d = doc this (Ref.id (Doc.ref d)) (f (Ref.id (Doc.ref d))))
            ds).
Proof.
  intros Hplain Hdec Hmiss fs'.
  assert (Hne : ids <> []).
  { destruct Hmiss as (b & Hin & _). intros ->. now apply elem_of_nil in Hin. }
  split; [|split].
  - destruct (first_missing _ _ _ Hmiss) as (before & b & after & E & Hbefore & Hb).
    exists before, b, after. repeat split; try assumption.
    rewrite getMany_run by assumption. rewrite E at 1.
    now rewrite mapM_default_throws.
  - destruct (mapM_ignore this fs ids Hdec) as (found & E & Hids & Hall).
    exists (filter_non_null found). repeat split; try assumption.
    rewrite getMany_run by assumption. now rewrite E.
  - intros f. destruct (mapM_callback this fs f ids Hdec) as (found & E & Hids & Hall).
    exists (filter_non_null found). repeat split; try assumption.
    rewrite getMany_run by assumption. now rewrite E.
Qed.

Lemma getMany_missing_policies_witness :
  let this := {| path := "users" |} in
  let fs := {| docs := {[ "users/a" := VObj [("name", VStr "X")] ]};
               autoId := fun _ => "generated"; log := [] |} in
  let ids := ["a"; "b"] in
  let fs' := record (getAll ["users/a"; "users/b"]) fs in
  (exists before b after,
     ids = before ++ b :: after /\
     Forall (fun a => is_found this fs a = true) before /\
     docs fs !! firebaseDoc this b = None /\
     run (getMany this ids None) fs
     = (Throw (Error ("Missing document with id " +:+ b)), fs')) /\
  (exists ds,
     run (getMany this ids (Some ignore)) fs = (Ok ds, fs') /\
     map (fun d => Ref.id (Doc.ref d)) ds
       = filter (fun i => is_found this fs i = true) ids /\
     Forall (found_as this fs) ds) /\
  (forall f : string -> value,
   exists ds,
     run (getMany this ids (Some (callback (fun i => Ok (f i))))) fs = (Ok ds, fs') /\
     map (fun d => Ref.id (Doc.ref d)) ds = ids /\
     Forall (fun d => if is_found this fs (Ref.id (Doc.ref d))
                      then found_as this fs d
                      else d = doc this (Ref.id (Doc.ref d)) (f (Ref.id (Doc.ref d))))
            ds).
Proof.
  intros this fs ids fs'.
  apply (getMany_missing_policies this ids fs).
  - repeat constructor.
  - intros p d Hd. cbn in Hd. apply lookup_singleton_Some in Hd as [_ <-].
    eexists. reflexivity.
  - exists "b". split; [|reflexivity].
    apply elem_of_cons. right. apply elem_of_cons. now left.
Defined.

(** The example of the spec: the store holds [{a: {name: 'X'}}] and the
    identifiers are [['a', 'b']]. *)
Lemma getMany_example :
  let this := {| path := "users" |} in
  let fs := {| docs := {[ "users/a" := VObj [("name", VStr "X")] ]};
               autoId := fun _ => "generated"; log := [] |} in
  let fs' := record (getAll ["users/a"; "users/b"]) fs in
  run (getMany this ["a"; "b"] None) fs
  = (Throw (Error "Missing document with id b"), fs') /\
  run (getMany this ["a"; "b"] (Some ignore)) fs
  = (Ok [doc this "a" (VObj [("name", VStr "X")])], fs') /\
  run (getMany this ["a"; "b"]
         (Some (callback (fun _ => Ok (VObj [("name", VStr "unknown")]))))) fs
  = (Ok [doc this "a" (VObj [("name", VStr "X")]);
         doc this "b" (VObj [("name", VStr "unknown")])], fs').
Proof. repeat split. Qed.

(** ** Query compilation *)

Lemma forEach_app {S X} (f : S -> X -> result S) xs ys st :
  forEach f (xs ++ ys) st = (st' ← forEach f xs st; forEach f ys st').
Proof.
  revert st. induction xs as [|x xs IH]; intros st; cbn [app forEach].
  - reflexivity.
  - destruct (f st x) as [st'| |]; cbn; [apply IH | reflexivity | reflexivity].
Qed.

Lemma mapM_app {A B} (f : A -> result B) xs ys :
  mapM f (xs ++ ys) = (xs' ← mapM f xs; ys' ← mapM f ys; Ok (xs' ++ ys')).
Proof.
  induction xs as [|x xs IH]; cbn [app mapM].
  - destruct (mapM f ys); reflexivity.
  - destruct (f x) as [y| |]; cbn; [|reflexivity|reflexivity].
    rewrite IH. destruct (mapM f xs); cbn; [|reflexivity|reflexivity].
    destruct (mapM f ys); reflexivity.
Qed.

Lemma mapM_Ok_length {A B} (f : A -> result B) xs ys :
  mapM f xs = Ok ys -> length ys = length xs.
Proof.
  revert ys. induction xs as [|x xs IH]; cbn [mapM]; intros ys.
  - now intros [= <-].
  - destruct (f x); cbn; try discriminate.
    destruct (mapM f xs); cbn; try discriminate.
    intros [= <-]. cbn. f_equal. now apply IH.
Qed.

(** The directives, in order, each make one call on the accumulator and
    add their cursors to the pending list. *)
Lemma forEach_query_step queries : forall q0 cs0 q cs,
  forEach query_step queries (q0, cs0) = Ok (q, cs) <->
  exists dcalls dcursors,
    mapM directive_call queries = Ok dcalls /\
    mapM directive_cursors queries = Ok dcursors /\
    q = {| from := from q0; calls := calls q0 ++ dcalls |} /\
    cs = cs0 ++ concat dcursors.
Proof.
  induction queries as [|query queries IH]; intros q0 cs0 q cs; cbn [forEach mapM].
  - split.
    + intros [= <- <-]. exists [], []. cbn. rewrite !app_nil_r. destruct q0; auto.
    + intros (dcalls & dcursors & [= <-] & [= <-] & -> & ->).
      cbn. rewrite !app_nil_r. now destruct q0.
  - destruct query as [field method [cursors|]|field filter v|number]; cbn.
    + destruct (mapM (resolve_cursor field) cursors) as [resolved| |] eqn:Er; cbn.
      * rewrite IH. cbn. split.
        -- intros (dcalls & dcursors & -> & -> & -> & ->).
           eexists _, _. cbn. repeat split.
           ++ now rewrite <- app_assoc.
           ++ now rewrite <- app_assoc.
        -- intros (dcalls & dcursors & E1 & E2 & -> & ->).
           destruct (mapM directive_call queries) as [dc| |]; try discriminate.
           destruct (mapM directive_cursors queries) as [dcs| |]; try discriminate.
           cbn in E1, E2. injection E1 as <-. injection E2 as <-.
           eexists _, _. cbn. repeat split.
           ++ now rewrite <- app_assoc.
           ++ now rewrite <- app_assoc.
      * split; [discriminate|]. intros (? & ? & _ & E & _). discriminate.
      * split; [discriminate|]. intros (? & ? & _ & E & _). discriminate.
    + rewrite IH. cbn. split.
      * intros (dcalls & dcursors & -> & -> & -> & ->).
        eexists _, _. cbn. repeat split. now rewrite <- app_assoc.
      * intros (dcalls & dcursors & E1 & E2 & -> & ->).
        destruct (mapM directive_call queries) as [dc| |]; try discriminate.
        destruct (mapM directive_cursors queries) as [dcs| |]; try discriminate.
        cbn in E1, E2. injection E1 as <-. injection E2 as <-.
        eexists _, _. cbn. repeat split. now rewrite <- app_assoc.
    + destruct (unwrapData v) as [v'| |] eqn:Ev; cbn.
      * rewrite IH. cbn. split.
        -- intros (dcalls & dcursors & -> & -> & -> & ->).
           eexists _, _. cbn. repeat split. now rewrite <- app_assoc.
        -- intros (dcalls & dcursors & E1 & E2 & -> & ->).
           destruct (mapM directive_call queries) as [dc| |]; try discriminate.
           destruct (mapM directive_cursors queries) as [dcs| |]; try discriminate.
           cbn in E1, E2. injection E1 as <-. injection E2 as <-.
           eexists _, _. cbn. repeat split. now rewrite <- app_assoc.
      * split; [discriminate|]. intros (? & ? & E & _). discriminate.
      * split; [discriminate|]. intros (? & ? & E & _). discriminate.
    + rewrite IH. cbn. split.
      * intros (dcalls & dcursors & -> & -> & -> & ->).
        eexists _, _. cbn. repeat split. now rewrite <- app_assoc.
      * intros (dcalls & dcursors & E1 & E2 & -> & ->).
        destruct (mapM directive_call queries) as [dc| |]; try discriminate.
        destruct (mapM directive_cursors queries) as [dcs| |]; try discriminate.
        cbn in E1, E2. injection E1 as <-. injection E2 as <-.
        eexists _, _. cbn. repeat split. now rewrite <- app_assoc.
Qed.

Lemma directive_calls_no_cursor queries dcalls :
  mapM directive_call queries = Ok dcalls -> List.filter is_cursor_call dcalls = [].
Proof.
  revert dcalls. induction queries as [|query queries IH]; cbn [mapM]; intros dcalls.
  - now intros [= <-].
  - destruct (directive_call query) as [c| |] eqn:Ec; cbn; try discriminate.
    destruct (mapM directive_call queries) as [cs| |]; cbn; try discriminate.
    intros [= <-]. cbn. rewrite (IH cs eq_refl).
    destruct query as [? ? ?|? ? v|?]; cbn in Ec.
    + now injection Ec as <-.
    + destruct (unwrapData v); cbn in Ec; try discriminate. now injection Ec as <-.
    + now injection Ec as <-.
Qed.

Lemma apply_groups_calls groupedCursors q :
  apply_groups groupedCursors q
  = {| from := from q;
       calls := calls q ++ map (fun '(m, vs) => call_cursor m vs) groupedCursors |}.
Proof.
  unfold apply_groups. revert q.
  induction groupedCursors as [|[m vs] g IH]; intros q; cbn [fold_left map].
  - rewrite app_nil_r. now destruct q.
  - rewrite IH. cbn. now rewrite <- app_assoc.
Qed.

Lemma filter_cursor_calls_groups (groupedCursors : groups) :
  List.filter is_cursor_call (map (fun '(m, vs) => call_cursor m vs) groupedCursors)
  = map (fun '(m, vs) => call_cursor m vs) groupedCursors.
Proof.
  induction groupedCursors as [|[m vs] g IH]; cbn; [reflexivity | now rewrite IH].
Qed.

Lemma push_group_position position v (groupedCursors : groups) :
  (exists vs, (position, vs) ∈ push_group position v groupedCursors) /\
  forall p vs, (p, vs) ∈ groupedCursors ->
               exists vs', (p, vs') ∈ push_group position v groupedCursors.
Proof.
  induction groupedCursors as [|[p0 vs0] g [IH1 IH2]]; cbn [push_group].
  - split.
    + eexists. apply elem_of_cons. now left.
    + intros p vs H. now apply elem_of_nil in H.
  - destruct (decide (p0 = position)) as [->|Hne].
    + rewrite bool_decide_eq_true_2 by reflexivity. split.
      * eexists. apply elem_of_cons. now left.
      * intros p vs [[= -> ->]|H]%elem_of_cons.
        -- eexists. apply elem_of_cons. now left.
        -- eexists. apply elem_of_cons. right. exact H.
    + rewrite bool_decide_eq_false_2 by assumption. split.
      * destruct IH1 as [vs H]. exists vs. apply elem_of_cons. now right.
      * intros p vs [[= -> ->]|H]%elem_of_cons.
        -- eexists. apply elem_of_cons. now left.
        -- destruct (IH2 _ _ H) as [vs' H']. exists vs'. apply elem_of_cons. now right.
Qed.

(** Grouping gives every cursor's position a group. *)
Lemma forEach_group_step cursors : forall g0 g,
  forEach group_step cursors g0 = Ok g ->
  (forall p vs, (p, vs) ∈ g0 -> exists vs', (p, vs') ∈ g) /\
  (forall c, c ∈ cursors -> exists vs, (OrderCursor.position c, vs) ∈ g).
Proof.
  induction cursors as [|c cursors IH]; intros g0 g; cbn [forEach].
  - intros [= <-]. split; [eauto|]. intros c H. now apply elem_of_nil in H.
  - destruct (group_step g0 c) as [g1| |] eqn:E1; cbn; try discriminate.
    unfold group_step in E1.
    destruct (unwrapData (OrderCursor.value c)) as [v| |]; cbn in E1; try discriminate.
    injection E1 as <-.
    intros E. destruct (IH _ _ E) as [IH1 IH2].
    destruct (push_group_position (OrderCursor.position c) v g0) as [[vs Hc] Hold].
    split.
    + intros p vs0 H. destruct (Hold _ _ H) as [vs' H']. eauto.
    + intros c' [->|H]%elem_of_cons; eauto.
Qed.

Lemma defined_spec c : defined c = true <-> OrderCursor.value c <> VUndefined.
Proof.
  unfold defined. destruct (OrderCursor.value c); split; congruence.
Qed.

(** What [query] returns, from the state after the directives. *)
Lemma query_after_directives this queries st cursors :
  forEach query_step queries (start this) = Ok (st, cursors) ->
  query this queries
  = (groupedCursors ← forEach group_step cursors [];
     if negb (Nat.eqb (length cursors) 0) && forallb defined cursors
     then Ok (apply_groups groupedCursors st)
     else Ok st).
Proof. unfold query. intros ->. reflexivity. Qed.

(** C2.  After the directives, the cursor methods are applied exactly when
    the list of collected cursors is not empty and no cursor in it has the
    value [undefined]; then every group is applied, and otherwise the
    query is the one the directives built, with no cursor method at all. *)
Theorem cursors_all_or_nothing
    (this : RichCollection) (queries : list Query)
    (st : FirestoreQuery) (cursors : list OrderCursor.t) (q : FirestoreQuery) :
  forEach query_step queries (start this) = Ok (st, cursors) ->
  query this queries = Ok q ->
  (cursor_calls q <> [] <->
     cursors <> [] /\ Forall (fun c => OrderCursor.value c <> VUndefined) cursors) /\
  (cursors <> [] ->
   Forall (fun c => OrderCursor.value c <> VUndefined) cursors ->
   exists groupedCursors,
     forEach group_step cursors [] = Ok groupedCursors /\
     cursor_calls q = map (fun '(m, vs) => call_cursor m vs) groupedCursors /\
     forall c, c ∈ cursors -> exists vs, (OrderCursor.position c, vs) ∈ groupedCursors) /\
  (Exists (fun c => OrderCursor.value c = VUndefined) cursors ->
   q = st /\ cursor_calls q = []).
Proof.
  intros Hst Hq. rewrite (query_after_directives _ _ _ _ Hst) in Hq.
  destruct (forEach group_step cursors []) as [g| |] eqn:Eg; cbn in Hq; try discriminate.
  apply forEach_query_step in Hst as (dcalls & dcursors & Hcalls & _ & Est & _).
  assert (Hnone : cursor_calls st = []).
  { subst st. unfold cursor_calls. cbn. now apply directive_calls_no_cursor in Hcalls. }
  assert (Happlied : cursor_calls (apply_groups g st)
                     = map (fun '(m, vs) => call_cursor m vs) g).
  { rewrite apply_groups_calls. unfold cursor_calls in *. cbn.
    rewrite List.filter_app, Hnone, filter_cursor_calls_groups. reflexivity. }
  destruct (forEach_group_step _ _ _ Eg) as [_ Hpos].
  assert (Hdef : forallb defined cursors = true <->
                 Forall (fun c => OrderCursor.value c <> VUndefined) cursors).
  { rewrite forallb_forall, List.Forall_forall.
    split; intros H c Hc; apply defined_spec, H, Hc. }
  assert (Hlen : negb (Nat.eqb (length cursors) 0) = true <-> cursors <> []).
  { destruct cursors; cbn; split; congruence. }
  destruct (negb (Nat.eqb (length cursors) 0) && forallb defined cursors) eqn:Hguard.
  - apply andb_prop in Hguard as [H1 H2]. apply Hlen in H1. apply Hdef in H2.
    injection Hq as <-. rewrite Happlied. split; [|split].
    + split; [auto|]. intros _. destruct cursors as [|c cs]; [now elim H1|].
      destruct (Hpos c) as [vs Hin]; [apply elem_of_cons; now left|].
      destruct g; [now apply elem_of_nil in Hin | discriminate].
    + intros _ _. exists g. auto.
    + intros Hex. exfalso. apply List.Exists_exists in Hex as (c & Hc & Hu).
      rewrite List.Forall_forall in H2. now apply (H2 c Hc).
  - injection Hq as <-. rewrite Hnone. split; [|split].
    + split; [congruence|]. intros [H1 H2]. apply Hlen in H1. apply Hdef in H2.
      rewrite H1, H2 in Hguard. discriminate.
    + intros H1 H2. apply Hlen in H1. apply Hdef in H2.
      rewrite H1, H2 in Hguard. discriminate.
    + auto.
Qed.

Lemma cursors_all_or_nothing_witness :
  let this := {| path := "users" |} in
  let cursor p v := {| OrderCursor.position := p; OrderCursor.value := v |} in
  let queries := [order (Name "age") "asc" (Some [cursor startAt (VNum 18)]);
                  order (Name "name") "asc" (Some [cursor endBefore VUndefined])] in
  let st := {| from := "users";
               calls := [call_orderBy (FieldPath_string "age") "asc";
                         call_orderBy (FieldPath_string "name") "asc"] |} in
  let cursors := [cursor startAt (VNum 18); cursor endBefore VUndefined] in
  (cursor_calls st <> [] <->
     cursors <> [] /\ Forall (fun c => OrderCursor.value c <> VUndefined) cursors) /\
  (cursors <> [] ->
   Forall (fun c => OrderCursor.value c <> VUndefined) cursors ->
   exists groupedCursors,
     forEach group_step cursors [] = Ok groupedCursors /\
     cursor_calls st = map (fun '(m, vs) => call_cursor m vs) groupedCursors /\
     forall c, c ∈ cursors -> exists vs, (OrderCursor.position c, vs) ∈ groupedCursors) /\
  (Exists (fun c => OrderCursor.value c = VUndefined) cursors ->
   st = st /\ cursor_calls st = []).
Proof.
  intros this cursor queries st cursors.
  apply (cursors_all_or_nothing this queries st cursors st); reflexivity.
Defined.

(** The two cases on an example: with every value defined the groups are
    applied after the directives, one call for each position; with one
    value left [undefined] no cursor method is applied. *)
Lemma cursors_all_or_nothing_example :
  let this := {| path := "users" |} in
  let cursor p v := {| OrderCursor.position := p; OrderCursor.value := v |} in
  query this [order (Name "age") "asc" (Some [cursor startAt (VNum 18)]);
              order (Name "name") "asc" (Some [cursor endBefore (VStr "m")]);
              order docId "asc" (Some [cursor startAt VNull])]
  = Ok {| from := "users";
          calls := [call_orderBy (FieldPath_string "age") "asc";
                    call_orderBy (FieldPath_string "name") "asc";
                    call_orderBy FieldPath_documentId "asc";
                    call_cursor startAt [VNum 18; VNull];
                    call_cursor endBefore [VStr "m"]] |} /\
  query this [order (Name "age") "asc" (Some [cursor startAt (VNum 18)]);
              order (Name "name") "asc" (Some [cursor endBefore VUndefined])]
  = Ok {| from := "users";
          calls := [call_orderBy (FieldPath_string "age") "asc";
                    call_orderBy (FieldPath_string "name") "asc"] |}.
Proof. split; reflexivity. Qed.

Lemma no_order_cursors queries :
  forallb (fun query => negb (is_order query)) queries = true ->
  exists dcursors, mapM directive_cursors queries = Ok dcursors /\ concat dcursors = [].
Proof.
  induction queries as [|query queries IH]; cbn [forallb mapM].
  - exists []. split; reflexivity.
  - intros [Hq Hqs]%andb_prop. destruct (IH Hqs) as (dcs & E & Hc).
    destruct query; try discriminate; cbn; rewrite E; cbn;
      exists ([] :: dcs); split; auto.
Qed.

Lemma no_order_calls queries dcalls :
  forallb (fun query => negb (is_order query)) queries = true ->
  mapM directive_call queries = Ok dcalls ->
  List.filter is_orderBy dcalls = [].
Proof.
  revert dcalls. induction queries as [|query queries IH]; cbn [forallb mapM]; intros dcalls.
  - now intros _ [= <-].
  - intros [Hq Hqs]%andb_prop.
    destruct (directive_call query) as [c| |] eqn:Ec; cbn; try discriminate.
    destruct (mapM directive_call queries) as [cs| |]; cbn; try discriminate.
    intros [= <-]. cbn. rewrite (IH cs Hqs eq_refl).
    destruct query as [? ? ?|? ? v|?]; try discriminate; cbn in Ec.
    + destruct (unwrapData v); cbn in Ec; try discriminate. now injection Ec as <-.
    + now injection Ec as <-.
Qed.

(** C7.  Two [order] directives with one [startAt] cursor each, among
    directives that are not [order] directives and whose values encode:
    when the two cursor values resolve to something other than
    [undefined] and encode, the query compiles, the two [orderBy] calls
    come in the order of the directives, and the only cursor call is one
    [startAt], the last call, with the two encoded values in that same
    order. *)
Theorem startAt_cursors_grouped
    (this : RichCollection) (qs1 qs2 qs3 : list Query)
    (f1 f2 : Field) (m1 m2 : string) (v1 v2 r1 r2 u1 u2 : value)
    (d1 d2 d3 : list QueryCall) :
  forallb (fun query => negb (is_order query)) (qs1 ++ qs2 ++ qs3) = true ->
  mapM directive_call qs1 = Ok d1 ->
  mapM directive_call qs2 = Ok d2 ->
  mapM directive_call qs3 = Ok d3 ->
  cursor_value f1 v1 = Ok r1 -> r1 <> VUndefined -> unwrapData r1 = Ok u1 ->
  cursor_value f2 v2 = Ok r2 -> r2 <> VUndefined -> unwrapData r2 = Ok u2 ->
  let cursor v := {| OrderCursor.position := startAt; OrderCursor.value := v |} in
  exists q,
    query this (qs1 ++ order f1 m1 (Some [cursor v1]) ::
                qs2 ++ order f2 m2 (Some [cursor v2]) :: qs3) = Ok q /\
    calls q = d1 ++ call_orderBy (order_field f1) m1 ::
              d2 ++ call_orderBy (order_field f2) m2 ::
              d3 ++ [call_cursor startAt [u1; u2]] /\
    List.filter is_orderBy (calls q)
      = [call_orderBy (order_field f1) m1; call_orderBy (order_field f2) m2] /\
    cursor_calls q = [call_cursor startAt [u1; u2]].
Proof.
  intros Hno E1 E2 E3 Hr1 Hd1 Hu1 Hr2 Hd2 Hu2 cursor.
  rewrite !forallb_app in Hno.
  apply andb_prop in Hno as [Hno1 [Hno2 Hno3]%andb_prop].
  destruct (no_order_cursors _ Hno1) as (dc1 & Ec1 & Hc1).
  destruct (no_order_cursors _ Hno2) as (dc2 & Ec2 & Hc2).
  destruct (no_order_cursors _ Hno3) as (dc3 & Ec3 & Hc3).
  set (queries := qs1 ++ _).
  set (dcalls := d1 ++ call_orderBy (order_field f1) m1 ::
                 d2 ++ call_orderBy (order_field f2) m2 :: d3).
  set (resolved v := {| OrderCursor.position := startAt; OrderCursor.value := v |}).
  assert (Hst : forEach query_step queries (start this)
                = Ok ({| from := firebaseCollection this; calls := dcalls |},
                      [resolved r1; resolved r2])).
  { apply forEach_query_step.
    exists dcalls, (dc1 ++ [resolved r1] :: dc2 ++ [resolved r2] :: dc3).
    subst queries dcalls. repeat split.
    - rewrite mapM_app, E1. cbn. rewrite mapM_app, E2. cbn. rewrite E3. reflexivity.
    - rewrite mapM_app, Ec1. cbn. unfold resolve_cursor at 1. cbn. rewrite Hr1. cbn.
      rewrite mapM_app, Ec2. cbn. unfold resolve_cursor at 1. cbn. rewrite Hr2. cbn.
      rewrite Ec3. reflexivity.
    - rewrite concat_app. cbn. rewrite concat_app. cbn. now rewrite Hc1, Hc2, Hc3. }
  rewrite (query_after_directives _ _ _ _ Hst).
  cbn [forEach]. unfold group_step. cbn. rewrite Hu1. cbn. rewrite Hu2. cbn.
  assert (Hdef : forall r, r <> VUndefined -> defined (resolved r) = true).
  { intros r Hr. now apply defined_spec. }
  rewrite (Hdef _ Hd1), (Hdef _ Hd2). cbn.
  eexists. split; [reflexivity|]. cbn.
  rewrite bool_decide_eq_true_2 by reflexivity. unfold apply_groups. cbn [fold_left].
  assert (Hcalls : calls (chain {| from := firebaseCollection this; calls := dcalls |}
                            (call_cursor startAt [u1; u2]))
                   = d1 ++ call_orderBy (order_field f1) m1 ::
                     d2 ++ call_orderBy (order_field f2) m2 ::
                     d3 ++ [call_cursor startAt [u1; u2]]).
  { subst dcalls. cbn. rewrite <- !app_assoc. cbn. rewrite <- !app_assoc. reflexivity. }
  split; [exact Hcalls|]. unfold cursor_calls. rewrite Hcalls.
  rewrite !List.filter_app. cbn. rewrite !List.filter_app. cbn. rewrite !List.filter_app.
  rewrite (no_order_calls _ _ Hno1 E1), (no_order_calls _ _ Hno2 E2),
    (no_order_calls _ _ Hno3 E3).
  rewrite (directive_calls_no_cursor _ _ E1), (directive_calls_no_cursor _ _ E2),
    (directive_calls_no_cursor _ _ E3).
  split; reflexivity.
Qed.

Lemma startAt_cursors_grouped_witness :
  let this := {| path := "users" |} in
  let cursor v := {| OrderCursor.position := startAt; OrderCursor.value := v |} in
  let last := doc_value (doc this "u7" (VObj [("age", VNum 30)])) in
  exists q,
    query this ([] ++ order (Name "age") "desc" (Some [cursor (VNum 18)]) ::
                [where_ (Name "active") "==" (VBool true)] ++
                order docId "asc" (Some [cursor last]) :: [limit (VNum 10)]) = Ok q /\
    calls q = [] ++ call_orderBy (FieldPath_string "age") "desc" ::
              [call_where (FieldPath_string "active") "==" (VBool true)] ++
              call_orderBy FieldPath_documentId "asc" ::
              [call_limit (VNum 10)] ++ [call_cursor startAt [VNum 18; VStr "u7"]] /\
    List.filter is_orderBy (calls q)
      = [call_orderBy (FieldPath_string "age") "desc";
         call_orderBy FieldPath_documentId "asc"] /\
    cursor_calls q = [call_cursor startAt [VNum 18; VStr "u7"]].
Proof.
  intros this cursor last.
  apply (startAt_cursors_grouped this [] [where_ (Name "active") "==" (VBool true)]
           [limit (VNum 10)] (Name "age") docId "desc" "asc"
           (VNum 18) last (VNum 18) (VStr "u7") (VNum 18) (VStr "u7"));
    try reflexivity; discriminate.
Defined.

(** C9.  A [where] directive on the document-id placeholder compiles to a
    [where] call on the store's own identifier selector, at the place of
    the directive, with the encoded comparison value; a field that is
    named "docId" compiles to a call on that field name instead. *)
Theorem where_docId_native_selector
    (this : RichCollection) (qs1 qs2 : list Query) (filter : string) (v : value)
    (q : FirestoreQuery) :
  query this (qs1 ++ where_ docId filter v :: qs2) = Ok q ->
  exists v' before after,
    unwrapData v = Ok v' /\
    calls q = before ++ call_where FieldPath_documentId filter v' :: after /\
    length before = length qs1 /\
    where_field docId <> where_field (Name "docId").
Proof.
  intros Hq.
  destruct (forEach query_step (qs1 ++ where_ docId filter v :: qs2) (start this))
    as [[st cursors]| |] eqn:Hst;
    [|unfold query in Hq; rewrite Hst in Hq; discriminate..].
  rewrite (query_after_directives _ _ _ _ Hst) in Hq.
  apply forEach_query_step in Hst as (dcalls & dcursors & Hcalls & _ & -> & _).
  rewrite mapM_app in Hcalls.
  destruct (mapM directive_call qs1) as [d1| |] eqn:E1; cbn in Hcalls; try discriminate.
  destruct (unwrapData v) as [v'| |] eqn:Ev; cbn in Hcalls; try discriminate.
  destruct (mapM directive_call qs2) as [d2| |] eqn:E2; cbn in Hcalls; try discriminate.
  injection Hcalls as <-.
  destruct (forEach group_step cursors []) as [g| |]; cbn in Hq; try discriminate.
  exists v', d1.
  destruct (negb (Nat.eqb (length cursors) 0) && forallb defined cursors).
  - injection Hq as <-. rewrite apply_groups_calls. cbn.
    exists (d2 ++ map (fun '(m, vs) => call_cursor m vs) g).
    repeat split; [|now apply mapM_Ok_length in E1|discriminate].
    now rewrite <- app_assoc.
  - injection Hq as <-. cbn. exists d2.
    repeat split; [now apply mapM_Ok_length in E1|discriminate].
Qed.

Lemma where_docId_native_selector_witness :
  exists v' before after,
    unwrapData (VStr "a") = Ok v' /\
    [call_orderBy FieldPath_documentId "asc";
     call_where FieldPath_documentId ">=" (VStr "a");
     call_limit (VNum 2)]
    = before ++ call_where FieldPath_documentId ">=" v' :: after /\
    length before = length [order docId "asc" None] /\
    where_field docId <> where_field (Name "docId").
Proof.
  apply (where_docId_native_selector {| path := "words" |}
           [order docId "asc" None] [limit (VNum 2)] ">=" (VStr "a")
           {| from := "words";
              calls := [call_orderBy FieldPath_documentId "asc";
                        call_where FieldPath_documentId ">=" (VStr "a");
                        call_limit (VNum 2)] |}).
  reflexivity.
Defined.

(** The example of the spec, [where(docId, '>=', 'a')], next to a field
    named "docId". *)
Lemma where_docId_example :
  query {| path := "words" |} [where_ docId ">=" (VStr "a")]
  = Ok {| from := "words"; calls := [call_where FieldPath_documentId ">=" (VStr "a")] |} /\
  query {| path := "words" |} [where_ (Name "docId") ">=" (VStr "a")]
  = Ok {| from := "words";
          calls := [call_where (FieldPath_string "docId") ">=" (VStr "a")] |}.
Proof. split; reflexivity. Qed.

(** ** The marshaller on the heap: frame and fresh copies *)

Module HeapFacts.
Import Heap.

Lemma wp_mono {A} (m : H A) h (Q Q' : result A -> heap -> Prop) :
  wp m h Q -> (forall r h', Q r h' -> Q' r h') -> wp m h Q'.
Proof. unfold wp. auto. Qed.

Lemma wp_bind {A B} (m : H A) (k : A -> H B) h (Q : result B -> heap -> Prop) :
  wp m h (fun r h1 =>
            match r with
            | Ok a => wp (k a) h1 Q
            | Throw e => Q (Throw e) h1
            | Unmodelled => Q Unmodelled h1
            end) ->
  wp (m ≫= k) h Q.
Proof.
  unfold wp. rewrite run_bind. destruct (run m h) as [[a| |] h1]; cbn; auto.
Qed.

Lemma wp_ret {A} (a : A) h (Q : result A -> heap -> Prop) :
  Q (Ok a) h -> wp (mret a) h Q.
Proof. auto. Qed.

Lemma wp_lift {A} (r : result A) h (Q : result A -> heap -> Prop) :
  Q r h -> wp (lift r) h Q.
Proof. auto. Qed.

Lemma alloc_fresh (h : heap) : h !! fresh (dom h) = None.
Proof. apply not_elem_of_dom, is_fresh. Qed.

Lemma alloc_subseteq c (h : heap) : h ⊆ <[fresh (dom h) := c]> h.
Proof. apply insert_subseteq, alloc_fresh. Qed.

Lemma wp_alloc c h (Q : result val -> heap -> Prop) :
  Q (Ok (object (fresh (dom h)))) (<[fresh (dom h) := c]> h) -> wp (alloc c) h Q.
Proof. auto. Qed.

Lemma wp_cell_of l h (Q : result cell -> heap -> Prop) :
  (forall c, h !! l = Some c -> Q (Ok c) h) ->
  (h !! l = None -> Q Unmodelled h) ->
  wp (cell_of l) h Q.
Proof.
  intros HS HN. unfold wp, cell_of. cbn. destruct (h !! l); cbn; auto.
Qed.

(** A read leaves the heap as it is. *)
Lemma wp_get o k h (Q : result val -> heap -> Prop) :
  (forall r, (forall l c, o = object l -> h !! l = Some c -> r = Ok (cell_get c k)) ->
             Q r h) ->
  wp (get o k) h Q.
Proof.
  intros HQ. unfold wp. destruct o; cbn; try (apply HQ; intros; discriminate).
  destruct (h !! l) as [c|] eqn:E; cbn; apply HQ; intros l0 c0 [= <-] E'; congruence.
Qed.

Lemma wp_keys_of o h (Q : result (list key) -> heap -> Prop) :
  (forall r, (forall l c, o = object l -> h !! l = Some c -> r = Ok (keys c)) -> Q r h) ->
  wp (keys_of o) h Q.
Proof.
  intros HQ. unfold wp. destruct o; cbn; try (apply HQ; intros; discriminate).
  destruct (h !! l) as [c|] eqn:E; cbn; apply HQ; intros l0 c0 [= <-] E'; congruence.
Qed.

(** An assignment changes the object it assigns to, or fails and changes
    nothing. *)
Lemma wp_put l k v h (Q : result unit -> heap -> Prop) :
  (forall c c', h !! l = Some c -> cell_put c k v = Some c' -> Q (Ok tt) (<[l := c']> h)) ->
  Q Unmodelled h ->
  wp (put (object l) k v) h Q.
Proof.
  intros HS HN. unfold wp. cbn. destruct (h !! l) as [c|] eqn:El; [|exact HN].
  destruct (cell_put c k v) as [c'|] eqn:E; [|exact HN]. cbn. now apply (HS c c').
Qed.

(** A loop whose every round keeps [P] keeps [P], whatever its outcome. *)
Lemma wp_each_inv {K} (P : heap -> Prop) (body : K -> H unit) ks h
    (Q : result unit -> heap -> Prop) :
  P h ->
  (forall k h, P h -> wp (body k) h (fun _ h' => P h')) ->
  (forall r h', P h' -> Q r h') ->
  wp (each body ks) h Q.
Proof.
  intros HP Hbody HQ. revert h HP. induction ks as [|k ks IH]; intros h HP; cbn [each].
  - apply wp_ret. auto.
  - apply wp_bind. eapply wp_mono; [apply (Hbody k h HP)|].
    intros [[]| |] h'; cbn; auto.
Qed.

Lemma frame_asRef h0 data h : h0 ⊆ h -> wp (asRef data) h (frame h0).
Proof.
  intros Hh. unfold asRef. apply wp_bind, wp_get. intros [c| |] _; try exact Hh.
  destruct (nullish c); [exact Hh|].
  apply wp_bind, wp_get. intros [p| |] _; try exact Hh.
  apply wp_bind, wp_get. intros [i| |] _; try exact Hh.
  destruct p, i; exact Hh.
Qed.

Lemma frame_spread h0 xs h : h0 ⊆ h -> wp (spread xs) h (frame h0).
Proof.
  intros Hh. destruct xs; try exact Hh.
  cbn [spread]. apply wp_bind, wp_cell_of; [|intros _; exact Hh].
  intros c _. destruct c; exact Hh.
Qed.

Lemma frame_alloc {h0 : heap} c h : h0 ⊆ h -> wp (alloc c) h (frame h0).
Proof.
  intros Hh. apply wp_alloc. unfold frame.
  etransitivity; [exact Hh | apply alloc_subseteq].
Qed.

(** The copying traversal, for a function that leaves alone whatever it
    is started on. *)
Lemma frame_container (f : val -> H val) data c h0 h :
  (forall v h0 h, h0 ⊆ h -> wp (f v) h (frame h0)) ->
  h0 ⊆ h -> wp (container f data c) h (frame h0).
Proof.
  intros Hf Hh. unfold container, assign.
  apply wp_bind, wp_bind, wp_alloc.
  set (l' := fresh (dom h)). set (h1 := <[l' := _]> h).
  assert (Hl' : h0 !! l' = None).
  { eapply lookup_weaken_None; [apply (alloc_fresh h) | exact Hh]. }
  assert (H1 : h0 ⊆ h1) by (etransitivity; [exact Hh | apply alloc_subseteq]).
  apply wp_bind.
  apply (wp_each_inv (fun h' => h0 ⊆ h')); [exact H1| |].
  { intros k h2 H2. apply wp_bind, wp_get. intros [v| |] _; try exact H2.
    apply wp_put; [|exact H2]. intros. now apply insert_subseteq_r. }
  intros [[]| |] h2 H2; try exact H2.
  apply wp_ret. cbv beta iota. apply wp_bind, wp_keys_of. intros [ks| |] _; try exact H2.
  apply wp_bind.
  apply (wp_each_inv (fun h' => h0 ⊆ h')); [exact H2| |].
  { intros k h3 H3. apply wp_bind, wp_get. intros [v| |] _; try exact H3.
    apply wp_bind. eapply wp_mono; [apply (Hf v h0 h3 H3)|].
    intros [v'| |] h4 H4; try exact H4.
    apply wp_put; [|exact H4]. intros. now apply insert_subseteq_r. }
  intros [[]| |] h3 H3; exact H3.
Qed.

Lemma frame_unwrapData depth : forall data h0 h,
  h0 ⊆ h -> wp (unwrapData depth data) h (frame h0).
Proof.
  induction depth as [|depth IH]; intros data h0 h Hh; cbn [unwrapData].
  - exact Hh.
  - destruct data; try exact Hh.
    apply wp_bind, wp_cell_of; [|intros _; exact Hh]. intros c _.
    assert (Hc : wp (
      type ← get (object l) (name "type");
      if is_text type "ref" then
        ref ← asRef (object l); alloc (DocumentReference (getRefPath ref))
      else if is_text type "value" then
        kind ← get (object l) (name "kind");
        if is_text kind "remove" then alloc FieldValue_delete
        else if is_text kind "increment" then
          n ← get (object l) (name "number"); alloc (FieldValue_increment n)
        else if is_text kind "arrayUnion" then
          values ← get (object l) (name "values");
          values' ← unwrapData depth values;
          elements ← spread values';
          alloc (FieldValue_arrayUnion elements)
        else if is_text kind "arrayRemove" then
          values ← get (object l) (name "values");
          values' ← unwrapData depth values;
          elements ← spread values';
          alloc (FieldValue_arrayRemove elements)
        else if is_text kind "serverDate" then alloc FieldValue_serverTimestamp
        else container (unwrapData depth) (object l) c
      else container (unwrapData depth) (object l) c) h (frame h0)).
    { apply wp_bind, wp_get. intros [type| |] _; try exact Hh.
      destruct (is_text type "ref").
      { apply wp_bind. eapply wp_mono; [apply (frame_asRef h0 _ h Hh)|].
        intros [ref| |] h1 H1; try exact H1. now apply frame_alloc. }
      destruct (is_text type "value"); [|now apply frame_container].
      apply wp_bind, wp_get. intros [kind| |] _; try exact Hh.
      destruct (is_text kind "remove"); [now apply frame_alloc|].
      destruct (is_text kind "increment").
      { apply wp_bind, wp_get. intros [n| |] _; try exact Hh. now apply frame_alloc. }
      destruct (is_text kind "arrayUnion").
      { apply wp_bind, wp_get. intros [values| |] _; try exact Hh.
        apply wp_bind. eapply wp_mono; [apply (IH values h0 h Hh)|].
        intros [values'| |] h1 H1; try exact H1.
        apply wp_bind. eapply wp_mono; [apply (frame_spread h0 _ h1 H1)|].
        intros [elements| |] h2 H2; try exact H2. now apply frame_alloc. }
      destruct (is_text kind "arrayRemove").
      { apply wp_bind, wp_get. intros [values| |] _; try exact Hh.
        apply wp_bind. eapply wp_mono; [apply (IH values h0 h Hh)|].
        intros [values'| |] h1 H1; try exact H1.
        apply wp_bind. eapply wp_mono; [apply (frame_spread h0 _ h1 H1)|].
        intros [elements| |] h2 H2; try exact H2. now apply frame_alloc. }
      destruct (is_text kind "serverDate"); [now apply frame_alloc|].
      now apply frame_container. }
    destruct c; first [exact Hc | now apply frame_alloc | exact Hh].
Qed.

Lemma frame_wrapData depth : forall data h0 h,
  h0 ⊆ h -> wp (wrapData depth data) h (frame h0).
Proof.
  induction depth as [|depth IH]; intros data h0 h Hh; cbn [wrapData].
  - exact Hh.
  - destruct data; try exact Hh.
    apply wp_bind, wp_cell_of; [|intros _; exact Hh]. intros c _.
    destruct c; try exact Hh; try (now apply frame_alloc);
      try (now apply frame_container).
    apply wp_bind, wp_lift. destruct (pathToRef path0) as [ref| |]; try exact Hh.
    unfold newRef. apply wp_bind, wp_alloc.
    apply frame_alloc. etransitivity; [exact Hh | apply alloc_subseteq].
Qed.

Lemma frame_nullifyData depth : forall data h0 h,
  h0 ⊆ h -> wp (nullifyData depth data) h (frame h0).
Proof.
  induction depth as [|depth IH]; intros data h0 h Hh; cbn [nullifyData].
  - exact Hh.
  - destruct data; try exact Hh.
    apply wp_bind, wp_cell_of; [|intros _; exact Hh]. intros c _.
    assert (Hc : forall c0, wp (
      newData ← alloc c0;
      _ ← each (fun k =>
             v ← get (object l) k;
             v' ← (match v with
                   | undefined => mret null
                   | _ => nullifyData depth v
                   end);
             put newData k v') (keys c);
      mret newData) h (frame h0)).
    { intros c0. apply wp_bind, wp_alloc.
      set (l' := fresh (dom h)). set (h1 := <[l' := c0]> h).
      assert (Hl' : h0 !! l' = None).
      { eapply lookup_weaken_None; [apply (alloc_fresh h) | exact Hh]. }
      assert (H1 : h0 ⊆ h1) by (etransitivity; [exact Hh | apply alloc_subseteq]).
      apply wp_bind.
      apply (wp_each_inv (fun h' => h0 ⊆ h')); [exact H1| |].
      { intros k h2 H2. apply wp_bind, wp_get. intros [v| |] _; try exact H2.
        apply wp_bind.
        assert (Hv : wp (match v with
                         | undefined => mret null
                         | _ => nullifyData depth v
                         end) h2 (frame h0)).
        { destruct v; first [exact H2 | now apply IH]. }
        eapply wp_mono; [exact Hv|].
        intros [v'| |] h3 H3; try exact H3.
        apply wp_put; [|exact H3]. intros. now apply insert_subseteq_r. }
      intros [[]| |] h2 H2; exact H2. }
    destruct c; first [apply Hc | exact Hh].
Qed.

Lemma wp_and {A} (m : H A) h (Q1 Q2 : result A -> heap -> Prop) :
  wp m h Q1 -> wp m h Q2 -> wp m h (fun r h' => Q1 r h' /\ Q2 r h').
Proof. unfold wp. auto. Qed.

(** *** Fresh copies *)

Lemma fresh_mono D D' (h h2 : heap) v :
  fresh_for D h v -> D' ⊆ D ->
  (forall l c, h !! l = Some c -> (container_cell c = true -> l ∉ D) -> h2 !! l = Some c) ->
  fresh_for D' h2 v.
Proof.
  intros Hf HD Hag. induction Hf as [v Hv|l c Hl Hc HlD _ IH|l c Hl Hc].
  - now apply fresh_for_primitive.
  - apply (fresh_for_container _ _ l c); auto.
  - apply (fresh_for_leaf _ _ l c); auto. apply Hag; [assumption | congruence].
Qed.

Lemma fresh_subseteq D (h h2 : heap) v : fresh_for D h v -> h ⊆ h2 -> fresh_for D h2 v.
Proof.
  intros Hf Hh. apply (fresh_mono D D h); [assumption | reflexivity |].
  intros l c Hl _. eapply lookup_weaken; eassumption.
Qed.

Lemma fresh_weaken D D' (h : heap) v : fresh_for D h v -> D' ⊆ D -> fresh_for D' h v.
Proof. intros Hf HD. apply (fresh_mono D D' h); auto. Qed.

(** A write to a container whose address is in [D] is not seen from a
    value that is fresh for [D]. *)
Lemma fresh_insert D (h : heap) v l0 c0 c1 :
  fresh_for D h v -> l0 ∈ D -> h !! l0 = Some c0 -> container_cell c0 = true ->
  fresh_for D (<[l0 := c1]> h) v.
Proof.
  intros Hf Hl0 Hc0 Hcont. apply (fresh_mono D D h); [assumption | reflexivity |].
  intros l c Hl Hc. destruct (decide (l = l0)) as [->|Hne].
  - exfalso. rewrite Hc0 in Hl. injection Hl as <-. now apply (Hc Hcont).
  - now rewrite lookup_insert_ne.
Qed.

Lemma fresh_prim D (h : heap) v : (forall l, v <> object l) -> fresh_for D h v.
Proof. apply fresh_for_primitive. Qed.

(** *** Cells *)

Lemma keys_set_prop {V} k (v : V) fs :
  map fst (set_prop k v fs)
  = if bool_decide (k ∈ map fst fs) then map fst fs else map fst fs ++ [k].
Proof.
  induction fs as [|[k0 v0] fs IH]; cbn [set_prop map fst].
  - rewrite bool_decide_eq_false_2; [reflexivity | apply not_elem_of_nil].
  - destruct (String.eqb_spec k0 k) as [->|Hne]; cbn [map fst].
    + rewrite bool_decide_eq_true_2; [reflexivity | apply elem_of_cons; now left].
    + rewrite IH. destruct (decide (k ∈ map fst fs)) as [Hin|Hnin].
      * rewrite !bool_decide_eq_true_2; [reflexivity | | assumption].
        apply elem_of_cons. now right.
      * rewrite !bool_decide_eq_false_2; [reflexivity | | assumption].
        intros [->|?]%elem_of_cons; [now elim Hne | contradiction].
Qed.

Lemma cell_put_container c k v c' :
  cell_put c k v = Some c' -> container_cell c' = true.
Proof.
  destruct c, k; unfold cell_put; try discriminate.
  - now intros [= <-].
  - destruct (Nat.ltb i (length items)); [now intros [= <-]|].
    destruct (Nat.eqb i (length items)); [now intros [= <-] | discriminate].
Qed.

Lemma NoDup_name_keys (ks : list string) : NoDup ks -> NoDup (map name ks).
Proof.
  intros H. apply NoDup_fmap_2; [|exact H]. intros a b [= ->]. reflexivity.
Qed.

Lemma keys_NoDup_put c k v c' :
  NoDup (keys c) -> cell_put c k v = Some c' -> NoDup (keys c').
Proof.
  destruct c, k; unfold cell_put; try discriminate.
  - cbn. intros Hnd [= <-]. cbn.
    rewrite <- (map_map fst name), keys_set_prop.
    rewrite <- (map_map fst name) in Hnd.
    apply NoDup_fmap_1 in Hnd.
    apply NoDup_name_keys.
    destruct (decide (k ∈ map fst props)) as [Hin|Hnin].
    + now rewrite bool_decide_eq_true_2.
    + rewrite bool_decide_eq_false_2 by assumption.
      apply NoDup_app. repeat split; [assumption | | apply NoDup_singleton].
      intros x Hx [->|H]%elem_of_cons; [contradiction | now apply elem_of_nil in H].
  - intros _ Hput.
    assert (Hc' : exists items', c' = Array items').
    { destruct (Nat.ltb i (length items)); [injection Hput as <-; eauto|].
      destruct (Nat.eqb i (length items)); [injection Hput as <-; eauto | discriminate]. }
    destruct Hc' as [items' ->]. cbn.
    apply NoDup_fmap_2; [intros a b [= ->]; reflexivity | apply NoDup_seq].
Qed.

Lemma elem_of_keys_Plain props k :
  name k ∈ keys (Plain props) <-> k ∈ map fst props.
Proof.
  cbn. rewrite <- (map_map fst name). split.
  - intros (k' & [= ->] & H)%list_elem_of_fmap. exact H.
  - intros H. apply list_elem_of_fmap. eauto.
Qed.

Lemma elem_of_keys_Array items i :
  index i ∈ keys (Array items) <-> i < length items.
Proof.
  cbn. split.
  - intros (i' & [= ->] & H)%list_elem_of_fmap. apply elem_of_seq in H. lia.
  - intros H. apply list_elem_of_fmap. exists i. split; [reflexivity|].
    apply elem_of_seq. lia.
Qed.

Lemma cell_put_keys c k v c' :
  k ∈ keys c -> cell_put c k v = Some c' -> keys c' = keys c.
Proof.
  destruct c, k; unfold cell_put; try discriminate.
  - intros Hin%elem_of_keys_Plain [= <-]. cbn.
    rewrite <- !(map_map fst name), keys_set_prop.
    now rewrite bool_decide_eq_true_2.
  - intros Hin%elem_of_keys_Array.
    destruct (Nat.ltb_spec i (length items)); [|lia].
    intros [= <-]. cbn. now rewrite length_insert.
Qed.

Lemma cell_get_put_eq c k v c' : cell_put c k v = Some c' -> cell_get c' k = v.
Proof.
  destruct c, k; unfold cell_put; try discriminate.
  - intros [= <-]. cbn. now rewrite lookup_set_prop, String.eqb_refl.
  - destruct (Nat.ltb_spec i (length items)).
    + intros [= <-]. cbn. now rewrite list_lookup_insert_eq.
    + destruct (Nat.eqb_spec i (length items)) as [->|]; [|discriminate].
      intros [= <-]. cbn. rewrite lookup_app_r by lia.
      now rewrite Nat.sub_diag.
Qed.

Lemma cell_get_put_ne c k k0 v c' :
  k0 <> k -> cell_put c k v = Some c' -> cell_get c' k0 = cell_get c k0.
Proof.
  intros Hne. destruct c, k; unfold cell_put; try discriminate.
  - intros [= <-]. destruct k0 as [k0|]; cbn; [|reflexivity].
    rewrite lookup_set_prop. destruct (String.eqb_spec k k0) as [->|]; [|reflexivity].
    now elim Hne.
  - destruct (Nat.ltb_spec i (length items)).
    + intros [= <-]. destruct k0 as [|i0]; cbn; [reflexivity|].
      rewrite list_lookup_insert_ne; [reflexivity | congruence].
    + destruct (Nat.eqb_spec i (length items)) as [->|]; [|discriminate].
      intros [= <-]. destruct k0 as [|i0]; cbn; [reflexivity|].
      destruct (decide (i0 < length items)).
      * now rewrite lookup_app_l.
      * rewrite !lookup_ge_None_2; [reflexivity | lia |].
        rewrite length_app. cbn.
        assert (i0 <> length items) by congruence. lia.
Qed.

Lemma lookup_prop_NoDup {V} (props : list (string * V)) k v :
  NoDup (map fst props) -> (k, v) ∈ props -> lookup_prop k props = Some v.
Proof.
  induction props as [|[k0 v0] props IH]; cbn.
  - intros _ H. now apply elem_of_nil in H.
  - intros Hnd Hin. apply NoDup_cons in Hnd as [Hk0 Hnd].
    apply elem_of_cons in Hin as [[= <- <-]|Hin].
    + now rewrite String.eqb_refl.
    + destruct (String.eqb_spec k0 k) as [->|]; [|now apply IH].
      elim Hk0. apply list_elem_of_fmap. exists (k, v). auto.
Qed.

(** With each key once, a container holds what its keys give. *)
Lemma children_keys c v :
  NoDup (keys c) -> v ∈ children c -> exists k, k ∈ keys c /\ cell_get c k = v.
Proof.
  destruct c; cbn [children]; try (intros _ H; now apply elem_of_nil in H).
  - intros Hnd ([k v'] & -> & Hin)%list_elem_of_fmap.
    exists (name k). split.
    + apply elem_of_keys_Plain, list_elem_of_fmap. exists (k, v'). auto.
    + cbn. rewrite (lookup_prop_NoDup props k v'); [reflexivity | | assumption].
      cbn in Hnd. rewrite <- (map_map fst name) in Hnd. now apply NoDup_fmap_1 in Hnd.
  - intros _ (i & Hi)%list_elem_of_lookup. exists (index i). split.
    + apply elem_of_keys_Array. now apply lookup_lt_Some in Hi.
    + cbn. now rewrite Hi.
Qed.

Lemma children_set_prop k (v : val) props x :
  x ∈ map snd (set_prop k v props) -> x = v \/ x ∈ map snd props.
Proof.
  induction props as [|[k0 v0] props IH]; cbn.
  - intros [->|H]%elem_of_cons; auto.
  - destruct (String.eqb k0 k); cbn.
    + intros [->|H]%elem_of_cons; [auto|]. right. apply elem_of_cons. auto.
    + intros [->|H]%elem_of_cons.
      * right. apply elem_of_cons. auto.
      * destruct (IH H); [auto|]. right. apply elem_of_cons. auto.
Qed.

(** After an assignment a container holds the assigned value and nothing
    else that it did not hold before. *)
Lemma children_put c k v c' x :
  cell_put c k v = Some c' -> x ∈ children c' -> x = v \/ x ∈ children c.
Proof.
  destruct c, k; unfold cell_put; try discriminate.
  - intros [= <-]. cbn. apply children_set_prop.
  - destruct (Nat.ltb_spec i (length items)).
    + intros [= <-]. cbn. intros (j & Hj)%list_elem_of_lookup.
      destruct (decide (i = j)) as [->|Hne].
      * rewrite list_lookup_insert_eq in Hj by assumption. injection Hj as <-. auto.
      * rewrite list_lookup_insert_ne in Hj by assumption.
        right. apply list_elem_of_lookup. eauto.
    + destruct (Nat.eqb i (length items)); [|discriminate].
      intros [= <-]. cbn. intros [Hx|Hx]%elem_of_app; [auto|].
      apply elem_of_cons in Hx as [->|Hx]; [auto | now apply elem_of_nil in Hx].
Qed.

Lemma wp_each_progress {K} (I : list K -> heap -> Prop) (body : K -> H unit) ks h
    (Q : result unit -> heap -> Prop) :
  I [] h ->
  (forall done k rest h, ks = done ++ k :: rest -> I done h ->
     wp (body k) h (fun r h' => r = Ok tt -> I (done ++ [k]) h')) ->
  (forall h', I ks h' -> Q (Ok tt) h') ->
  (forall r h', r <> Ok tt -> Q r h') ->
  wp (each body ks) h Q.
Proof.
  intros HI Hbody HQ HQ'.
  assert (Hgen : forall rest done h, ks = done ++ rest -> I done h ->
                 wp (each body rest) h Q).
  { induction rest as [|k rest IH]; intros done h0 Hks Hdone; cbn [each].
    - apply wp_ret. apply HQ. rewrite Hks, app_nil_r. exact Hdone.
    - apply wp_bind. eapply wp_mono; [apply (Hbody done k rest h0 Hks Hdone)|].
      intros [[]| |] h' Hr; cbn.
      + apply (IH (done ++ [k])); [|now apply Hr].
        now rewrite <- app_assoc.
      + apply HQ'. discriminate.
      + apply HQ'. discriminate. }
  now apply (Hgen ks []).
Qed.

Lemma copies_frame (f : val -> H val) :
  (forall v h, wp (f v) h (copies h)) ->
  forall v h0 h, h0 ⊆ h -> wp (f v) h (frame h0).
Proof.
  intros Hf v h0 h Hh. eapply wp_mono; [apply Hf|].
  intros r h' [Hh' _]. unfold frame. etransitivity; eassumption.
Qed.

(** The copy that [Object.assign] makes is a new container with each key
    once. *)
Lemma wp_assign data c h :
  wp (assign data c) h (fun r h2 =>
    h ⊆ h2 /\
    forall v, r = Ok v ->
      v = object (fresh (dom h)) /\
      exists c2, h2 !! fresh (dom h) = Some c2 /\
                 container_cell c2 = true /\ NoDup (keys c2)).
Proof.
  unfold assign. apply wp_bind, wp_alloc.
  set (l' := fresh (dom h)).
  set (c0 := match c with Array _ => Array [] | _ => Plain [] end).
  set (h1 := <[l' := c0]> h).
  assert (Hl' : h !! l' = None) by apply alloc_fresh.
  apply wp_bind.
  apply (wp_each_inv (fun h' =>
           h ⊆ h' /\ exists c2, h' !! l' = Some c2 /\
                                container_cell c2 = true /\ NoDup (keys c2))).
  - split; [apply alloc_subseteq|]. exists c0. unfold h1. rewrite lookup_insert_eq.
    subst c0. destruct c; repeat split; apply NoDup_nil_2.
  - intros k h2 HP. apply wp_bind, wp_get. intros [v| |] _; try exact HP.
    destruct HP as [H2 (c2 & Hc2 & Hcont & Hnd)].
    apply wp_put; [|split; eauto]. intros c3 c3' Hc3 Hput.
    rewrite Hc2 in Hc3. injection Hc3 as <-. split.
    + now apply insert_subseteq_r.
    + exists c3'. rewrite lookup_insert_eq. repeat split.
      * eapply cell_put_container; eassumption.
      * eapply keys_NoDup_put; eassumption.
  - intros [[]| |] h2 [H2 Hex].
    + apply wp_ret. split; [exact H2|]. intros v [= <-]. split; [reflexivity | exact Hex].
    + split; [exact H2 | intros; discriminate].
    + split; [exact H2 | intros; discriminate].
Qed.

(** The copying traversal returns a fresh container: every key of the
    copy has been given what the mapped function returned for it. *)
Lemma fresh_container_copy (f : val -> H val) data c h :
  (forall v h, wp (f v) h (copies h)) ->
  wp (container f data c) h (fun r h' => forall a, r = Ok a -> fresh_for (dom h) h' a).
Proof.
  intros Hf. unfold container. apply wp_bind. eapply wp_mono; [apply wp_assign|].
  intros [copy| |] h2 [H2 Hcopy]; try (intros; discriminate).
  destruct (Hcopy copy eq_refl) as (-> & c2 & Hc2 & Hcont2 & Hnd2).
  set (l' := fresh (dom h)) in *.
  assert (Hl' : l' ∉ dom h) by apply is_fresh.
  apply wp_bind, wp_keys_of. intros r Hr. rewrite (Hr l' c2 eq_refl Hc2). clear r Hr.
  apply wp_bind.
  set (D1 := dom h2).
  assert (Hl'D : l' ∈ D1) by (apply elem_of_dom; eauto).
  apply (wp_each_progress (fun done h' =>
           D1 ⊆ dom h' /\
           exists c', h' !! l' = Some c' /\ container_cell c' = true /\
                      keys c' = keys c2 /\
                      forall k, k ∈ done -> fresh_for D1 h' (cell_get c' k))).
  - split; [reflexivity|]. exists c2. repeat split; auto.
    intros k Hk. now apply elem_of_nil in Hk.
  - intros done k rest h3 Hks (HD & c3 & Hc3 & Hcont3 & Hkeys3 & Hdone).
    apply wp_bind, wp_get. intros r Hr. rewrite (Hr l' c3 eq_refl Hc3). clear r Hr.
    apply wp_bind. eapply wp_mono; [apply (Hf (cell_get c3 k) h3)|].
    intros [v'| |] h4 [H4 Hfresh]; try discriminate.
    specialize (Hfresh v' eq_refl).
    assert (Hc4 : h4 !! l' = Some c3) by (eapply lookup_weaken; eassumption).
    apply wp_put; [|discriminate]. intros c4 c4' Hc4' Hput _.
    rewrite Hc4 in Hc4'. injection Hc4' as <-.
    assert (Hkin : k ∈ keys c3).
    { rewrite Hkeys3, Hks. apply elem_of_app. right. apply elem_of_cons. now left. }
    assert (HD4 : D1 ⊆ dom h4).
    { etransitivity; [exact HD | now apply subseteq_dom]. }
    split.
    { rewrite dom_insert_L. etransitivity; [exact HD4 | apply union_subseteq_r]. }
    exists c4'. rewrite lookup_insert_eq. split; [reflexivity|].
    split; [eapply cell_put_container; eassumption|].
    split; [rewrite <- Hkeys3; eapply cell_put_keys; eassumption|].
    intros k0 [Hk0|Hk0]%elem_of_app.
    + assert (Hne : k0 <> k).
      { intros ->. rewrite Hks in Hnd2. apply NoDup_app in Hnd2 as (_ & Hnot & _).
        apply (Hnot k Hk0). apply elem_of_cons. now left. }
      rewrite (cell_get_put_ne _ _ _ _ _ Hne Hput).
      apply (fresh_insert D1 h4 _ l' c3); auto.
      apply (fresh_subseteq D1 h3); auto.
    + apply elem_of_cons in Hk0 as [->|Hk0]; [|now apply elem_of_nil in Hk0].
      rewrite (cell_get_put_eq _ _ _ _ Hput).
      apply (fresh_insert D1 h4 _ l' c3); auto.
      apply (fresh_weaken (dom h3)); auto.
  - intros h' (HD & c' & Hc' & Hcont' & Hkeys' & Hall). apply wp_ret.
    intros a [= <-]. apply (fresh_for_container _ _ l' c'); auto.
    intros v Hv. destruct (children_keys c' v) as (k & Hk & <-);
      [rewrite Hkeys'; exact Hnd2 | exact Hv |].
    apply (fresh_weaken D1); [apply Hall; rewrite <- Hkeys'; exact Hk|].
    now apply subseteq_dom.
  - intros [[]| |] h' Hr; [now elim Hr | intros; discriminate..].
Qed.

Lemma copies_container (f : val -> H val) data c h :
  (forall v h, wp (f v) h (copies h)) -> wp (container f data c) h (copies h).
Proof.
  intros Hf. apply wp_and.
  - apply frame_container; [now apply copies_frame | reflexivity].
  - now apply fresh_container_copy.
Qed.

(** A new object that is not a container, or that holds primitives only,
    is fresh. *)
Lemma copies_alloc_leaf c h :
  container_cell c = false -> wp (alloc c) h (copies h).
Proof.
  intros Hc. apply wp_alloc. split; [apply alloc_subseteq|].
  intros v [= <-]. apply (fresh_for_leaf _ _ _ c); [apply lookup_insert_eq | exact Hc].
Qed.

Lemma copies_ret v h : (forall l, v <> object l) -> copies h (Ok v) h.
Proof.
  intros Hv. split; [reflexivity|]. intros v' [= <-]. now apply fresh_prim.
Qed.

Lemma copies_fail {h h' : heap} (r : result val) :
  h ⊆ h' -> (forall v, r <> Ok v) -> copies h r h'.
Proof. intros Hh Hr. split; [exact Hh|]. intros v E. now elim (Hr v). Qed.

Lemma copies_weaken (h h1 h2 : heap) (r : result val) :
  h ⊆ h1 -> copies h1 r h2 -> copies h r h2.
Proof.
  intros Hh [H12 Hf]. split; [etransitivity; eassumption|].
  intros v Hv. apply (fresh_weaken (dom h1)); [now apply Hf | now apply subseteq_dom].
Qed.

Lemma copies_alloc_leaf_from (h h1 : heap) c :
  h ⊆ h1 -> container_cell c = false -> wp (alloc c) h1 (copies h).
Proof.
  intros Hh Hc. eapply wp_mono; [apply (copies_alloc_leaf c h1 Hc)|].
  intros r h2. now apply copies_weaken.
Qed.

(** The object of a new [Ref]: two new containers that hold strings, and
    one the other. *)
Lemma copies_newRef (h h1 : heap) ref : h ⊆ h1 -> wp (newRef ref) h1 (copies h).
Proof.
  intros Hh. unfold newRef. apply wp_bind, wp_alloc.
  set (lc := fresh (dom h1)). set (h2 := <[lc := _]> h1).
  apply wp_alloc. set (lr := fresh (dom h2)).
  assert (H12 : h1 ⊆ h2) by apply alloc_subseteq.
  assert (Hlc : lc ∉ dom h1) by apply is_fresh.
  assert (Hlr : lr ∉ dom h2) by apply is_fresh.
  assert (Hne : lr <> lc).
  { intros E. apply Hlr. rewrite E. apply elem_of_dom. unfold h2.
    rewrite lookup_insert_eq. eauto. }
  split.
  { etransitivity; [exact Hh|]. etransitivity; [exact H12 | apply alloc_subseteq]. }
  intros v [= <-].
  assert (Hdom : dom h ⊆ dom h1) by now apply subseteq_dom.
  assert (Hdom2 : dom h1 ⊆ dom h2) by now apply subseteq_dom.
  eapply fresh_for_container; [apply lookup_insert_eq | reflexivity | set_solver |].
  cbn. intros v Hv.
  apply elem_of_cons in Hv as [->|Hv]; [now apply fresh_prim|].
  apply elem_of_cons in Hv as [->|Hv].
  - eapply fresh_for_container.
    + rewrite lookup_insert_ne by assumption. apply lookup_insert_eq.
    + reflexivity.
    + set_solver.
    + cbn. intros v [->|Hv]%elem_of_cons; [now apply fresh_prim|].
      now apply elem_of_nil in Hv.
  - apply elem_of_cons in Hv as [->|Hv]; [now apply fresh_prim|].
    now apply elem_of_nil in Hv.
Qed.

Lemma copies_unwrapData depth : forall data h, wp (unwrapData depth data) h (copies h).
Proof.
  induction depth as [|depth IH]; intros data h; cbn [unwrapData].
  - now apply copies_fail.
  - destruct data; try (now apply copies_ret).
    apply wp_bind, wp_cell_of; [|intros _; now apply copies_fail]. intros c _.
    assert (Hframe := copies_frame _ IH).
    assert (Hc : wp (
      type ← get (object l) (name "type");
      if is_text type "ref" then
        ref ← asRef (object l); alloc (DocumentReference (getRefPath ref))
      else if is_text type "value" then
        kind ← get (object l) (name "kind");
        if is_text kind "remove" then alloc FieldValue_delete
        else if is_text kind "increment" then
          n ← get (object l) (name "number"); alloc (FieldValue_increment n)
        else if is_text kind "arrayUnion" then
          values ← get (object l) (name "values");
          values' ← unwrapData depth values;
          elements ← spread values';
          alloc (FieldValue_arrayUnion elements)
        else if is_text kind "arrayRemove" then
          values ← get (object l) (name "values");
          values' ← unwrapData depth values;
          elements ← spread values';
          alloc (FieldValue_arrayRemove elements)
        else if is_text kind "serverDate" then alloc FieldValue_serverTimestamp
        else container (unwrapData depth) (object l) c
      else container (unwrapData depth) (object l) c) h (copies h)).
    { apply wp_bind, wp_get. intros [type| |] _; try (now apply copies_fail).
      destruct (is_text type "ref").
      { apply wp_bind. eapply wp_mono; [apply (frame_asRef h _ h); reflexivity|].
        intros [ref| |] h1 H1; try (now apply copies_fail).
        now apply copies_alloc_leaf_from. }
      destruct (is_text type "value"); [|now apply copies_container].
      apply wp_bind, wp_get. intros [kind| |] _; try (now apply copies_fail).
      destruct (is_text kind "remove"); [now apply copies_alloc_leaf|].
      destruct (is_text kind "increment").
      { apply wp_bind, wp_get. intros [n| |] _; try (now apply copies_fail).
        now apply copies_alloc_leaf. }
      destruct (is_text kind "arrayUnion").
      { apply wp_bind, wp_get. intros [values| |] _; try (now apply copies_fail).
        apply wp_bind. eapply wp_mono; [apply (Hframe values h h); reflexivity|].
        intros [values'| |] h1 H1; try (now apply copies_fail).
        apply wp_bind. eapply wp_mono; [apply (frame_spread h _ h1 H1)|].
        intros [elements| |] h2 H2; try (now apply copies_fail).
        now apply copies_alloc_leaf_from. }
      destruct (is_text kind "arrayRemove").
      { apply wp_bind, wp_get. intros [values| |] _; try (now apply copies_fail).
        apply wp_bind. eapply wp_mono; [apply (Hframe values h h); reflexivity|].
        intros [values'| |] h1 H1; try (now apply copies_fail).
        apply wp_bind. eapply wp_mono; [apply (frame_spread h _ h1 H1)|].
        intros [elements| |] h2 H2; try (now apply copies_fail).
        now apply copies_alloc_leaf_from. }
      destruct (is_text kind "serverDate"); [now apply copies_alloc_leaf|].
      now apply copies_container. }
    destruct c; first [exact Hc | now apply copies_alloc_leaf | now apply copies_fail].
Qed.

Lemma copies_wrapData depth : forall data h, wp (wrapData depth data) h (copies h).
Proof.
  induction depth as [|depth IH]; intros data h; cbn [wrapData].
  - now apply copies_fail.
  - destruct data; try (now apply copies_ret).
    apply wp_bind, wp_cell_of; [|intros _; now apply copies_fail]. intros c _.
    destruct c; try (now apply copies_fail); try (now apply copies_alloc_leaf);
      try (now apply copies_container).
    apply wp_bind, wp_lift. destruct (pathToRef path0) as [ref| |];
      try (now apply copies_fail).
    now apply copies_newRef.
Qed.

Lemma copies_nullifyData depth : forall data h, wp (nullifyData depth data) h (copies h).
Proof.
  induction depth as [|depth IH]; intros data h; cbn [nullifyData].
  - now apply copies_fail.
  - destruct data; try (now apply copies_ret).
    apply wp_bind, wp_cell_of; [|intros _; now apply copies_fail]. intros c Hl.
    assert (Hc : forall c0, container_cell c0 = true -> children c0 = [] -> wp (
      newData ← alloc c0;
      _ ← each (fun k =>
             v ← get (object l) k;
             v' ← (match v with
                   | undefined => mret null
                   | _ => nullifyData depth v
                   end);
             put newData k v') (keys c);
      mret newData) h (copies h)).
    { intros c0 Hcont0 Hnil0. apply wp_bind, wp_alloc.
      set (l' := fresh (dom h)). set (h1 := <[l' := c0]> h).
      assert (Hl' : l' ∉ dom h) by apply is_fresh.
      assert (Hl'N : h !! l' = None) by now apply not_elem_of_dom.
      assert (H1 : h ⊆ h1) by apply alloc_subseteq.
      set (D1 := dom h1).
      assert (Hl'D : l' ∈ D1).
      { apply elem_of_dom. unfold h1. rewrite lookup_insert_eq. eauto. }
      apply wp_bind.
      apply (wp_each_inv (fun h' =>
               h ⊆ h' /\ D1 ⊆ dom h' /\
               exists c', h' !! l' = Some c' /\ container_cell c' = true /\
                          forall x, x ∈ children c' -> fresh_for D1 h' x)).
      - split; [exact H1|]. split; [reflexivity|]. exists c0.
        unfold h1. rewrite lookup_insert_eq. repeat split; [assumption|].
        intros x Hx. rewrite Hnil0 in Hx. now apply elem_of_nil in Hx.
      - intros k h2 HP. apply wp_bind, wp_get. intros [v| |] _; try exact HP.
        destruct HP as (H2 & HD & c2 & Hc2 & Hcont2 & Hch2).
        apply wp_bind.
        assert (Hv : wp (match v with
                         | undefined => mret null
                         | _ => nullifyData depth v
                         end) h2 (copies h2)).
        { destruct v; first [now apply copies_ret | apply IH]. }
        eapply wp_mono; [exact Hv|].
        assert (Hkeep : forall h3 : heap, h2 ⊆ h3 ->
          h ⊆ h3 /\ D1 ⊆ dom h3 /\
          exists c', h3 !! l' = Some c' /\ container_cell c' = true /\
                     forall x, x ∈ children c' -> fresh_for D1 h3 x).
        { intros h3 H3. split; [etransitivity; eassumption|].
          split; [etransitivity; [exact HD | now apply subseteq_dom]|].
          exists c2. split; [eapply lookup_weaken; eassumption|].
          split; [assumption|]. intros x Hx.
          apply (fresh_subseteq D1 h2); auto. }
        intros [v'| |] h3 [H3 Hfresh]; try (now apply Hkeep).
        specialize (Hfresh v' eq_refl).
        destruct (Hkeep h3 H3) as (Hh3 & HD3 & c3 & Hc3 & Hcont3 & Hch3).
        apply wp_put; [|now apply Hkeep]. intros c4 c4' Hc4 Hput.
        rewrite Hc3 in Hc4. injection Hc4 as <-.
        split; [now apply insert_subseteq_r|].
        split.
        { rewrite dom_insert_L. etransitivity; [exact HD3 | apply union_subseteq_r]. }
        exists c4'. rewrite lookup_insert_eq. split; [reflexivity|].
        split; [eapply cell_put_container; eassumption|].
        intros x Hx. apply (fresh_insert D1 h3 _ l' c3); auto.
        destruct (children_put _ _ _ _ _ Hput Hx) as [->|Hold]; [|now apply Hch3].
        apply (fresh_weaken (dom h2)); auto.
      - intros [[]| |] h2 (H2 & HD & c2 & Hc2 & Hcont2 & Hch2);
          try (now apply copies_fail).
        apply wp_ret. split; [exact H2|]. intros v [= <-].
        apply (fresh_for_container _ _ l' c2); auto.
        intros x Hx. apply (fresh_weaken D1); [now apply Hch2|].
        now apply subseteq_dom. }
    destruct c; try (now apply copies_fail).
    + now apply Hc.
    + now apply Hc.
    + split; [reflexivity|]. intros v [= <-].
      now apply (fresh_for_leaf _ _ l (Date time)).
Qed.

End HeapFacts.

(** C10.  Whatever the depth allowed and whatever the outcome, a call of
    [unwrapData], [wrapData] or [nullifyData] leaves every object of the
    heap it started from as it was, properties and elements included; and
    when it returns a value, every container that can be reached from it
    through containers was allocated by the call. *)
Theorem marshaller_leaves_argument
    (depth : nat) (data : Heap.val) (h : gmap Heap.loc Heap.cell) :
  forall marshal,
    marshal = Heap.unwrapData \/ marshal = Heap.wrapData \/ marshal = Heap.nullifyData ->
    forall (r : result Heap.val) (h' : gmap Heap.loc Heap.cell),
      run (marshal depth data) h = (r, h') ->
      h ⊆ h' /\ forall v, r = Ok v -> Heap.fresh_for (dom h) h' v.
Proof.
  intros marshal Hm r h' Hrun.
  assert (Hwp : Heap.wp (marshal depth data) h (Heap.copies h)).
  { destruct Hm as [->|[->| ->]].
    - apply HeapFacts.copies_unwrapData.
    - apply HeapFacts.copies_wrapData.
    - apply HeapFacts.copies_nullifyData. }
  unfold Heap.wp in Hwp. rewrite Hrun in Hwp. exact Hwp.
Qed.

Lemma marshaller_leaves_argument_witness :
  let h : gmap Heap.loc Heap.cell :=
    {[ 1%positive := Heap.Plain [("nick", Heap.undefined);
                                  ("born", Heap.object 2%positive);
                                  ("tags", Heap.object 3%positive)];
       2%positive := Heap.Date 7;
       3%positive := Heap.Array [Heap.number 1; Heap.undefined] ]} in
  let h' : gmap Heap.loc Heap.cell :=
    <[ 4%positive := Heap.Plain [("nick", Heap.null);
                                  ("born", Heap.object 5%positive);
                                  ("tags", Heap.object 6%positive)] ]>
    (<[ 5%positive := Heap.Timestamp 7 ]>
     (<[ 6%positive := Heap.Array [Heap.number 1; Heap.null] ]> h)) in
  run (Heap.unwrapData 3 (Heap.object 1%positive)) h = (Ok (Heap.object 4%positive), h') /\
  h ⊆ h' /\
  forall v, Ok (Heap.object 4%positive) = Ok v -> Heap.fresh_for (dom h) h' v.
Proof.
  intros h h'.
  assert (Hrun : run (Heap.unwrapData 3 (Heap.object 1%positive)) h
                 = (Ok (Heap.object 4%positive), h')) by (vm_compute; reflexivity).
  split; [exact Hrun|].
  apply (marshaller_leaves_argument 3 (Heap.object 1%positive) h Heap.unwrapData).
  - now left.
  - exact Hrun.
Defined.

(** The two forms of the marshaller on an example: the heap after the call
    still holds the argument, and the value returned stands for the tree
    that the function on trees returns. *)
Lemma heap_marshaller_example :
  let h : gmap Heap.loc Heap.cell :=
    {[ 1%positive := Heap.Plain [("nick", Heap.undefined);
                                  ("born", Heap.object 2%positive);
                                  ("tags", Heap.object 3%positive);
                                  ("friend", Heap.object 4%positive)];
       2%positive := Heap.Date 7;
       3%positive := Heap.Array [Heap.number 1; Heap.undefined];
       4%positive := Heap.Plain [("type", Heap.text "ref");
                                  ("collection", Heap.object 5%positive);
                                  ("id", Heap.text "42")];
       5%positive := Heap.Plain [("path", Heap.text "users")] ]} in
  let t := VObj [("nick", VUndefined); ("born", VDate 7);
                 ("tags", VArr [VNum 1; VUndefined]);
                 ("friend", ref_value (newRef "users" "42"))] in
  reify 3 h (Heap.object 1%positive) = Some t /\
  (forall v h', run (Heap.unwrapData 3 (Heap.object 1%positive)) h = (Ok v, h') ->
     reify 3 h' (Heap.object 1%positive) = Some t /\
     Ok <$> reify 3 h' v = Some (unwrapData t)) /\
  (forall v h', run (v ← Heap.unwrapData 3 (Heap.object 1%positive);
                     Heap.wrapData 3 v) h = (Ok v, h') ->
     reify 3 h' (Heap.object 1%positive) = Some t /\
     Ok <$> reify 3 h' v = Some (roundtrip t)) /\
  (forall v h', run (Heap.nullifyData 4 (Heap.object 1%positive)) h = (Ok v, h') ->
     reify 3 h' (Heap.object 1%positive) = Some t /\
     Ok <$> reify 3 h' v = Some (nullifyData t)) /\
  (run (Heap.unwrapData 3 (Heap.object 1%positive)) h).1 = Ok (Heap.object 6%positive) /\
  (run (Heap.unwrapData 2 (Heap.object 1%positive)) h).1
  = Throw (RangeError "Maximum call stack size exceeded").
Proof.
  intros h t. split; [reflexivity|].
  split; [|split; [|split]].
  - intros v h' Hrun. vm_compute in Hrun. injection Hrun as Hv Hh. subst v h'.
    split; vm_compute; reflexivity.
  - intros v h' Hrun. vm_compute in Hrun. injection Hrun as Hv Hh. subst v h'.
    split; vm_compute; reflexivity.
  - intros v h' Hrun. vm_compute in Hrun. injection Hrun as Hv Hh. subst v h'.
    split; vm_compute; reflexivity.
  - split; reflexivity.
Qed.

(** * Further properties *)

(** ** What the marshaller returns *)

Lemma at_prop_cases {A} (f : value -> A) undef k fs :
  at_prop f undef k fs = undef \/ exists v, (k, v) ∈ fs /\ at_prop f undef k fs = f v.
Proof.
  induction fs as [|[k' v] fs IH]; cbn; [now left|].
  destruct (String.eqb_spec k' k) as [->|Hne].
  - right. exists v. split; [apply elem_of_cons; now left | reflexivity].
  - destruct IH as [IH|(v' & Hin & IH)]; [now left|].
    right. exists v'. split; [apply elem_of_cons; now right | exact IH].
Qed.

Lemma mapM_forallb {A B} (f : A -> result B) (Q : B -> bool) xs ys :
  Forall (fun x => forall y, f x = Ok y -> Q y = true) xs ->
  mapM f xs = Ok ys -> forallb Q ys = true.
Proof.
  intros IH. revert ys. induction IH as [|x xs Hx _ IH]; cbn [mapM]; intros ys.
  - now intros [= <-].
  - destruct (f x) as [y| |] eqn:Ey; cbn; try discriminate.
    destruct (mapM f xs) as [ys'| |]; cbn; try discriminate.
    intros [= <-]. cbn. now rewrite (Hx y), (IH ys').
Qed.

Lemma mapM_props_forallb (f : value -> result value) (Q : value -> bool) fs gs :
  Forall (fun kv => forall y, f (snd kv) = Ok y -> Q y = true) fs ->
  mapM_props f fs = Ok gs -> forallb (fun kv => Q (snd kv)) gs = true.
Proof.
  intros IH. revert gs. induction IH as [|[k v] fs Hx _ IH]; cbn [mapM_props]; intros gs.
  - now intros [= <-].
  - destruct (f v) as [y| |] eqn:Ey; cbn; try discriminate.
    destruct (mapM_props f fs) as [gs'| |]; cbn; try discriminate.
    intros [= <-]. cbn. now rewrite (Hx y), (IH gs').
Qed.

Lemma spread_encoded values elements :
  encoded values = true -> spread values = Ok elements -> forallb encoded elements = true.
Proof.
  destruct values; cbn; try discriminate.
  - intros _ [= <-]. apply forallb_forall. intros x Hx.
    apply in_map_iff in Hx as (c & <- & _). reflexivity.
  - now intros H [= <-].
Qed.

(** The encoding of the property [values] of a sentinel. *)
Lemma values_encoded fs values :
  Forall (fun kv => forall y, unwrapData (snd kv) = Ok y -> encoded y = true) fs ->
  at_prop unwrapData (Ok VNull) "values" fs = Ok values -> encoded values = true.
Proof.
  intros IH E.
  destruct (at_prop_cases unwrapData (Ok VNull) "values" fs) as [E'|(v & Hin & E')];
    rewrite E' in E.
  - now injection E as <-.
  - rewrite List.Forall_forall in IH. apply (IH ("values", v)); [|exact E].
    now apply list_elem_of_In.
Qed.

(** X1.  Whatever [unwrapData] returns is in the format of the store: it is
    not [undefined] and not a date, and it holds no [undefined] and no date
    inside its arrays, its objects and the arguments of [arrayUnion] and
    [arrayRemove]. *)
Theorem unwrapData_encoded (x y : value) :
  unwrapData x = Ok y -> encoded y = true.
Proof.
  revert y.
  induction x as [ | | | | | |items IH|fs IH| | | | | | | ] using value_nested_ind;
    intros y; cbn [unwrapData]; try discriminate; try (now intros [= <-]).
  - destruct (mapM unwrapData items) as [ys| |] eqn:E; cbn; try discriminate.
    intros [= <-]. cbn. now apply (mapM_forallb unwrapData encoded items).
  - assert (Hcontainer : forall y,
              VObj <$> mapM_props unwrapData fs = Ok y -> encoded y = true).
    { intros y0. destruct (mapM_props unwrapData fs) as [gs| |] eqn:E; cbn; try discriminate.
      intros [= <-]. cbn. now apply (mapM_props_forallb unwrapData encoded fs). }
    destruct (is_str (prop (VObj fs) "type") "ref").
    { destruct (asRef (VObj fs)); cbn; try discriminate. now intros [= <-]. }
    destruct (is_str (prop (VObj fs) "type") "value"); [|apply Hcontainer].
    destruct (is_str (prop (VObj fs) "kind") "remove"); [now intros [= <-]|].
    destruct (is_str (prop (VObj fs) "kind") "increment"); [now intros [= <-]|].
    destruct (is_str (prop (VObj fs) "kind") "arrayUnion").
    { destruct (at_prop unwrapData (Ok VNull) "values" fs) as [values| |] eqn:Ev;
        cbn; try discriminate.
      destruct (spread values) as [elements| |] eqn:Es; cbn; try discriminate.
      intros [= <-]. cbn. eapply spread_encoded; [|exact Es].
      eapply values_encoded; eassumption. }
    destruct (is_str (prop (VObj fs) "kind") "arrayRemove").
    { destruct (at_prop unwrapData (Ok VNull) "values" fs) as [values| |] eqn:Ev;
        cbn; try discriminate.
      destruct (spread values) as [elements| |] eqn:Es; cbn; try discriminate.
      intros [= <-]. cbn. eapply spread_encoded; [|exact Es].
      eapply values_encoded; eassumption. }
    destruct (is_str (prop (VObj fs) "kind") "serverDate"); [now intros [= <-]|].
    apply Hcontainer.
Qed.

Lemma unwrapData_encoded_witness :
  let x := VObj [("born", VDate 7); ("nick", VUndefined);
                 ("tags", arrayUnion writeHelpers (VArr [VUndefined; VDate 8]))] in
  let y := VObj [("born", Timestamp 7); ("nick", VNull);
                 ("tags", FieldValue_arrayUnion [VNull; Timestamp 8])] in
  unwrapData x = Ok y /\ encoded y = true.
Proof.
  intros x y. split; [reflexivity|].
  apply (unwrapData_encoded x y). reflexivity.
Defined.

(** X2.  Whatever [wrapData] returns is in the format of the application:
    it is no timestamp, no document pointer and no transform of the store,
    and it holds none inside its arrays and objects. *)
Theorem wrapData_decoded (y x : value) :
  wrapData y = Ok x -> decoded x = true.
Proof.
  revert x.
  induction y as [ | | | | | |items IH|fs IH| | | | | | | ] using value_nested_ind;
    intros x; cbn [wrapData]; try discriminate; try (now intros [= <-]).
  - destruct (mapM wrapData items) as [ys| |] eqn:E; cbn; try discriminate.
    intros [= <-]. cbn. now apply (mapM_forallb wrapData decoded items).
  - destruct (mapM_props wrapData fs) as [gs| |] eqn:E; cbn; try discriminate.
    intros [= <-]. cbn. now apply (mapM_props_forallb wrapData decoded fs).
  - destruct (pathToRef p); cbn; try discriminate. now intros [= <-].
Qed.

Lemma wrapData_decoded_witness :
  let y := VObj [("born", Timestamp 7); ("friend", DocumentReference "users/42");
                 ("seen", VArr [Timestamp 8; VNull])] in
  let x := VObj [("born", VDate 7); ("friend", ref_value (newRef "users" "42"));
                 ("seen", VArr [VDate 8; VNull])] in
  wrapData y = Ok x /\ decoded x = true.
Proof.
  intros y x. split; [reflexivity|].
  apply (wrapData_decoded y x). reflexivity.
Defined.

(** ** [nullifyData] *)

(** What [nullifyData] puts in the place of an element or a property. *)
Lemma nullifyData_member_cases (v y : value) :
  match v with VUndefined => Ok VNull | _ => nullifyData v end = Ok y ->
  (v = VUndefined /\ y = VNull) \/ (v <> VUndefined /\ nullifyData v = Ok y).
Proof.
  destruct v; intros E; try (right; split; [discriminate | exact E]).
  left. now injection E as <-.
Qed.

Lemma nullifyData_undefined (v : value) :
  nullifyData v = Ok VUndefined -> v = VUndefined.
Proof.
  destruct v as [ | | | | | |items|fs| | | | | | | ];
    cbn; try discriminate; try reflexivity.
  - destruct (mapM _ items); discriminate.
  - destruct (mapM_props _ fs); discriminate.
Qed.

(** X3.  In what [nullifyData] returns no element of an array and no
    property of an object is [undefined], at any depth. *)
Theorem nullifyData_no_undefined_member (x y : value) :
  nullifyData x = Ok y -> no_undefined_member y = true.
Proof.
  revert y.
  induction x as [ | | | | | |items IH|fs IH| | | | | | | ] using value_nested_ind;
    intros y; cbn [nullifyData]; try discriminate; try (now intros [= <-]).
  - destruct (mapM _ items) as [ys| |] eqn:E; cbn; try discriminate.
    intros [= <-]. cbn.
    refine (mapM_forallb _ (fun m => negb (is_undefined m) && no_undefined_member m)
              items ys _ E).
    eapply Forall_impl; [exact IH|]. intros v Hv y Hy. cbn beta in Hy.
    apply nullifyData_member_cases in Hy as [[-> ->]|[Hne Hy]]; [reflexivity|].
    rewrite (Hv y Hy), andb_true_r.
    destruct y; try reflexivity. apply nullifyData_undefined in Hy. now elim Hne.
  - destruct (mapM_props _ fs) as [gs| |] eqn:E; cbn; try discriminate.
    intros [= <-]. cbn.
    refine (mapM_props_forallb _ (fun m => negb (is_undefined m) && no_undefined_member m)
              fs gs _ E).
    eapply Forall_impl; [exact IH|]. intros [k v] Hv y Hy. cbn in Hv, Hy.
    apply nullifyData_member_cases in Hy as [[-> ->]|[Hne Hy]]; [reflexivity|].
    rewrite (Hv y Hy), andb_true_r.
    destruct y; try reflexivity. apply nullifyData_undefined in Hy. now elim Hne.
Qed.

Lemma nullifyData_no_undefined_member_witness :
  let x := VObj [("nick", VUndefined); ("born", VDate 7);
                 ("tags", VArr [VUndefined; VObj [("a", VUndefined)]])] in
  let y := VObj [("nick", VNull); ("born", VDate 7);
                 ("tags", VArr [VNull; VObj [("a", VNull)]])] in
  nullifyData x = Ok y /\ no_undefined_member y = true.
Proof.
  intros x y. split; [reflexivity|].
  apply (nullifyData_no_undefined_member x y). reflexivity.
Defined.

Lemma mapM_fixed {A} (f g : A -> result A) xs ys :
  Forall (fun x => forall y, f x = Ok y -> g y = Ok y) xs ->
  mapM f xs = Ok ys -> mapM g ys = Ok ys.
Proof.
  intros IH. revert ys. induction IH as [|x xs Hx _ IH]; cbn [mapM]; intros ys.
  - now intros [= <-].
  - destruct (f x) as [y| |] eqn:Ey; cbn; try discriminate.
    destruct (mapM f xs) as [ys'| |]; cbn; try discriminate.
    intros [= <-]. cbn. now rewrite (Hx y), (IH ys').
Qed.

Lemma mapM_props_fixed (f g : value -> result value) fs gs :
  Forall (fun kv => forall y, f (snd kv) = Ok y -> g y = Ok y) fs ->
  mapM_props f fs = Ok gs -> mapM_props g gs = Ok gs.
Proof.
  intros IH. revert gs. induction IH as [|[k v] fs Hx _ IH]; cbn [mapM_props]; intros gs.
  - now intros [= <-].
  - destruct (f v) as [y| |] eqn:Ey; cbn; try discriminate.
    destruct (mapM_props f fs) as [gs'| |]; cbn; try discriminate.
    intros [= <-]. cbn. now rewrite (Hx y), (IH gs').
Qed.

(** X4.  [nullifyData] is idempotent: applied to what it returned, it
    returns the same value. *)
Theorem nullifyData_idempotent (x y : value) :
  nullifyData x = Ok y -> nullifyData y = Ok y.
Proof.
  revert y.
  induction x as [ | | | | | |items IH|fs IH| | | | | | | ] using value_nested_ind;
    intros y; cbn [nullifyData]; try discriminate; try (now intros [= <-]).
  - destruct (mapM _ items) as [ys| |] eqn:E; cbn; try discriminate.
    intros [= <-]. cbn [nullifyData].
    erewrite mapM_fixed; [reflexivity| |exact E].
    eapply Forall_impl; [exact IH|]. intros v Hv y Hy. cbn beta in Hy.
    apply nullifyData_member_cases in Hy as [[-> ->]|[Hne Hy]]; [reflexivity|].
    destruct y; try (apply (Hv _ Hy)).
    apply nullifyData_undefined in Hy. now elim Hne.
  - destruct (mapM_props _ fs) as [gs| |] eqn:E; cbn; try discriminate.
    intros [= <-]. cbn [nullifyData].
    erewrite mapM_props_fixed; [reflexivity| |exact E].
    eapply Forall_impl; [exact IH|]. intros [k v] Hv y Hy. cbn in Hv, Hy.
    apply nullifyData_member_cases in Hy as [[-> ->]|[Hne Hy]]; [reflexivity|].
    destruct y; try (apply (Hv _ Hy)).
    apply nullifyData_undefined in Hy. now elim Hne.
Qed.

Lemma nullifyData_idempotent_witness :
  let x := VObj [("nick", VUndefined); ("tags", VArr [VUndefined; VNum 1])] in
  let y := VObj [("nick", VNull); ("tags", VArr [VNull; VNum 1])] in
  nullifyData x = Ok y /\ nullifyData y = Ok y.
Proof.
  intros x y. split; [reflexivity|].
  apply (nullifyData_idempotent x y). reflexivity.
Defined.

(** ** Round trips of the marshaller *)












(** ** Write helpers *)


(** ** Paths and references *)

Lemma string_app_assoc (a b c : string) : (a +:+ b) +:+ c = a +:+ (b +:+ c).
Proof. apply chars_inj. rewrite !chars_app. now rewrite app_assoc. Qed.

Lemma string_app_length (a b : string) :
  String.length (a +:+ b) = String.length a + String.length b.
Proof. rewrite <- !chars_length, chars_app. apply length_app. Qed.

Lemma forallb_dot_app a b :
  forallb dot (chars (a +:+ b)) = forallb dot (chars a) && forallb dot (chars b).
Proof. now rewrite chars_app, forallb_app. Qed.

(** Two cuts of the same list at a slash: the longer first part contains
    the shorter one, its slash and the beginning of its second part. *)
Lemma app_slash_prefix (xs ys xs' ys' : list ascii) :
  xs ++ slash :: ys = xs' ++ slash :: ys' ->
  length xs < length xs' ->
  exists mid, xs' = xs ++ slash :: mid /\ ys = mid ++ slash :: ys'.
Proof.
  revert xs'. induction xs as [|x xs IH]; intros xs' E Hlen.
  - destruct xs' as [|x' xs']; [simpl in Hlen; lia|].
    simpl in E. injection E as <- E. exists xs'. split; [reflexivity | exact E].
  - destruct xs' as [|x' xs']; [simpl in Hlen; lia|].
    simpl in E. injection E as <- E. simpl in Hlen.
    destruct (IH xs' E) as (mid & -> & ->); [lia|].
    exists mid. split; reflexivity.
Qed.

(** X8.  A path that [pathToRef] reads is the path of the reference it
    returns: [getRefPath] gives the string back, and both parts of the
    reference are non-empty. *)
Theorem getRefPath_pathToRef (p : string) (r : Ref.t) :
  pathToRef p = Ok r ->
  getRefPath r = p /\ path (Ref.collection r) <> "" /\ Ref.id r <> "".
Proof.
  unfold pathToRef. destruct (match_path p) as [[c i]|] eqn:Hm; [|discriminate].
  intros [= <-]. apply match_path_Some in Hm as [(E & Hc & Hi & _) _].
  rewrite getRefPath_newRef. cbn. auto.
Qed.

Lemma getRefPath_pathToRef_witness :
  getRefPath (newRef "orgs/7/users" "42") = "orgs/7/users/42" /\
  path (Ref.collection (newRef "orgs/7/users" "42")) <> "" /\
  Ref.id (newRef "orgs/7/users" "42") <> "".
Proof. apply (getRefPath_pathToRef "orgs/7/users/42"). reflexivity. Defined.

(** X9.  The path of a reference is read back to the reference by
    [pathToRef] exactly when its collection path and its identifier are
    non-empty, neither holds a line terminator, and no slash of the
    identifier has anything after it. *)
Theorem pathToRef_getRefPath_iff (c i : string) :
  pathToRef (getRefPath (newRef c i)) = Ok (newRef c i) <->
  c <> "" /\ i <> "" /\
  forallb dot (chars c) = true /\ forallb dot (chars i) = true /\
  forall i1 i2, i = i1 +:+ "/" +:+ i2 -> i2 = "".
Proof.
  rewrite getRefPath_newRef. unfold pathToRef. split.
  - destruct (match_path (c +:+ "/" +:+ i)) as [[c0 i0]|] eqn:Hm; [|discriminate].
    intros [= -> ->]. apply match_path_Some in Hm as [(_ & Hc & Hi & Hdot) Hmax].
    rewrite forallb_dot_app, forallb_dot_app in Hdot.
    apply andb_prop in Hdot as [Hdc [_ Hdi]%andb_prop].
    repeat split; try assumption.
    intros i1 i2 ->. destruct (String.eqb_spec i2 "") as [|Hi2]; [assumption|exfalso].
    assert (Hp : parses (c +:+ "/" +:+ i1 +:+ "/" +:+ i2) (c +:+ "/" +:+ i1) i2).
    { rewrite forallb_dot_app, forallb_dot_app in Hdi.
      apply andb_prop in Hdi as [Hd1 [_ Hd2]%andb_prop].
      repeat split.
      - now rewrite !string_app_assoc.
      - intros E. apply (f_equal String.length) in E.
        rewrite !string_app_length in E. cbn in E. lia.
      - exact Hi2.
      - rewrite !forallb_dot_app, Hdc, Hd1, Hd2. reflexivity. }
    apply Hmax in Hp. rewrite !string_app_length in Hp. cbn in Hp. lia.
  - intros (Hc & Hi & Hdc & Hdi & Hlast).
    assert (Hm : match_path (c +:+ "/" +:+ i) = Some (c, i)); [|now rewrite Hm].
    apply match_path_Some. split.
    + repeat split; try assumption.
      rewrite !forallb_dot_app, Hdc, Hdi. reflexivity.
    + intros c' i' (E & _ & Hi' & _).
      destruct (Nat.le_gt_cases (String.length c') (String.length c)) as [|Hlt];
        [assumption|exfalso].
      apply (f_equal chars) in E. rewrite !chars_app in E.
      change (chars "/") with [slash] in E. cbn [app] in E.
      rewrite <- !chars_length in Hlt.
      destruct (app_slash_prefix _ _ _ _ E Hlt) as (mid & _ & Emid).
      apply Hi', (Hlast (str mid) i').
      apply chars_inj. rewrite !chars_app, chars_str. exact Emid.
Qed.

Lemma pathToRef_getRefPath_iff_witness :
  pathToRef (getRefPath (newRef "users" "42")) = Ok (newRef "users" "42") /\
  pathToRef (getRefPath (newRef "users" "a/b")) <> Ok (newRef "users" "a/b").
Proof.
  split.
  - apply (pathToRef_getRefPath_iff "users" "42").
    repeat split; try discriminate.
    intros i1 i2 E. exfalso. apply (f_equal separators) in E.
    rewrite separators_join in E. change (separators "42") with 0 in E. lia.
  - intros H. apply (pathToRef_getRefPath_iff "users" "a/b") in H
      as (_ & _ & _ & _ & H). specialize (H "a" "b" eq_refl). discriminate.
Defined.

(** ** Writes *)

Lemma run_lift_bind {S A B} (r : result A) (k : A -> State S B) (s : S) :
  run (lift r ≫= k) s
  = match r with
    | Ok a => run (k a) s
    | Throw e => (Throw e, s)
    | Unmodelled => (Unmodelled, s)
    end.
Proof. rewrite run_bind, run_lift. reflexivity. Qed.

Lemma after_call_record fs c : after_call fs (record c fs) c.
Proof. repeat split. Qed.

Lemma set_one_call this i data merge fs :
  one_call_or_none fs
    (run (payload ← lift (unwrapData_any data); firestore_set (firebaseDoc this i) payload merge)
         fs)
    (fun _ c => exists payload, c = doc_set (path this +:+ "/" +:+ i) payload merge).
Proof.
  unfold one_call_or_none. rewrite run_lift_bind.
  destruct (unwrapData_any data) as [payload| |]; cbn; try reflexivity.
  eexists. split; [apply after_call_record|]. eauto.
Qed.

Lemma update_one_call this i data fs :
  one_call_or_none fs (run (update this i data) fs)
    (fun _ c => exists payload, c = doc_update (path this +:+ "/" +:+ i) payload).
Proof.
  unfold one_call_or_none, update. rewrite run_lift_bind.
  destruct data as [v|f]; [|reflexivity]. rewrite run_lift_bind.
  destruct (match v with VArr fields => reduce update_field (VObj []) fields | _ => Ok v end)
    as [u| |]; try reflexivity.
  rewrite run_lift_bind.
  destruct (unwrapData u) as [payload| |]; cbn; try reflexivity.
  eexists. split; [apply after_call_record|]. eauto.
Qed.

(** X11.  A write calls the store once or not at all.  When [add], [set],
    [upset] or [update] returns, it has made exactly one call: [add] on the
    collection path, the others on the document path [path/id], [set]
    without and [upset] with the merge option, and [add] returns the
    reference of the identifier that the store chose.  When it throws, the
    store has not been called.  [update] with a function always throws,
    before the function or the store is called: the class has no
    [updateHelpers] method to call the function with. *)
Theorem write_calls_store_once
    (this : RichCollection) (i : string) (data : any) (fs : Firestore) :
  one_call_or_none fs (run (add this data) fs)
    (fun r c => Ref.collection r = this /\
                exists payload, c = collection_add (path this) payload /\
                  Ref.id r = autoId fs (length (log fs))) /\
  one_call_or_none fs (run (set this i data) fs)
    (fun _ c => exists payload, c = doc_set (path this +:+ "/" +:+ i) payload false) /\
  one_call_or_none fs (run (upset this i data) fs)
    (fun _ c => exists payload, c = doc_set (path this +:+ "/" +:+ i) payload true) /\
  one_call_or_none fs (run (update this i data) fs)
    (fun _ c => exists payload, c = doc_update (path this +:+ "/" +:+ i) payload) /\
  forall getData : WriteHelpers -> value,
    run (update this i (Fun getData)) fs
    = (Throw (TypeError "this.updateHelpers is not a function"), fs).
Proof.
  split; [|split; [|split; [|split]]].
  - unfold one_call_or_none, add. rewrite run_lift_bind.
    destruct (unwrapData_any _) as [payload| |]; cbn; try reflexivity.
    eexists. split; [apply after_call_record|]. cbn. eauto.
  - apply set_one_call.
  - apply (set_one_call this i (match data with Fun f => Val (f writeHelpers) | Val _ => data end)).
  - apply update_one_call.
  - reflexivity.
Qed.

Lemma NoDup_set_prop {V} (k : string) (v : V) fs :
  NoDup (map fst fs) -> NoDup (map fst (set_prop k v fs)).
Proof.
  intros Hnd. rewrite HeapFacts.keys_set_prop.
  destruct (bool_decide (k ∈ map fst fs)) eqn:Hin; [assumption|].
  apply bool_decide_eq_false_1 in Hin.
  apply NoDup_app. split; [assumption|]. split.
  - intros x Hx [->|[]%elem_of_nil]%elem_of_cons. contradiction.
  - apply NoDup_singleton.
Qed.

Lemma reduce_update_field_NoDup fields : forall acc acc',
  NoDup (map fst acc) ->
  reduce update_field (VObj acc) fields = Ok (VObj acc') ->
  NoDup (map fst acc').
Proof.
  induction fields as [|f fields IH]; intros acc acc' Hnd; cbn [reduce].
  - now intros [= <-].
  - destruct (update_field (VObj acc) f) as [acc1| |] eqn:E1; cbn; try discriminate.
    unfold update_field in E1. destruct (negb (truthy f)).
    + injection E1 as <-. destruct fields as [|f' fields]; cbn; [discriminate|].
      unfold update_field. destruct (negb (truthy f')); cbn.
      * clear IH. revert f'. induction fields as [|f2 fields IH2]; intros f'; cbn;
          [discriminate|].
        unfold update_field. destruct (negb (truthy f2)); cbn; [apply IH2; exact f2|].
        destruct (property_key (prop f2 "key")); discriminate.
      * destruct (property_key (prop f' "key")); discriminate.
    + destruct (property_key (prop f "key")) as [k| |]; cbn in E1; try discriminate.
      injection E1 as <-. apply IH. now apply NoDup_set_prop.
Qed.

(** X12.  An edit list without falsy entries is applied as the field map
    it spells: [update] does with it what it does with the object that has
    one property for each key that is assigned to (an array key joined by
    dots), holding the value of the last entry that assigns to it. *)
Theorem update_edit_list
    (this : RichCollection) (i : string) (fields : list value) (fs : Firestore) :
  Forall (fun f => truthy f = true /\
                   exists k, property_key (prop f "key") = Ok k /\ k <> "__proto__")
         fields ->
  exists acc,
    NoDup (map fst acc) /\
    (forall k, lookup_prop k acc =
       fold_left (fun found f => if assigns k f then Some (prop f "value") else found)
                 fields None) /\
    run (update this i (Val (VArr fields))) fs = run (update this i (Val (VObj acc))) fs.
Proof.
  intros Hall.
  destruct (reduce_update_field fields []) as (acc & E & Hlook).
  { eapply Forall_impl; [exact Hall|]. intros f (Ht & k & Hk & _). eauto. }
  exists acc. split; [|split].
  - eapply reduce_update_field_NoDup; [|exact E]. constructor.
  - exact Hlook.
  - unfold update. rewrite !run_lift_bind. rewrite E. reflexivity.
Qed.

Lemma update_edit_list_witness :
  let this := {| path := "users" |} in
  let fs := {| docs := ∅; autoId := fun _ => "generated"; log := [] |} in
  let fields := [edit (VStr "a") (VNum 1); edit (VArr [VStr "b"; VStr "c"]) (VNum 2);
                 edit (VStr "a") (VNum 3)] in
  exists acc,
    NoDup (map fst acc) /\
    (forall k, lookup_prop k acc =
       fold_left (fun found f => if assigns k f then Some (prop f "value") else found)
                 fields None) /\
    run (update this "u1" (Val (VArr fields))) fs
    = run (update this "u1" (Val (VObj acc))) fs.
Proof.
  intros this fs fields. apply (update_edit_list this "u1" fields fs).
  repeat constructor; eexists; (split; [reflexivity | discriminate]).
Defined.

Lemma firebaseDoc_getRefPath (r : Ref.t) :
  firebaseDoc (Ref.collection r) (Ref.id r) = getRefPath r.
Proof. reflexivity. Qed.



(** ** Reads *)

Lemma mapM_all_found this fs ids :
  decodable fs ->
  Forall (fun i => is_found this fs i = true) ids ->
  exists ds,
    map (fun d => Ref.id (Doc.ref d)) ds = ids /\
    Forall (found_as this fs) ds /\
    forall onMissing,
      mapM (getMany_snap this onMissing) (map (snapshot_of this fs) ids) = Ok (map Some ds).
Proof.
  intros Hdec. induction 1 as [|i ids Hi _ (ds & Hids & Hall & E)]; cbn [map mapM].
  - exists []. repeat split. constructor.
  - unfold is_found in Hi. apply bool_decide_eq_true_1 in Hi as [raw Ei].
    destruct (Hdec _ _ Ei) as [v Hv].
    exists (doc this i v :: ds). cbn. split; [now f_equal|]. split.
    + constructor; [|assumption]. split; [reflexivity|]. cbn. eauto.
    + intros onMissing. rewrite (getMany_snap_found _ _ _ _ _ Ei), Hv, E. reflexivity.
Qed.

Lemma filter_non_null_Some {A} (xs : list A) : filter_non_null (map Some xs) = xs.
Proof. induction xs as [|x xs IH]; cbn; [reflexivity | now rewrite IH]. Qed.

(** X13.  When every identifier has a document, [getMany] returns the same
    list under every policy for missing documents, a callback that throws
    included: one document for each identifier, in the order of the
    identifiers, as the store has it.  (Identifiers without a slash; a
    store whose documents decode.) *)
Theorem getMany_all_found (this : RichCollection) (ids : list string) (fs : Firestore) :
  Forall (fun i => separators i = 0) ids ->
  decodable fs ->
  Forall (fun i => is_found this fs i = true) ids ->
  exists ds,
    map (fun d => Ref.id (Doc.ref d)) ds = ids /\
    Forall (found_as this fs) ds /\
    forall onMissing, (run (getMany this ids onMissing) fs).1 = Ok ds.
Proof.
  intros Hplain Hdec Hfound.
  destruct (mapM_all_found this fs ids Hdec Hfound) as (ds & Hids & Hall & E).
  exists ds. split; [exact Hids|]. split; [exact Hall|]. intros onMissing.
  destruct ids as [|i ids]; [destruct ds; [reflexivity | discriminate]|].
  rewrite getMany_run by (assumption || discriminate). cbn [fst].
  rewrite E. cbn. now rewrite filter_non_null_Some.
Qed.

Lemma getMany_all_found_witness :
  let this := {| path := "users" |} in
  let fs := {| docs := {[ "users/a" := VObj [("name", VStr "X")] ]};
               autoId := fun _ => "generated"; log := [] |} in
  exists ds,
    map (fun d => Ref.id (Doc.ref d)) ds = ["a"; "a"] /\
    Forall (found_as this fs) ds /\
    forall onMissing, (run (getMany this ["a"; "a"] onMissing) fs).1 = Ok ds.
Proof.
  intros this fs. apply (getMany_all_found this ["a"; "a"] fs).
  - repeat constructor.
  - intros p d Hd. cbn in Hd. apply lookup_singleton_Some in Hd as [_ <-].
    eexists. reflexivity.
  - repeat constructor.
Defined.

Lemma get_run this i fs :
  run (get this i) fs
  = (match docs fs !! firebaseDoc this i with
     | Some raw =>
         if truthy raw then (fun d => Some (doc this i d)) <$> wrapData raw else Ok None
     | None => Ok None
     end, fs).
Proof.
  unfold get. rewrite run_bind. cbn [firestore_get run].
  unfold snapshot_data. cbn [Snapshot.data].
  destruct (docs fs !! firebaseDoc this i) as [raw|]; cbn [default from_option id];
    [|reflexivity].
  destruct (truthy raw); [|reflexivity].
  rewrite run_lift_bind. destruct (wrapData raw); reflexivity.
Qed.

(** X14.  [get(id)] is [getMany([id])] under ['ignore']: for an identifier
    without a slash and a store whose documents are objects, [getMany]
    returns the one document that [get] returns, or the empty list when
    [get] returns [null], and throws what [get] throws.  A document that
    [get] returns carries the identifier it was asked for, and [get]
    returns [null] exactly when the store has no document at [path/id]. *)
Theorem get_getMany_ignore (this : RichCollection) (i : string) (fs : Firestore) :
  separators i = 0 ->
  documents_are_objects fs ->
  (run (getMany this [i] (Some ignore)) fs).1
  = option_list <$> (run (get this i) fs).1 /\
  (forall d, (run (get this i) fs).1 = Ok (Some d) -> Doc.ref d = ref this i) /\
  ((run (get this i) fs).1 = Ok None <-> docs fs !! firebaseDoc this i = None).
Proof.
  intros Hsep Hobj.
  rewrite getMany_run by (repeat constructor; assumption || discriminate).
  rewrite get_run. cbn [fst map mapM].
  destruct (docs fs !! firebaseDoc this i) as [raw|] eqn:Ei.
  - rewrite (getMany_snap_found _ _ _ _ _ Ei). unfold and_wrapData.
    rewrite (Hobj _ _ Ei).
    destruct (wrapData raw) as [v| |]; cbn; repeat split; try discriminate.
    now intros d [= <-].
  - rewrite (getMany_snap_missing _ _ _ _ Ei). cbn. repeat split; discriminate.
Qed.

Lemma get_getMany_ignore_witness :
  let this := {| path := "users" |} in
  let fs := {| docs := {[ "users/a" := VObj [("born", Timestamp 7)] ]};
               autoId := fun _ => "generated"; log := [] |} in
  (run (getMany this ["a"] (Some ignore)) fs).1
  = option_list <$> (run (get this "a") fs).1 /\
  (forall d, (run (get this "a") fs).1 = Ok (Some d) -> Doc.ref d = ref this "a") /\
  ((run (get this "a") fs).1 = Ok None <-> docs fs !! firebaseDoc this "a" = None).
Proof.
  intros this fs. apply (get_getMany_ignore this "a" fs).
  - reflexivity.
  - intros p d Hd. cbn in Hd. apply lookup_singleton_Some in Hd as [_ <-]. reflexivity.
Defined.

(** ** Query compilation *)

Lemma values_at_push_group position p v g :
  values_at position (push_group p v g)
  = if bool_decide (p = position) then values_at position g ++ [v]
    else values_at position g.
Proof.
  induction g as [|[p0 vs0] g IH]; cbn [push_group values_at].
  - destruct (bool_decide (p = position)); reflexivity.
  - destruct (decide (p0 = p)) as [->|Hne].
    + rewrite bool_decide_eq_true_2 by reflexivity. cbn [values_at].
      destruct (bool_decide (p = position)); reflexivity.
    + rewrite (bool_decide_eq_false_2 (p0 = p)) by assumption. cbn [values_at].
      rewrite IH. destruct (decide (p0 = position)) as [->|Hne'].
      * rewrite bool_decide_eq_true_2 by reflexivity.
        rewrite bool_decide_eq_false_2 by congruence. reflexivity.
      * rewrite (bool_decide_eq_false_2 (p0 = position)) by assumption. reflexivity.
Qed.

Lemma positions_push_group p v (g : groups) :
  map fst (push_group p v g)
  = if bool_decide (p ∈ map fst g) then map fst g else map fst g ++ [p].
Proof.
  induction g as [|[p0 vs0] g IH]; cbn [push_group map fst]; [reflexivity|].
  destruct (decide (p0 = p)) as [->|Hne].
  - rewrite bool_decide_eq_true_2 by reflexivity.
    rewrite bool_decide_eq_true_2 by (apply elem_of_cons; now left). reflexivity.
  - rewrite (bool_decide_eq_false_2 (p0 = p)) by assumption. cbn [map fst]. rewrite IH.
    destruct (bool_decide (p ∈ map fst g)) eqn:Hin.
    + apply bool_decide_eq_true_1 in Hin.
      rewrite bool_decide_eq_true_2 by (apply elem_of_cons; now right). reflexivity.
    + apply bool_decide_eq_false_1 in Hin.
      rewrite bool_decide_eq_false_2; [reflexivity|].
      intros [?|?]%elem_of_cons; [congruence | contradiction].
Qed.

Lemma NoDup_push_group p v (g : groups) :
  NoDup (map fst g) -> NoDup (map fst (push_group p v g)).
Proof.
  intros Hnd. rewrite positions_push_group.
  destruct (bool_decide (p ∈ map fst g)) eqn:Hin; [assumption|].
  apply bool_decide_eq_false_1 in Hin.
  apply NoDup_app. split; [assumption|]. split.
  - intros x Hx [->|[]%elem_of_nil]%elem_of_cons. contradiction.
  - apply NoDup_singleton.
Qed.

Lemma values_at_elem_of p vs (g : groups) :
  NoDup (map fst g) -> (p, vs) ∈ g -> values_at p g = vs.
Proof.
  induction g as [|[p0 vs0] g IH]; cbn [map fst values_at]; intros Hnd Hin.
  - now apply elem_of_nil in Hin.
  - apply NoDup_cons in Hnd as [Hnotin Hnd].
    apply elem_of_cons in Hin as [[= <- <-]|Hin].
    + now rewrite bool_decide_eq_true_2.
    + rewrite bool_decide_eq_false_2; [now apply IH|].
      intros ->. apply Hnotin. apply list_elem_of_fmap. now exists (p, vs).
Qed.

Lemma nonempty_push_group p v (g : groups) :
  Forall (fun pv => snd pv <> []) g -> Forall (fun pv => snd pv <> []) (push_group p v g).
Proof.
  induction 1 as [|[p0 vs0] g H0 Hg IH]; cbn [push_group].
  - repeat constructor. discriminate.
  - destruct (bool_decide (p0 = p)).
    + constructor; [|assumption]. cbn. now destruct vs0.
    + constructor; assumption.
Qed.

(** Grouping: the positions stay distinct, no group is empty, and the
    values of each position grow by the encoded values of its cursors, in
    the order of the cursors. *)
Lemma forEach_group_step_values cursors : forall g0 g,
  forEach group_step cursors g0 = Ok g ->
  (NoDup (map fst g0) -> NoDup (map fst g)) /\
  (Forall (fun pv => snd pv <> []) g0 -> Forall (fun pv => snd pv <> []) g) /\
  forall p, exists vs,
    mapM unwrapData (values_of p cursors) = Ok vs /\
    values_at p g = values_at p g0 ++ vs.
Proof.
  induction cursors as [|c cursors IH]; intros g0 g; cbn [forEach].
  - intros [= <-]. split; [auto|]. split; [auto|]. intros p. exists [].
    split; [reflexivity | now rewrite app_nil_r].
  - destruct (group_step g0 c) as [g1| |] eqn:E1; cbn; try discriminate.
    unfold group_step in E1.
    destruct (unwrapData (OrderCursor.value c)) as [v| |] eqn:Ev; cbn in E1;
      try discriminate.
    injection E1 as <-. intros E. destruct (IH _ _ E) as (IH1 & IH2 & IH3).
    split; [|split].
    + intros Hnd. now apply IH1, NoDup_push_group.
    + intros Hne. now apply IH2, nonempty_push_group.
    + intros p. destruct (IH3 p) as (vs & Evs & Hat).
      rewrite values_at_push_group in Hat. unfold values_of. cbn [List.filter].
      destruct (bool_decide (OrderCursor.position c = p)); cbn [map mapM].
      * exists (v :: vs). fold (values_of p cursors). rewrite Ev, Evs. cbn.
        split; [reflexivity|]. now rewrite Hat, <- app_assoc.
      * exists vs. split; assumption.
Qed.

(** X15.  A compiled query is on the path of the collection; its calls are
    the calls of the directives, one for each directive and in the order
    of the directives, followed by the cursor calls.  No cursor call comes
    before a call of a directive. *)
Theorem query_calls_shape
    (this : RichCollection) (queries : list Query) (q : FirestoreQuery) :
  query this queries = Ok q ->
  from q = path this /\
  exists dcalls,
    mapM directive_call queries = Ok dcalls /\
    length dcalls = length queries /\
    List.filter is_cursor_call dcalls = [] /\
    calls q = dcalls ++ cursor_calls q.
Proof.
  intros Hq.
  destruct (forEach query_step queries (start this)) as [[st cursors]| |] eqn:Hst;
    [|unfold query in Hq; rewrite Hst in Hq; discriminate..].
  rewrite (query_after_directives _ _ _ _ Hst) in Hq.
  apply forEach_query_step in Hst as (dcalls & dcursors & Hcalls & _ & -> & _).
  cbn [start from calls app] in Hq.
  pose proof (directive_calls_no_cursor _ _ Hcalls) as Hnone.
  destruct (forEach group_step cursors []) as [g| |]; cbn in Hq; try discriminate.
  assert (Hshape : forall q0 ccalls,
            List.filter is_cursor_call ccalls = ccalls ->
            q0 = {| from := firebaseCollection this; calls := dcalls ++ ccalls |} ->
            from q0 = path this /\
            exists dcalls0,
              mapM directive_call queries = Ok dcalls0 /\
              length dcalls0 = length queries /\
              List.filter is_cursor_call dcalls0 = [] /\
              calls q0 = dcalls0 ++ cursor_calls q0).
  { intros q0 ccalls Hc ->. split; [reflexivity|]. exists dcalls.
    split; [exact Hcalls|]. split; [now apply mapM_Ok_length in Hcalls|].
    split; [exact Hnone|]. unfold cursor_calls. cbn.
    now rewrite List.filter_app, Hnone, Hc. }
  destruct (negb (Nat.eqb (length cursors) 0) && forallb defined cursors).
  - injection Hq as <-. rewrite apply_groups_calls.
    apply (Hshape _ (map (fun '(m, vs) => call_cursor m vs) g));
      [apply filter_cursor_calls_groups | reflexivity].
  - injection Hq as <-. apply (Hshape _ []); [reflexivity|]. now rewrite app_nil_r.
Qed.

Lemma query_calls_shape_witness :
  let this := {| path := "users" |} in
  let cursor v := {| OrderCursor.position := startAt; OrderCursor.value := v |} in
  let queries := [order (Name "age") "desc" (Some [cursor (VNum 18)]);
                  where_ (Name "active") "==" (VBool true); limit (VNum 10)] in
  let q := {| from := "users";
              calls := [call_orderBy (FieldPath_string "age") "desc";
                        call_where (FieldPath_string "active") "==" (VBool true);
                        call_limit (VNum 10); call_cursor startAt [VNum 18]] |} in
  from q = path this /\
  exists dcalls,
    mapM directive_call queries = Ok dcalls /\
    length dcalls = length queries /\
    List.filter is_cursor_call dcalls = [] /\
    calls q = dcalls ++ cursor_calls q.
Proof.
  intros this cursor queries q. apply (query_calls_shape this queries q). reflexivity.
Defined.

(** X16.  The cursor calls of a compiled query are one call for each
    position that occurs among the collected cursors, never two for the
    same position; the arguments of the call of a position are the encoded
    values of all the cursors of that position, in the order in which the
    directives gave them, and there is at least one. *)
Theorem cursor_calls_by_position
    (this : RichCollection) (queries : list Query)
    (st : FirestoreQuery) (cursors : list OrderCursor.t) (q : FirestoreQuery) :
  forEach query_step queries (start this) = Ok (st, cursors) ->
  query this queries = Ok q ->
  exists groupedCursors : groups,
    cursor_calls q = map (fun '(m, vs) => call_cursor m vs) groupedCursors /\
    NoDup (map fst groupedCursors) /\
    forall position values, (position, values) ∈ groupedCursors ->
      values <> [] /\ mapM unwrapData (values_of position cursors) = Ok values.
Proof.
  intros Hst Hq. rewrite (query_after_directives _ _ _ _ Hst) in Hq.
  destruct (forEach group_step cursors []) as [g| |] eqn:Eg; cbn in Hq; try discriminate.
  apply forEach_query_step in Hst as (dcalls & dcursors & Hcalls & _ & Est & _).
  assert (Hnone : cursor_calls st = []).
  { subst st. unfold cursor_calls. cbn. now apply directive_calls_no_cursor in Hcalls. }
  destruct (forEach_group_step_values _ _ _ Eg) as (Hnd & Hne & Hvalues).
  specialize (Hnd (NoDup_nil_2)). specialize (Hne (@List.Forall_nil _ _)).
  destruct (negb (Nat.eqb (length cursors) 0) && forallb defined cursors).
  - injection Hq as <-. exists g. split; [|split; [exact Hnd|]].
    + rewrite apply_groups_calls. unfold cursor_calls in *. cbn.
      now rewrite List.filter_app, Hnone, filter_cursor_calls_groups.
    + intros p vs Hin. split.
      * rewrite List.Forall_forall in Hne. apply (Hne (p, vs)).
        now apply list_elem_of_In.
      * destruct (Hvalues p) as (vs' & Evs & Hat). cbn in Hat.
        now rewrite (values_at_elem_of p vs g Hnd Hin) in Hat; subst.
  - injection Hq as <-. exists []. rewrite Hnone. split; [reflexivity|].
    split; [constructor|]. intros p vs Hin. now apply elem_of_nil in Hin.
Qed.

Lemma cursor_calls_by_position_witness :
  let this := {| path := "users" |} in
  let cursor p v := {| OrderCursor.position := p; OrderCursor.value := v |} in
  let queries := [order (Name "age") "asc" (Some [cursor startAt (VNum 18)]);
                  order (Name "name") "asc"
                    (Some [cursor endBefore (VStr "m"); cursor startAt (VDate 7)])] in
  let cursors := [cursor startAt (VNum 18); cursor endBefore (VStr "m");
                  cursor startAt (VDate 7)] in
  let q := {| from := "users";
              calls := [call_orderBy (FieldPath_string "age") "asc";
                        call_orderBy (FieldPath_string "name") "asc";
                        call_cursor startAt [VNum 18; Timestamp 7];
                        call_cursor endBefore [VStr "m"]] |} in
  exists groupedCursors : groups,
    cursor_calls q = map (fun '(m, vs) => call_cursor m vs) groupedCursors /\
    NoDup (map fst groupedCursors) /\
    forall position values, (position, values) ∈ groupedCursors ->
      values <> [] /\ mapM unwrapData (values_of position cursors) = Ok values.
Proof.
  intros this cursor queries cursors q.
  apply (cursor_calls_by_position this queries
           {| from := "users";
              calls := [call_orderBy (FieldPath_string "age") "asc";
                        call_orderBy (FieldPath_string "name") "asc"] |} cursors q);
    reflexivity.
Defined.

(** A cursor that is [undefined] after resolution leaves the query as the
    directives built it. *)
Lemma query_undefined_cursor this queries st cursors q :
  forEach query_step queries (start this) = Ok (st, cursors) ->
  Exists (fun c => OrderCursor.value c = VUndefined) cursors ->
  query this queries = Ok q ->
  q = st /\ cursor_calls q = [].
Proof.
  intros Hst Hex Hq. rewrite (query_after_directives _ _ _ _ Hst) in Hq.
  destruct (forEach group_step cursors []) as [g| |]; cbn in Hq; try discriminate.
  apply forEach_query_step in Hst as (dcalls & dcursors & Hcalls & _ & Est & _).
  assert (Hdef : forallb defined cursors = false).
  { apply List.Exists_exists in Hex as (c & Hc & Hu).
    destruct (forallb defined cursors) eqn:Hall; [|reflexivity].
    rewrite forallb_forall in Hall. specialize (Hall c Hc).
    apply defined_spec in Hall. contradiction. }
  rewrite Hdef, andb_false_r in Hq. injection Hq as <-. split; [reflexivity|].
  subst st. unfold cursor_calls. cbn. now apply directive_calls_no_cursor in Hcalls.
Qed.

Lemma forEach_query_step_order this qs1 qs2 field method cs :
  forEach query_step (qs1 ++ order field method (Some cs) :: qs2) (start this)
  = ('(q1, c1) ← forEach query_step qs1 (start this);
     resolved ← mapM (resolve_cursor field) cs;
     forEach query_step qs2
       (chain q1 (call_orderBy (order_field field) method), c1 ++ resolved)).
Proof.
  rewrite forEach_app.
  destruct (forEach query_step qs1 (start this)) as [[q1 c1]| |]; cbn; try reflexivity.
  destruct (mapM (resolve_cursor field) cs); reflexivity.
Qed.

Lemma resolve_cursor_doc field position (d : Doc.t) :
  nullish (Doc.data d) = false ->
  resolve_cursor field
    {| OrderCursor.position := position; OrderCursor.value := doc_value d |}
  = Ok {| OrderCursor.position := position;
          OrderCursor.value :=
            match field with
            | docId => VStr (Ref.id (Doc.ref d))
            | Name s => prop (Doc.data d) s
            | Path l => prop (Doc.data d) (join "," l)
            end |}.
Proof.
  intros Hdata. unfold resolve_cursor, cursor_value, member. cbn.
  destruct field; cbn; try reflexivity; now rewrite Hdata.
Qed.

(** X17.  A document given as the value of a cursor stands for its value
    of the ordering field: the query compiles as with a cursor on
    [doc.data[field]] (on [doc.ref.id] when the field is the document
    identifier).  A document that has no value for the field thereby
    disables every cursor of the query: no cursor method is applied. *)
Theorem doc_cursor_is_field_value
    (this : RichCollection) (qs1 qs2 : list Query) (field : Field) (method : string)
    (position : OrderCursorPosition) (d : Doc.t) (cs1 cs2 : list OrderCursor.t) :
  let cursor v := {| OrderCursor.position := position; OrderCursor.value := v |} in
  let v := match field with
           | docId => VStr (Ref.id (Doc.ref d))
           | Name s => prop (Doc.data d) s
           | Path l => prop (Doc.data d) (join "," l)
           end in
  nullish (Doc.data d) = false ->
  is_doc v = false ->
  query this (qs1 ++ order field method (Some (cs1 ++ cursor (doc_value d) :: cs2)) :: qs2)
  = query this (qs1 ++ order field method (Some (cs1 ++ cursor v :: cs2)) :: qs2) /\
  (v = VUndefined ->
   forall q,
     query this (qs1 ++ order field method (Some (cs1 ++ cursor (doc_value d) :: cs2)) :: qs2)
     = Ok q ->
     cursor_calls q = []).
Proof.
  intros cursor v Hdata Hv.
  assert (Edoc : resolve_cursor field (cursor (doc_value d)) = Ok (cursor v)).
  { apply resolve_cursor_doc. exact Hdata. }
  assert (Eval : resolve_cursor field (cursor v) = Ok (cursor v)).
  { unfold resolve_cursor, cursor_value. cbn. now rewrite Hv. }
  assert (Estep : mapM (resolve_cursor field) (cs1 ++ cursor (doc_value d) :: cs2)
                  = mapM (resolve_cursor field) (cs1 ++ cursor v :: cs2)).
  { rewrite !mapM_app. cbn [mapM]. now rewrite Edoc, Eval. }
  assert (Eq : forEach query_step
                 (qs1 ++ order field method (Some (cs1 ++ cursor (doc_value d) :: cs2)) :: qs2)
                 (start this)
               = forEach query_step
                   (qs1 ++ order field method (Some (cs1 ++ cursor v :: cs2)) :: qs2)
                   (start this)).
  { now rewrite !forEach_query_step_order, Estep. }
  split.
  - unfold query. now rewrite Eq.
  - intros Hu q Hq.
    destruct (forEach query_step
                (qs1 ++ order field method (Some (cs1 ++ cursor (doc_value d) :: cs2)) :: qs2)
                (start this)) as [[st cursors]| |] eqn:Hst;
      [|unfold query in Hq; rewrite Hst in Hq; discriminate..].
    apply (query_undefined_cursor this _ st cursors q Hst); [|exact Hq].
    rewrite forEach_query_step_order, mapM_app in Hst. cbn [mapM] in Hst.
    rewrite Edoc in Hst.
    destruct (forEach query_step qs1 (start this)) as [[q1 c1]| |]; cbn in Hst;
      try discriminate.
    destruct (mapM (resolve_cursor field) cs1) as [r1| |]; cbn in Hst; try discriminate.
    destruct (mapM (resolve_cursor field) cs2) as [r2| |]; cbn in Hst; try discriminate.
    apply forEach_query_step in Hst as (dcalls & dcursors & _ & _ & _ & ->).
    apply List.Exists_exists. exists (cursor v). split; [|exact Hu].
    apply in_or_app. left. apply in_or_app. right. apply in_or_app. right. now left.
Qed.

Lemma doc_cursor_is_field_value_witness :
  let this := {| path := "users" |} in
  let d := doc this "u7" (VObj [("name", VStr "Ann")]) in
  let cursor v := {| OrderCursor.position := startAfter; OrderCursor.value := v |} in
  query this ([] ++ order (Name "age") "asc" (Some ([] ++ cursor (doc_value d) :: [])) ::
              [order (Name "name") "asc" (Some [cursor (VStr "m")])])
  = query this ([] ++ order (Name "age") "asc" (Some ([] ++ cursor VUndefined :: [])) ::
                [order (Name "name") "asc" (Some [cursor (VStr "m")])]) /\
  (VUndefined = VUndefined ->
   forall q,
     query this ([] ++ order (Name "age") "asc" (Some ([] ++ cursor (doc_value d) :: [])) ::
                 [order (Name "name") "asc" (Some [cursor (VStr "m")])])
     = Ok q ->
     cursor_calls q = []).
Proof.
  intros this d cursor.
  apply (doc_cursor_is_field_value this [] [order (Name "name") "asc" (Some [cursor (VStr "m")])]
           (Name "age") "asc" startAfter d [] []); reflexivity.
Defined.

Lemma join_cons sep a b l : join sep (a :: b :: l) = a +:+ sep +:+ join sep (b :: l).
Proof. reflexivity. Qed.

(** X18.  A field given as an array of segments is named differently by
    the two directives: [where] joins the segments with dots, [order]
    prints the array, which joins them with commas.  The two names are
    the same only for an array of fewer than two segments. *)
Theorem order_where_path_field (this : RichCollection) (segments : list string)
    (method filter : string) (v v' : value) :
  unwrapData v = Ok v' ->
  query this [order (Path segments) method None]
  = Ok {| from := path this;
          calls := [call_orderBy (FieldPath_string (join "," segments)) method] |} /\
  query this [where_ (Path segments) filter v]
  = Ok {| from := path this;
          calls := [call_where (FieldPath_string (join "." segments)) filter v'] |} /\
  (join "," segments = join "." segments <-> length segments < 2).
Proof.
  intros Ev. split; [reflexivity|]. split.
  - unfold query. cbn. rewrite Ev. reflexivity.
  - destruct segments as [|a [|b l]]; cbn [length].
    + split; [lia | reflexivity].
    + split; [lia | reflexivity].
    + split; [|lia]. rewrite !join_cons. intros E. exfalso.
      apply (f_equal chars) in E. rewrite !chars_app in E.
      apply app_inv_head in E. discriminate.
Qed.

Lemma order_where_path_field_witness :
  let this := {| path := "users" |} in
  query this [order (Path ["address"; "city"]) "asc" None]
  = Ok {| from := "users";
          calls := [call_orderBy (FieldPath_string "address,city") "asc"] |} /\
  query this [where_ (Path ["address"; "city"]) "==" (VStr "Oslo")]
  = Ok {| from := "users";
          calls := [call_where (FieldPath_string "address.city") "==" (VStr "Oslo")] |} /\
  (join "," ["address"; "city"] = join "." ["address"; "city"]
   <-> length ["address"; "city"] < 2).
Proof.
  intros this.
  apply (order_where_path_field this ["address"; "city"] "asc" "==" (VStr "Oslo") (VStr "Oslo")).
  reflexivity.
Defined.

Lemma cursors_of_cursors cs : cursors_of (map arg_cursor cs) = Ok cs.
Proof.
  unfold cursors_of. induction cs as [|c cs IH]; cbn [map mapM]; [reflexivity|].
  rewrite IH. reflexivity.
Qed.

(** X19.  What the [order] helper makes of its arguments.  After a method,
    every cursor is kept.  Without a method the direction is ['asc'], and
    the cursors are kept only when there is exactly one: of two or more,
    the first is dropped, because the first argument after the field is
    skipped whenever there is more than one; the query then compiles as if
    the first cursor had not been given. *)
Theorem order_helper_arguments (field : Field) (method : string) (cs : list OrderCursor.t) :
  QueryHelpers.order queryHelpers field (arg_method method :: map arg_cursor cs)
  = Ok (order field method (match cs with [] => None | _ => Some cs end)) /\
  QueryHelpers.order queryHelpers field (map arg_cursor cs)
  = Ok (order field "asc"
          (match cs with
           | [] => None
           | [c] => Some [c]
           | _ :: rest => Some rest
           end)) /\
  forall (this : RichCollection) (c1 c2 : OrderCursor.t),
    query_with this
      (fun h => directive ← QueryHelpers.order h field [arg_cursor c1; arg_cursor c2];
                Ok [directive])
    = query this [order field "asc" (Some [c2])].
Proof.
  split; [|split; [|reflexivity]].
  - destruct cs as [|c cs]; [reflexivity|].
    cbn [QueryHelpers.order queryHelpers]. unfold order_cursors.
    cbn [length Nat.ltb Nat.leb map drop]. rewrite <- (map_cons arg_cursor).
    rewrite cursors_of_cursors. reflexivity.
  - destruct cs as [|c [|c' cs]]; [reflexivity..|].
    cbn [QueryHelpers.order queryHelpers]. unfold order_cursors.
    cbn [length Nat.ltb Nat.leb map drop]. rewrite <- (map_cons arg_cursor).
    rewrite cursors_of_cursors. reflexivity.
Qed.

Lemma forEach_group_step_Ok before :
  Forall (fun b => exists v, unwrapData (OrderCursor.value b) = Ok v) before ->
  forall g0, exists g, forEach group_step before g0 = Ok g.
Proof.
  induction 1 as [|b before [v Hv] _ IH]; intros g0; cbn [forEach].
  - eauto.
  - unfold group_step at 2. rewrite Hv. cbn. apply IH.
Qed.

(** X20.  The cursors are encoded before they are tested: a cursor value
    that [unwrapData] throws on makes [query] throw, also when another
    cursor is [undefined] and no cursor method would be applied. *)
Theorem cursor_encoding_error
    (this : RichCollection) (queries : list Query) (st : FirestoreQuery)
    (before after : list OrderCursor.t) (c : OrderCursor.t) (e : error) :
  forEach query_step queries (start this) = Ok (st, before ++ c :: after) ->
  Forall (fun b => exists v, unwrapData (OrderCursor.value b) = Ok v) before ->
  unwrapData (OrderCursor.value c) = Throw e ->
  query this queries = Throw e.
Proof.
  intros Hst Hbefore Hc. rewrite (query_after_directives _ _ _ _ Hst).
  rewrite forEach_app.
  destruct (forEach_group_step_Ok before Hbefore []) as [g ->].
  change (Ok g ≫= (fun st' => forEach group_step (c :: after) st'))
    with (st' ← group_step g c; forEach group_step after st').
  assert (Estep : group_step g c = Throw e) by (unfold group_step; now rewrite Hc).
  rewrite Estep. reflexivity.
Qed.

Lemma cursor_encoding_error_witness :
  let this := {| path := "users" |} in
  let cursor v := {| OrderCursor.position := startAt; OrderCursor.value := v |} in
  query this [order (Name "age") "asc" (Some [cursor VUndefined]);
              order (Name "friend") "asc"
                (Some [cursor (VObj [("type", VStr "ref"); ("id", VStr "42")])])]
  = Throw (TypeError "Cannot read properties of undefined (reading 'path')").
Proof.
  intros this cursor.
  apply (cursor_encoding_error this _
           {| from := "users";
              calls := [call_orderBy (FieldPath_string "age") "asc";
                        call_orderBy (FieldPath_string "friend") "asc"] |}
           [cursor VUndefined] []
           (cursor (VObj [("type", VStr "ref"); ("id", VStr "42")]))).
  - reflexivity.
  - repeat constructor. eexists. reflexivity.
  - reflexivity.
Defined.

(** ** Schema *)

Lemma set_prop_new {V} (k : string) (v : V) fs :
  k ∉ map fst fs -> set_prop k v fs = fs ++ [(k, v)].
Proof.
  induction fs as [|[k0 v0] fs IH]; cbn; intros Hk; [reflexivity|].
  destruct (String.eqb_spec k0 k) as [->|Hne].
  - elim Hk. apply elem_of_cons. now left.
  - rewrite IH; [reflexivity|]. intros Hin. apply Hk, elem_of_cons. now right.
Qed.

Lemma forEach_schema_step (es : list (string * value)) : forall richdb,
  NoDup (map fst richdb ++ map fst es) ->
  "__proto__" ∉ map fst es ->
  forEach schema_step es richdb
  = Ok (richdb ++ map (fun e => (fst e, {| path := fst e |})) es).
Proof.
  induction es as [|[k v] es IH]; intros richdb Hnd Hproto; cbn [forEach map].
  - now rewrite app_nil_r.
  - assert (Hk : k <> "__proto__").
    { intros ->. elim Hproto. apply elem_of_cons. now left. }
    assert (Es : schema_step richdb (k, v) = Ok (richdb ++ [(k, {| path := k |})])).
    { unfold schema_step. cbn [fst].
      destruct (String.eqb_spec k "__proto__") as [|_]; [contradiction|].
      rewrite set_prop_new; [reflexivity|].
      cbn in Hnd. apply NoDup_app in Hnd as (_ & Hdisj & _).
      intros Hin. apply (Hdisj _ Hin). apply elem_of_cons. now left. }
    rewrite Es. cbn [mbind result_bind]. rewrite IH.
    + now rewrite <- app_assoc.
    + rewrite map_app. cbn [map fst]. cbn [map fst] in Hnd. now rewrite <- app_assoc.
    + intros Hin. apply Hproto. apply elem_of_cons. now right.
Qed.

(** X21.  [schema] returns one collection for each property of the object
    that the callback returns, in the order of the properties, and the
    path of each collection is the name of its property.  The values of
    the properties play no part: a schema nested with [sub] adds no
    collection and no prefix to a path. *)
Theorem schema_collections
    (getSchema : SchemaHelpers.t -> result value) (db : list (string * value)) :
  getSchema schemaHelpers = Ok (VObj db) ->
  NoDup (map fst db) ->
  "__proto__" ∉ map fst db ->
  schema getSchema = Ok (map (fun e => (fst e, {| path := fst e |})) db).
Proof.
  intros Hdb Hnd Hproto. unfold schema. rewrite Hdb. cbn.
  now rewrite forEach_schema_step.
Qed.

Lemma schema_collections_witness :
  schema (fun h =>
    posts ← SchemaHelpers.sub h (SchemaHelpers.collection h tt)
              (VObj [("comments", SchemaHelpers.collection h tt)]);
    Ok (VObj [("users", SchemaHelpers.collection h tt); ("posts", posts)]))
  = Ok [("users", {| path := "users" |}); ("posts", {| path := "posts" |})].
Proof.
  apply (schema_collections _
           [("users", VObj [("type", VStr "collection")]);
            ("posts", VObj [("type", VStr "collection");
                            ("schema", VObj [("comments", VObj [("type", VStr "collection")])])])]).
  - reflexivity.
  - repeat constructor; intros H; repeat (apply elem_of_cons in H as [H|H]; try discriminate);
      now apply elem_of_nil in H.
  - intros H; repeat (apply elem_of_cons in H as [H|H]; try discriminate);
      now apply elem_of_nil in H.
Defined.

(** ** Connection to the store *)

(** X22.  The server adapter reads its options through optional chaining,
    so that any value is accepted for them.  The application is the one
    that [getApp] returns for [server.app], or for [app] when [server.app]
    is falsy.  The call that obtains the store client is handed
    [server.databaseId] when that is truthy, with and without
    [preferRest], and no database identifier otherwise (also for an empty
    string).  The call is [initializeFirestore], with settings that carry
    [preferRest], exactly when [server.preferRest] is truthy. *)
Theorem admin_firestore_options
    (getApp : value -> result value) (options : value) :
  let server := optional_prop options "server" in
  let databaseId := optional_prop server "databaseId" in
  let preferRest := optional_prop server "preferRest" in
  let appName := if truthy (optional_prop server "app") then optional_prop server "app"
                 else optional_prop options "app" in
  match getApp appName with
  | Ok app =>
      exists instance,
        Admin.firestore getApp options = Ok instance /\
        app_of instance = app /\
        databaseId_of instance = (if truthy databaseId then Some databaseId else None) /\
        (if truthy preferRest
         then exists settings, settings_of instance = Some settings /\
                lookup_prop "preferRest" settings = Some preferRest
         else settings_of instance = None)
  | Throw e => Admin.firestore getApp options = Throw e
  | Unmodelled => Admin.firestore getApp options = Unmodelled
  end.
Proof.
  intros server databaseId preferRest appName.
  unfold Admin.firestore, or_else. fold server. fold appName.
  destruct (getApp appName) as [app| |]; [|reflexivity..]. cbn.
  fold databaseId. fold preferRest.
  destruct (truthy preferRest), (truthy databaseId); eexists;
    (split; [reflexivity|]); cbn; eauto.
Qed.

(** X23.  The adapter for the web does with the [client] part of its
    options what the server adapter does with the [server] part when
    [preferRest] is off: the same application and the same database are
    asked for, by the same call. *)
Theorem client_firestore_as_admin
    (getApp : value -> result value) (options options' : value) :
  optional_prop options "client" = optional_prop options' "server" ->
  optional_prop options "app" = optional_prop options' "app" ->
  truthy (optional_prop (optional_prop options' "server") "preferRest") = false ->
  Client.firestore getApp options = Admin.firestore getApp options'.
Proof.
  intros Esection Eapp Hrest. unfold Client.firestore, Admin.firestore.
  rewrite Esection, Eapp, Hrest. reflexivity.
Qed.

Lemma client_firestore_as_admin_witness :
  let getApp := fun name : value => Ok (VObj [("name", name)]) in
  Client.firestore getApp
    (VObj [("client", VObj [("databaseId", VStr "eu")]); ("app", VStr "web")])
  = Admin.firestore getApp
      (VObj [("server", VObj [("databaseId", VStr "eu")]); ("app", VStr "web")]).
Proof.
  intros getApp. apply (client_firestore_as_admin getApp); reflexivity.
Defined.
